(** * NewCode-Geo: a ten-symbol base-29 code for a latitude/longitude pair

    Shallow embedding of [src/main.py]: the alphabet and its two lookup
    dictionaries, the digit codec ([int_to_base29], [base29_to_int]), the
    coordinate quantizer ([encode], [decode]), the error estimator
    ([calculate_error]) and the command line ([main], from the parsed
    arguments on).

    Python's [int] is [Z] ([%] and [//] by the positive [BASE] are
    [Z.modulo] and [Z.div], both flooring).  A [str] is the list of its
    characters.  An exception is a value of [error] carried by [result].
    The arithmetic on coordinates is written once, over the interface
    [Num], and run at two instances: [binary64] (IEEE-754 doubles, the
    arithmetic CPython executes, through Rocq's primitive floats and their
    specification [SpecFloat]) and [exact] (the same formulas over the
    rationals, without rounding).  What the quantizer needs of the
    arithmetic is collected in [NumLaws], and proved of both instances. *)

From Stdlib Require Import ZArith QArith Qround Qabs Lqa Floats.
From Stdlib Require Uint63.
From Stdlib Require Import Ascii String List Bool Lia.
Import ListNotations.

Local Open Scope Z_scope.

(** ** Strings, exceptions *)

Definition str : Type := list ascii.

Definition lit (s : string) : str := list_ascii_of_string s.

Inductive field : Type := Latitude | Longitude.

(** The exceptions the program can raise.  The three [ValueError]s of the
    source are told apart by their message; [KeyError] is a failed
    [INDEX_TO_CHAR[...]] lookup and [NotFinite] is [math.floor] applied to
    a nan or an infinity. *)
Inductive error : Type :=
| OutOfRange (f : field)
| InvalidLength
| InvalidSymbol (c : ascii)
| KeyError (k : Z)
| NotFinite.

Inductive result (A : Type) : Type :=
| Ok (a : A)
| Err (e : error).

Arguments Ok {A} a.
Arguments Err {A} e.

Definition bind {A B : Type} (m : result A) (k : A -> result B) : result B :=
  match m with
  | Ok a => k a
  | Err e => Err e
  end.

Notation "x <- m ;; k" := (bind m (fun x => k))
  (at level 61, m at next level, right associativity).

(** ** Dictionaries

    A [dict] keeps its entries in insertion order; storing under a key that
    is already present replaces the value in place, as Python does. *)

Section Dict.
Context {K V : Type} (eqb : K -> K -> bool).

Definition dict : Type := list (K * V).

Fixpoint dict_set (d : dict) (k : K) (v : V) : dict :=
  match d with
  | [] => [(k, v)]
  | (k', v') :: d' =>
      if eqb k k' then (k', v) :: d' else (k', v') :: dict_set d' k v
  end.

Fixpoint dict_get (d : dict) (k : K) : option V :=
  match d with
  | [] => None
  | (k', v') :: d' => if eqb k k' then Some v' else dict_get d' k
  end.
End Dict.

Definition enumerate {A : Type} (l : list A) : list (Z * A) :=
  combine (map Z.of_nat (seq 0 (length l))) l.

(** ** The alphabet *)

Definition CHARSET : list ascii :=
  [ "A"; "B"; "C"; "D"; "E"; "F"; "G"; "H";
    "J"; "K"; "L"; "M"; "N"; "P"; "Q"; "R";
    "T"; "U"; "V"; "W"; "X"; "Y"; "2"; "3";
    "4"; "6"; "7"; "8"; "9" ]%char.

Definition BASE : Z := Z.of_nat (length CHARSET).

Definition CHAR_TO_INDEX : @dict ascii Z :=
  fold_left (fun d '(idx, char) => dict_set Ascii.eqb d char idx)
            (enumerate CHARSET) [].

Definition INDEX_TO_CHAR : @dict Z ascii :=
  fold_left (fun d '(idx, char) => dict_set Z.eqb d idx char)
            (enumerate CHARSET) [].

(** ** Digit codec *)

(** The [for _ in range(length)] loop of [int_to_base29]; [chars] is the
    list being appended to, least significant digit first. *)
Fixpoint int_to_base29_loop (length : nat) (n : Z) (chars : list ascii)
  : result (list ascii) :=
  match length with
  | O => Ok chars
  | S length' =>
      match dict_get Z.eqb INDEX_TO_CHAR (n mod BASE) with
      | Some c => int_to_base29_loop length' (n / BASE) (chars ++ [c])
      | None => Err (KeyError (n mod BASE))
      end
  end.

Definition int_to_base29 (n : Z) (length : nat) : result str :=
  chars <- int_to_base29_loop length n [] ;;
  Ok (rev chars).

(** The [for char in s] loop of [base29_to_int], from accumulator [n]. *)
Fixpoint base29_to_int_loop (s : str) (n : Z) : result Z :=
  match s with
  | [] => Ok n
  | char :: s' =>
      match dict_get Ascii.eqb CHAR_TO_INDEX char with
      | None => Err (InvalidSymbol char)
      | Some idx => base29_to_int_loop s' (n * BASE + idx)
      end
  end.

Definition base29_to_int (s : str) : result Z := base29_to_int_loop s 0.

(** ** The arithmetic of the quantizer

    What [encode] and [decode] ask of a coordinate: the four operators, the
    comparison [<=], the promotion of an [int] operand, and [math.floor]
    ([None] where it raises). *)

Class Num (F : Type) : Type := {
  int : Z -> F;
  num_add : F -> F -> F;
  num_sub : F -> F -> F;
  num_mul : F -> F -> F;
  num_div : F -> F -> F;
  num_le : F -> F -> bool;
  num_floor : F -> option Z
}.

Declare Scope num_scope.
Delimit Scope num_scope with num.
Infix "+" := num_add : num_scope.
Infix "-" := num_sub : num_scope.
Infix "*" := num_mul : num_scope.
Infix "/" := num_div : num_scope.
Infix "<=?" := num_le : num_scope.

(** *** IEEE-754 binary64 *)

(** [float(z)]; exact for [|z| < 2^53] ([float_of_int_rep]), which covers
    every integer the program converts (the constants and the decoded
    fields, below 29^5). *)
Definition float_of_int (z : Z) : float :=
  if z <? 0 then PrimFloat.opp (PrimFloat.of_uint63 (Uint63.of_Z (- z)))
  else PrimFloat.of_uint63 (Uint63.of_Z z).

(** [math.floor] on a double: the mantissa [m] and exponent [e] of a finite
    value [(-1)^s * m * 2^e] give the integer below it. *)
Definition float_floor (x : float) : option Z :=
  match Prim2SF x with
  | S754_zero _ => Some 0
  | S754_finite s m e =>
      let v := if s then Z.neg m else Z.pos m in
      match e with
      | Z0 => Some v
      | Zpos p => Some (v * 2 ^ Zpos p)
      | Zneg p => Some (v / 2 ^ Zpos p)
      end
  | S754_infinity _ => None
  | S754_nan => None
  end.

#[export] Instance binary64 : Num float := {
  int := float_of_int;
  num_add := PrimFloat.add;
  num_sub := PrimFloat.sub;
  num_mul := PrimFloat.mul;
  num_div := PrimFloat.div;
  num_le := PrimFloat.leb;
  num_floor := float_floor
}.

(** The rational a double stands for (0 for a nan or an infinity). *)
Definition float_to_Q (x : float) : Q :=
  match Prim2SF x with
  | S754_finite s m e =>
      let v := if s then Z.neg m else Z.pos m in
      match e with
      | Z0 => inject_Z v
      | Zpos p => inject_Z (v * 2 ^ Zpos p)
      | Zneg p => Qmake v (2 ^ p)
      end
  | _ => 0%Q
  end.

(** *** Exact rationals *)

#[export] Instance exact : Num Q := {
  int := inject_Z;
  num_add := Qplus;
  num_sub := Qminus;
  num_mul := Qmult;
  num_div := Qdiv;
  num_le := Qle_bool;
  num_floor := fun x => Some (Qfloor x)
}.

(** ** Coordinate quantizer and error estimator *)

Section Quantizer.
Context {F : Type} `{Num F}.

Definition math_floor (x : F) : result Z :=
  match num_floor x with
  | Some k => Ok k
  | None => Err NotFinite
  end.

(** The chained comparison [lo <= x <= hi]. *)
Definition between (lo : Z) (x : F) (hi : Z) : bool :=
  (int lo <=? x)%num && (x <=? int hi)%num.

(** The integer [encode] computes for one axis: [x] shifted by [offset],
    divided by [span], scaled by [2**24 - 1] and floored. *)
Definition quantize (x : F) (offset span : Z) : result Z :=
  let norm := ((x + int offset) / int span)%num in
  math_floor (norm * int (2 ^ 24 - 1))%num.

Definition encode (lat lon : F) : result str :=
  if negb (between (-90) lat 90) then Err (OutOfRange Latitude)
  else if negb (between (-180) lon 180) then Err (OutOfRange Longitude)
  else
    let lat_norm := ((lat + int 90) / int 180)%num in
    let lon_norm := ((lon + int 180) / int 360)%num in
    lat_int <- math_floor (lat_norm * int (2 ^ 24 - 1))%num ;;
    lon_int <- math_floor (lon_norm * int (2 ^ 24 - 1))%num ;;
    lat_code <- int_to_base29 lat_int 5 ;;
    lon_code <- int_to_base29 lon_int 5 ;;
    Ok (lat_code ++ lon_code).

Definition decode (code : str) : result (F * F) :=
  if negb (Nat.eqb (length code) 10) then Err InvalidLength
  else
    let lat_code := firstn 5 code in
    let lon_code := skipn 5 code in
    lat_int <- base29_to_int lat_code ;;
    lon_int <- base29_to_int lon_code ;;
    let lat_norm := (int lat_int / int (2 ^ 24 - 1))%num in
    let lon_norm := (int lon_int / int (2 ^ 24 - 1))%num in
    let lat := (lat_norm * int 180 - int 90)%num in
    let lon := (lon_norm * int 360 - int 180)%num in
    Ok (lat, lon).

(** [geodesic(original, decoded).meters] is geopy's; it is a parameter
    here, free to raise. *)
Section Estimator.
Context {D : Type} (geodesic_meters : F * F -> F * F -> result D).

Definition calculate_error (lat lon : F) : result D :=
  code <- encode lat lon ;;
  decoded <- decode code ;;
  let original := (lat, lon) in
  geodesic_meters original decoded.
End Estimator.
End Quantizer.

(** ** Command line

    [main], from [args = parser.parse_args()] on.  What [argparse] does
    with the command line is not modelled: [args] is its result, the
    sub-command with its arguments converted ([type=float], [type=str]),
    or no sub-command at all ([args.command] is [None]). *)
Inductive args (F : Type) : Type :=
| Args_encode (latitude longitude : F)
| Args_decode (code : str)
| Args_none.

Arguments Args_encode {F} latitude longitude.
Arguments Args_decode {F} code.
Arguments Args_none {F}.

(** How a run of [main] ends: it returns, it leaves through
    [sys.exit(status)], or an exception it does not catch leaves it. *)
Inductive outcome : Type :=
| Returns
| Exits (status : Z)
| Raises (e : error).

Section Main.
Context {F : Type} `{Num F} {D : Type}.

(** [geodesic(original, decoded).meters], as in [calculate_error]. *)
Variable geodesic_meters : F * F -> F * F -> result D.
(** Whether an exception is an instance of [ValueError]. *)
Variable is_ValueError : error -> bool.
(** [str(ve)], the message of an exception. *)
Variable message : error -> str.
(** The formats [{error:.2f}] and [{lat}], [{lon}]. *)
Variable format_2f : D -> str.
Variable format_float : F -> str.
(** The lines [parser.print_help()] prints. *)
Variable help : list str.

(** [except ValueError as ve: print(f"Error: {ve}"); sys.exit(1)], after
    the lines [printed]; another exception is not caught. *)
Definition except_ValueError (printed : list str) (e : error)
  : list str * outcome :=
  if is_ValueError e
  then (printed ++ [lit "Error: " ++ message e], Exits 1)
  else (printed, Raises e).

(** The lines printed and the way [main] ends. *)
Definition main (a : args F) : list str * outcome :=
  match a with
  | Args_encode latitude longitude =>
      match encode latitude longitude with
      | Err e => except_ValueError [] e
      | Ok code =>
          let printed := [lit "Encoded Code: " ++ code] in
          match calculate_error geodesic_meters latitude longitude with
          | Err e => except_ValueError printed e
          | Ok err =>
              (printed
               ++ [lit "Error: " ++ format_2f err ++ lit " Metor(s)"],
               Returns)
          end
      end
  | Args_decode code =>
      match decode code with
      | Err e => except_ValueError [] e
      | Ok (lat, lon) =>
          ([lit "Decoded Coordinates:";
            lit "Lat: " ++ format_float lat;
            lit "Lon: " ++ format_float lon],
           Returns)
      end
  | Args_none => (help, Exits 1)
  end.
End Main.

(** ** Laws of the arithmetic

    The properties of [Num] the quantizer relies on.  Adding an integer
    constant, dividing by one and multiplying by one carry an interval
    with integer end points onto the interval of the results, and
    [math.floor] is defined between two integers and stays between them.
    The integers are those a double holds exactly ([small]).  Exact
    arithmetic has these properties ([exact_laws]), and so has binary64
    ([binary64_laws]): rounding to nearest never steps over a
    representable number. *)

Definition small (z : Z) : Prop := - 2 ^ 53 < z < 2 ^ 53.

Class NumLaws (F : Type) `{Num F} : Prop := {
  add_range : forall (x : F) (k b : Z),
    0 < k -> 0 <= b -> small (b + k) ->
    (int (- k) <=? x)%num = true -> (x <=? int b)%num = true ->
    (int 0 <=? x + int k)%num = true /\
    (x + int k <=? int (b + k))%num = true;
  div_range : forall (x : F) (k b : Z),
    0 < k -> 0 <= b -> small k -> small (b * k) ->
    (int 0 <=? x)%num = true -> (x <=? int (b * k))%num = true ->
    (int 0 <=? x / int k)%num = true /\ (x / int k <=? int b)%num = true;
  mul_range : forall (x : F) (k b : Z),
    0 < k -> 0 <= b -> small k -> small (b * k) ->
    (int 0 <=? x)%num = true -> (x <=? int b)%num = true ->
    (int 0 <=? x * int k)%num = true /\
    (x * int k <=? int (b * k))%num = true;
  floor_range : forall (x : F) (b : Z),
    0 <= b -> small b ->
    (int 0 <=? x)%num = true -> (x <=? int b)%num = true ->
    exists n : Z, num_floor x = Some n /\ 0 <= n <= b
}.

(** ** Definitions used to state the properties *)

(** The symbol of digit [i]. *)
Definition digit (i : Z) : ascii := nth (Z.to_nat i) CHARSET "A"%char.

(** The [length] low base-29 digits of [n], least significant first. *)
Fixpoint digits (length : nat) (n : Z) : list ascii :=
  match length with
  | O => []
  | S length' => digit (n mod BASE) :: digits length' (n / BASE)
  end.

Definition in_alphabet (s : str) : Prop := Forall (fun c => In c CHARSET) s.

(** One quantization bucket of an axis [span] degrees wide:
    [span / (2^24 - 1)]. *)
Definition bucket (span : Z) : Q := inject_Z span / inject_Z (2 ^ 24 - 1).

(** The double -0.1024872125677625, a latitude a hair below the upper end
    of bucket 8379054. *)
Definition lat_near_boundary : float := (-0x1.a3c9a1a3c9bp-4)%float.

(** The exceptions the program raises with [raise ValueError(...)] are
    [ValueError]s; a [KeyError] is not. *)
Definition ValueError_class (is_ValueError : error -> bool) : Prop :=
  (forall f : field, is_ValueError (OutOfRange f) = true) /\
  is_ValueError InvalidLength = true /\
  (forall c : ascii, is_ValueError (InvalidSymbol c) = true) /\
  (forall k : Z, is_ValueError (KeyError k) = false).

(** ** Definitions used to reason on binary64

    A finite double is [(-1)^s * m * 2^e] with [e >= -1074]; the proofs
    compare such values as integers, scaled by 2^4000 so that no exponent
    met on the way (down to about -2200 inside a division) is negative. *)

(** 2^e, scaled. *)
Definition pw (e : Z) : Z := 2 ^ (e + 4000).

(** What shifting a mantissa right preserves: the mantissa [shr_m mrs] at
    exponent [e] does not exceed the bound [Bv], and is below it as soon as
    a bit was lost (round or sticky bit set). *)
Definition Inv (Bv e : Z) (mrs : shr_record) : Prop :=
  -4000 <= e /\ 0 <= shr_m mrs /\ shr_m mrs * pw e <= Bv /\
  (shr_r mrs = true \/ shr_s mrs = true -> shr_m mrs * pw e < Bv).

(** [x] is a zero or a positive finite double of scaled value at most
    [Bv]. *)
Definition sf_upto (Bv : Z) (x : spec_float) : Prop :=
  match x with
  | S754_zero _ => True
  | S754_finite false m e => Zpos m * pw e <= Bv
  | _ => False
  end.

(** [x] is a zero, a positive finite double up to [Bv] or a negative one
    down to [- Kv]. *)
Definition sf_within (Kv Bv : Z) (x : spec_float) : Prop :=
  match x with
  | S754_zero _ => True
  | S754_finite false m e => Zpos m * pw e <= Bv
  | S754_finite true m e => Zpos m * pw e <= Kv
  | _ => False
  end.

(** [B] is the integer [c]. *)
Definition sf_int (c : Z) (B : spec_float) : Prop :=
  match B with
  | S754_zero false => c = 0
  | S754_finite s m e => (if s then - Zpos m else Zpos m) * pw e = c * pw 0
  | _ => False
  end.

(** ** Definitions used to bound the rounding errors of binary64

    [sval x] is the value of a finite double on the scale of [pw], an
    integer; [fval] is [sval] of a primitive float. *)

(** The exact value [N / D] lies in the cell of the mantissa. *)
Definition Cell (N D e : Z) (mrs : shr_record) : Prop :=
  -4000 <= e /\ 0 <= shr_m mrs /\
  D * (shr_m mrs * pw e) <= N < D * ((shr_m mrs + 1) * pw e).

(** The scaled value of a finite double. *)
Definition sval (x : spec_float) : Z :=
  match x with
  | S754_finite s m e => (if s then - Zpos m else Zpos m) * pw e
  | _ => 0
  end.

(** [x] is a zero or a finite double. *)
Definition sf_fin (x : spec_float) : Prop :=
  match x with
  | S754_zero _ | S754_finite _ _ _ => True
  | _ => False
  end.

Definition fval (x : float) : Z := sval (Prim2SF x).

(** * Properties *)

(** ** Dictionaries and the alphabet *)

Lemma BASE_29 : BASE = 29.
Proof. reflexivity. Qed.

Lemma dict_get_Some_In {V : Type} (d : @dict ascii V) (k : ascii) (v : V) :
  dict_get Ascii.eqb d k = Some v -> In (k, v) d.
Proof.
  induction d as [|[k' v'] d IH]; simpl; [discriminate|].
  destruct (Ascii.eqb k k') eqn:E.
  - apply Ascii.eqb_eq in E. intros [= ->]. subst. now left.
  - intros Hd. right. now apply IH.
Qed.

Lemma dict_get_None_iff {V : Type} (d : @dict ascii V) (k : ascii) :
  dict_get Ascii.eqb d k = None <-> ~ In k (map fst d).
Proof.
  induction d as [|[k' v'] d IH]; simpl.
  - split; [intros _ []|reflexivity].
  - destruct (Ascii.eqb k k') eqn:E.
    + apply Ascii.eqb_eq in E. subst. split; [discriminate|].
      intros Hn. exfalso. apply Hn. now left.
    + apply Ascii.eqb_neq in E. rewrite IH. split.
      * intros Hn [Hk|Hk]; [congruence|now apply Hn].
      * intros Hn Hk. apply Hn. now right.
Qed.

Lemma CHAR_TO_INDEX_keys : map fst CHAR_TO_INDEX = CHARSET.
Proof. reflexivity. Qed.

Lemma CHARSET_NoDup : NoDup CHARSET.
Proof.
  unfold CHARSET.
  repeat (constructor; [simpl; intuition discriminate|]).
  constructor.
Qed.

(** [char not in CHAR_TO_INDEX] is "the character is not in the alphabet". *)
Lemma CHAR_TO_INDEX_None (c : ascii) :
  dict_get Ascii.eqb CHAR_TO_INDEX c = None <-> ~ In c CHARSET.
Proof. rewrite dict_get_None_iff, CHAR_TO_INDEX_keys. reflexivity. Qed.

Lemma CHAR_TO_INDEX_range (c : ascii) (i : Z) :
  dict_get Ascii.eqb CHAR_TO_INDEX c = Some i -> 0 <= i < BASE.
Proof.
  intros Hc. apply dict_get_Some_In in Hc. rewrite BASE_29.
  vm_compute in Hc.
  repeat (destruct Hc as [Hc|Hc]; [injection Hc as _ <-; lia|]).
  destruct Hc.
Qed.

Lemma index_in_range (i : Z) :
  0 <= i < BASE -> In i (map Z.of_nat (seq 0 29)).
Proof.
  rewrite BASE_29. intros Hi. apply in_map_iff. exists (Z.to_nat i).
  split; [lia|]. apply in_seq. lia.
Qed.

(** The two dictionaries are inverse bijections between the alphabet and
    the indices [0 .. 28]. *)
Lemma INDEX_TO_CHAR_digit (i : Z) :
  0 <= i < BASE ->
  dict_get Z.eqb INDEX_TO_CHAR i = Some (digit i) /\
  In (digit i) CHARSET /\
  dict_get Ascii.eqb CHAR_TO_INDEX (digit i) = Some i.
Proof.
  intros Hi. apply index_in_range in Hi. revert i Hi.
  apply Forall_forall.
  repeat (constructor;
          [split; [reflexivity|split; [vm_compute; tauto|reflexivity]]|]).
  constructor.
Qed.

(** ** Digit codec *)

Lemma BASE_pow_pos (k : nat) : 0 < BASE ^ Z.of_nat k.
Proof. rewrite BASE_29. apply Z.pow_pos_nonneg; lia. Qed.

Lemma BASE_pow_succ (k : nat) :
  BASE ^ Z.of_nat (S k) = BASE * BASE ^ Z.of_nat k.
Proof. rewrite Nat2Z.inj_succ. apply Z.pow_succ_r. lia. Qed.

Lemma mod_BASE_range (n : Z) : 0 <= n mod BASE < BASE.
Proof. apply Z.mod_pos_bound. rewrite BASE_29. lia. Qed.

(** The loop appends the digits of [n], whatever the sign or size of [n]:
    the key [n % BASE] is always present. *)
Lemma int_to_base29_loop_digits (length : nat) :
  forall (n : Z) (chars : list ascii),
    int_to_base29_loop length n chars = Ok (chars ++ digits length n).
Proof.
  induction length as [|length IH]; intros n chars;
    cbn [int_to_base29_loop digits].
  - now rewrite app_nil_r.
  - destruct (INDEX_TO_CHAR_digit (n mod BASE) (mod_BASE_range n)) as [-> _].
    rewrite IH, <- app_assoc. reflexivity.
Qed.

Lemma int_to_base29_digits (n : Z) (length : nat) :
  int_to_base29 n length = Ok (rev (digits length n)).
Proof.
  unfold int_to_base29. rewrite int_to_base29_loop_digits. reflexivity.
Qed.

Lemma digits_length (length : nat) :
  forall n : Z, List.length (digits length n) = length.
Proof.
  induction length as [|length IH]; intros n; simpl; [|rewrite IH];
    reflexivity.
Qed.

Lemma digits_in_alphabet (length : nat) :
  forall n : Z, in_alphabet (digits length n).
Proof.
  induction length as [|length IH]; intros n; simpl; constructor.
  - apply INDEX_TO_CHAR_digit, mod_BASE_range.
  - apply IH.
Qed.

Lemma mod_pow_split (n : Z) (k : nat) :
  n mod BASE ^ Z.of_nat (S k)
  = n mod BASE + BASE * ((n / BASE) mod BASE ^ Z.of_nat k).
Proof.
  rewrite BASE_pow_succ. apply Z.rem_mul_r.
  - rewrite BASE_29. lia.
  - apply BASE_pow_pos.
Qed.

Lemma mod_pow_low (n : Z) (k : nat) :
  (n mod BASE ^ Z.of_nat (S k)) mod BASE = n mod BASE.
Proof.
  rewrite mod_pow_split, (Z.mul_comm BASE), Z.mod_add
    by (rewrite BASE_29; lia).
  apply Z.mod_mod. rewrite BASE_29. lia.
Qed.

Lemma mod_pow_high (n : Z) (k : nat) :
  (n mod BASE ^ Z.of_nat (S k)) / BASE = (n / BASE) mod BASE ^ Z.of_nat k.
Proof.
  rewrite mod_pow_split, (Z.mul_comm BASE), Z.div_add
    by (rewrite BASE_29; lia).
  rewrite (Z.div_small (n mod BASE)) by apply mod_BASE_range. lia.
Qed.

(** Only the [length] low digits of [n] are read. *)
Lemma digits_mod (length : nat) :
  forall n : Z, digits length (n mod BASE ^ Z.of_nat length) = digits length n.
Proof.
  induction length as [|length IH]; intros n; [reflexivity|].
  cbn [digits]. rewrite mod_pow_low, mod_pow_high, IH. reflexivity.
Qed.

Lemma base29_to_int_loop_app (s t : str) :
  forall n : Z,
    base29_to_int_loop (s ++ t) n
    = bind (base29_to_int_loop s n) (base29_to_int_loop t).
Proof.
  induction s as [|c s IH]; intros n; cbn [app base29_to_int_loop bind];
    [reflexivity|].
  destruct (dict_get Ascii.eqb CHAR_TO_INDEX c); [apply IH|reflexivity].
Qed.

(** Horner's rule over the reversed digits gives back the low digits. *)
Lemma base29_to_int_loop_digits (length : nat) :
  forall n acc : Z,
    base29_to_int_loop (rev (digits length n)) acc
    = Ok (acc * BASE ^ Z.of_nat length + n mod BASE ^ Z.of_nat length).
Proof.
  induction length as [|length IH]; intros n acc.
  - cbn [digits rev base29_to_int_loop Z.of_nat].
    rewrite Z.pow_0_r, Z.mod_1_r. f_equal. lia.
  - cbn [digits rev]. rewrite base29_to_int_loop_app, IH. cbn [bind].
    cbn [base29_to_int_loop].
    destruct (INDEX_TO_CHAR_digit (n mod BASE) (mod_BASE_range n))
      as (_ & _ & ->).
    rewrite mod_pow_split, BASE_pow_succ. f_equal. ring.
Qed.

Lemma base29_to_int_digits (length : nat) (n : Z) :
  base29_to_int (rev (digits length n)) = Ok (n mod BASE ^ Z.of_nat length).
Proof. unfold base29_to_int. rewrite base29_to_int_loop_digits. f_equal. Qed.

(** C1. For every integer n in [0, 2^24 - 1], decoding the five symbols
    produced for n gives n back:
    [base29_to_int(int_to_base29(n, 5)) == n]. *)
Theorem base29_roundtrip (n : Z) :
  0 <= n <= 2 ^ 24 - 1 ->
  exists s : str, int_to_base29 n 5 = Ok s /\ base29_to_int s = Ok n.
Proof.
  intros Hn. exists (rev (digits 5 n)). split.
  - apply int_to_base29_digits.
  - rewrite base29_to_int_digits. f_equal. apply Z.mod_small.
    rewrite BASE_29. simpl. lia.
Qed.

Lemma base29_roundtrip_witness :
  exists s : str,
    int_to_base29 16777215 5 = Ok s /\ base29_to_int s = Ok 16777215.
Proof. apply (base29_roundtrip 16777215). simpl. lia. Defined.

(** C7. [int_to_base29] truncates instead of failing: for every n >= 0 and
    every positive length it returns exactly [length] symbols, the same ones
    as for [n mod 29^length]; the digits above are dropped and nothing is
    raised when [n >= 29^length]. *)
Theorem int_to_base29_truncates (n : Z) (length : nat) :
  0 <= n -> (0 < length)%nat ->
  exists s : str,
    int_to_base29 n length = Ok s /\
    List.length s = length /\
    int_to_base29 (n mod 29 ^ Z.of_nat length) length = Ok s.
Proof.
  intros _ _. exists (rev (digits length n)). repeat split.
  - apply int_to_base29_digits.
  - rewrite length_rev. apply digits_length.
  - rewrite int_to_base29_digits, <- BASE_29, digits_mod. reflexivity.
Qed.

Lemma int_to_base29_truncates_witness :
  exists s : str,
    int_to_base29 (29 ^ 5 + 7) 5 = Ok s /\
    List.length s = 5%nat /\
    int_to_base29 ((29 ^ 5 + 7) mod 29 ^ Z.of_nat 5) 5 = Ok s.
Proof. apply (int_to_base29_truncates (29 ^ 5 + 7) 5); [simpl|]; lia. Defined.

(** ** The exact instance satisfies the laws *)

Lemma exact_le (x y : Q) : (x <=? y)%num = true <-> (x <= y)%Q.
Proof. apply Qle_bool_iff. Qed.

Lemma inject_Z_pos (k : Z) : 0 < k -> (0 < inject_Z k)%Q.
Proof. intros Hk. change 0%Q with (inject_Z 0). now rewrite <- Zlt_Qlt. Qed.

Lemma exact_laws : NumLaws Q.
Proof.
  split; intros *; rewrite ?exact_le;
    cbn [int num_add num_div num_mul num_floor exact].
  - intros _ _ _ Hlo Hhi.
    rewrite inject_Z_opp in Hlo. rewrite inject_Z_plus.
    change (inject_Z 0) with 0%Q. split; lra.
  - intros Hk _ _ _ Hlo Hhi. apply inject_Z_pos in Hk.
    rewrite inject_Z_mult in Hhi. change (inject_Z 0) with 0%Q in *. split.
    + apply Qle_shift_div_l; [exact Hk|]. lra.
    + apply Qle_shift_div_r; [exact Hk|exact Hhi].
  - intros Hk _ _ _ Hlo Hhi. apply inject_Z_pos in Hk.
    rewrite inject_Z_mult. change (inject_Z 0) with 0%Q in *. split.
    + apply Qmult_le_0_compat; lra.
    + apply Qmult_le_compat_r; lra.
  - intros _ _ Hlo Hhi. exists (Qfloor x). split; [reflexivity|]. split.
    + rewrite <- (Qfloor_Z 0). now apply Qfloor_resp_le.
    + rewrite <- (Qfloor_Z b). now apply Qfloor_resp_le.
Qed.

(** ** The binary64 instance satisfies the laws

    [SpecFloat] gives each operation as an exact integer computation on
    mantissas followed by [binary_round_aux]; the axioms of [FloatAxioms]
    say the primitive operations agree with it. *)

(** *** Scaled powers of two and the length of a mantissa *)

Lemma pw_pos (e : Z) : -4000 <= e -> 0 < pw e.
Proof. intros He. unfold pw. apply Z.pow_pos_nonneg; lia. Qed.

Lemma pw_add (e n : Z) : -4000 <= e -> 0 <= n -> pw (e + n) = pw e * 2 ^ n.
Proof.
  intros He Hn. unfold pw.
  replace (e + n + 4000) with (e + 4000 + n) by lia.
  apply Z.pow_add_r; lia.
Qed.

Lemma pw_succ (e : Z) : -4000 <= e -> pw (e + 1) = 2 * pw e.
Proof. intros He. rewrite pw_add by lia. change (2 ^ 1) with 2. lia. Qed.

Lemma pw_le (a b : Z) : -4000 <= a -> pw a <= pw b -> a <= b.
Proof.
  unfold pw. intros Ha H.
  destruct (Z_le_gt_dec a b) as [|Hgt]; [assumption|exfalso].
  assert (2 ^ (b + 4000) < 2 ^ (a + 4000)); [|lia].
  destruct (Z_lt_le_dec (b + 4000) 0) as [Hneg|Hpos].
  - rewrite (Z.pow_neg_r 2 (b + 4000)) by lia. apply Z.pow_pos_nonneg; lia.
  - apply Z.pow_lt_mono_r; lia.
Qed.

Lemma digits2_pos_bounds (p : positive) :
  2 ^ (Zpos (digits2_pos p) - 1) <= Zpos p < 2 ^ Zpos (digits2_pos p).
Proof.
  induction p as [p IH|p IH|]; cbn [digits2_pos].
  - rewrite Pos2Z.inj_succ.
    replace (Z.succ (Z.pos (digits2_pos p)) - 1)
      with (Z.pos (digits2_pos p) - 1 + 1) by lia.
    rewrite Z.pow_succ_r by lia.
    destruct (Pos.eq_dec (digits2_pos p) 1) as [E|E].
    + rewrite E in *. cbn in *. lia.
    + rewrite Z.pow_add_r by lia. change (2 ^ 1) with 2. lia.
  - rewrite Pos2Z.inj_succ.
    replace (Z.succ (Z.pos (digits2_pos p)) - 1)
      with (Z.pos (digits2_pos p) - 1 + 1) by lia.
    rewrite Z.pow_succ_r by lia.
    destruct (Pos.eq_dec (digits2_pos p) 1) as [E|E].
    + rewrite E in *. cbn in *. lia.
    + rewrite Z.pow_add_r by lia. change (2 ^ 1) with 2. lia.
  - cbn. lia.
Qed.

(** *** Shifting right keeps a value under a bound *)

Section Shifting.
Variable Bv : Z.

Lemma shr_1_inv (e : Z) (mrs : shr_record) :
  Inv Bv e mrs -> Inv Bv (e + 1) (shr_1 mrs).
Proof.
  destruct mrs as [m r s]. unfold Inv. cbn [shr_m shr_r shr_s].
  intros (He & Hm & Hle & Hlt).
  pose proof (pw_pos e He) as Hp. rewrite pw_succ by assumption.
  destruct m as [|[p|p|]|p]; cbn [shr_1 shr_m shr_r shr_s]; try lia;
    try (pose proof (Pos2Z.inj_xI p) as Ep);
    try (pose proof (Pos2Z.inj_xO p) as Ep);
    (repeat split; try lia; intros [H|H]; try discriminate;
     try (apply orb_true_iff in H; specialize (Hlt H)); nia).
Qed.

Lemma iter_shr_1_inv (p : positive) :
  forall (e : Z) (mrs : shr_record),
    Inv Bv e mrs -> Inv Bv (e + Zpos p) (iter_pos shr_1 p mrs).
Proof.
  induction p as [p IH|p IH|]; intros e mrs H; cbn [iter_pos].
  - replace (e + Z.pos p~1) with (e + 1 + Zpos p + Zpos p) by lia.
    apply IH, IH, shr_1_inv, H.
  - replace (e + Z.pos p~0) with (e + Zpos p + Zpos p) by lia.
    apply IH, IH, H.
  - apply shr_1_inv, H.
Qed.

Lemma shr_inv (mrs : shr_record) (e n : Z) :
  Inv Bv e mrs -> Inv Bv (snd (shr mrs e n)) (fst (shr mrs e n)).
Proof.
  intros H. destruct n as [|p|p]; cbn [shr fst snd]; try exact H.
  now apply iter_shr_1_inv.
Qed.
End Shifting.

(** *** Rounding to nearest does not step over a bound on its grid *)

Lemma fexp_eq (e : Z) : fexp prec emax e = Z.max (e - 53) (-1074).
Proof. reflexivity. Qed.

Lemma round_nearest_even_cases (m : Z) (l : location) :
  round_nearest_even m l = m \/
  (round_nearest_even m l = m + 1 /\
   (l = loc_Inexact Eq \/ l = loc_Inexact Gt)).
Proof.
  destruct l as [|[| |]]; cbn [round_nearest_even]; auto.
  destruct (Z.even m); auto.
Qed.

Lemma loc_of_shr_record_r (mrs : shr_record) :
  loc_of_shr_record mrs = loc_Inexact Eq \/
  loc_of_shr_record mrs = loc_Inexact Gt ->
  shr_r mrs = true.
Proof.
  destruct mrs as [m [|] [|]]; cbn; intros [H|H]; congruence.
Qed.

Lemma shr_record_of_loc_m (m : Z) (l : location) :
  shr_m (shr_record_of_loc m l) = m.
Proof. destruct l as [|[| |]]; reflexivity. Qed.

Lemma shr_record_of_loc_exact (m : Z) (l : location) :
  shr_r (shr_record_of_loc m l) = true \/
  shr_s (shr_record_of_loc m l) = true -> l <> loc_Exact.
Proof. destruct l as [|[| |]]; cbn; intros [H|H]; congruence. Qed.

Lemma Inv_init (Bv m e : Z) (l : location) :
  -4000 <= e -> 0 <= m -> m * pw e <= Bv ->
  (l <> loc_Exact -> m * pw e < Bv) ->
  Inv Bv e (shr_record_of_loc m l).
Proof.
  intros He Hm Hle Hlt. unfold Inv. rewrite shr_record_of_loc_m.
  repeat split; try assumption.
  intros H. apply Hlt. now apply shr_record_of_loc_exact in H.
Qed.

(** [binary_round_aux] is given a mantissa [mx] at exponent [ex] and the
    location [lx] of the exact value above it.  When the exact value is at
    most [c * 2^t], the exponent [t] is no finer than the one of the
    result and [c * 2^t] is at most 2^53, the result is a zero or a
    positive finite double that is still at most [c * 2^t]: the mantissa is
    only incremented when bits were lost, that is strictly below the bound,
    and the bound is a point of the grid. *)
Lemma round_aux_le (c t mx ex : Z) (lx : location) :
  -4000 <= ex -> -4000 <= t -> 0 <= mx ->
  fexp prec emax (Zdigits2 mx + ex) <= t ->
  mx * pw ex <= c * pw t ->
  (lx <> loc_Exact ->
   mx * pw ex < c * pw t /\ ex <= fexp prec emax (Zdigits2 mx + ex)) ->
  c * pw t <= pw 53 ->
  match binary_round_aux prec emax false mx ex lx with
  | S754_zero false => True
  | S754_finite false m e => Zpos m * pw e <= c * pw t /\ -4000 <= e
  | _ => False
  end.
Proof.
  intros Hex Ht Hmx Hgrid Hle Hlx Hbig.
  unfold binary_round_aux, shr_fexp.
  set (n := fexp prec emax (Zdigits2 mx + ex) - ex).
  assert (I0 : Inv (c * pw t) ex (shr_record_of_loc mx lx)).
  { apply Inv_init; try assumption. intros H. now apply Hlx. }
  pose proof (shr_inv _ _ ex n I0) as I1.
  assert (G : shr_r (fst (shr (shr_record_of_loc mx lx) ex n)) = true ->
              snd (shr (shr_record_of_loc mx lx) ex n) <= t).
  { destruct n as [|p|p] eqn:En; cbn [shr fst snd]; intros Hr.
    - assert (lx <> loc_Exact)
        by (apply (shr_record_of_loc_exact mx); now left).
      destruct (Hlx H) as [_ H']. lia.
    - lia.
    - assert (lx <> loc_Exact)
        by (apply (shr_record_of_loc_exact mx); now left).
      destruct (Hlx H) as [_ H']. lia. }
  destruct (shr (shr_record_of_loc mx lx) ex n) as [mrs1 e1].
  cbn [fst snd] in I1, G.
  destruct I1 as (He1 & Hm1 & Hle1 & Hlt1).
  set (m2 := round_nearest_even (shr_m mrs1) (loc_of_shr_record mrs1)).
  assert (Hm2 : 0 <= m2 /\ m2 * pw e1 <= c * pw t).
  { destruct (round_nearest_even_cases (shr_m mrs1) (loc_of_shr_record mrs1))
      as [E|[E Hl]]; fold m2 in E; rewrite E; [lia|].
    apply loc_of_shr_record_r in Hl.
    specialize (G Hl). specialize (Hlt1 (or_introl Hl)).
    split; [lia|].
    replace t with (e1 + (t - e1)) in Hlt1 |- * by lia.
    rewrite pw_add in Hlt1 |- * by lia.
    pose proof (pw_pos e1 He1) as Hp.
    assert (shr_m mrs1 < c * 2 ^ (t - e1)) by nia.
    nia. }
  destruct Hm2 as [Hm2 Hle2].
  assert (I2 : Inv (c * pw t) e1 (shr_record_of_loc m2 loc_Exact)).
  { apply Inv_init; try assumption. congruence. }
  pose proof (shr_inv _ _ e1 (fexp prec emax (Zdigits2 m2 + e1) - e1) I2) as I3.
  destruct (shr (shr_record_of_loc m2 loc_Exact) e1
              (fexp prec emax (Zdigits2 m2 + e1) - e1)) as [mrs3 e3].
  cbn [fst snd] in I3. destruct I3 as (He3 & Hm3 & Hle3 & _).
  destruct (shr_m mrs3) as [|m|m]; [exact I| |lia].
  assert (e3 <= 53).
  { apply pw_le; [assumption|]. pose proof (pw_pos e3 He3). nia. }
  replace (e3 <=? emax - prec) with true
    by (symmetry; apply Z.leb_le; cbn; lia).
  split; assumption.
Qed.

(** *** Valid doubles are canonical *)

Lemma pw_mono (a b : Z) : -4000 <= a <= b -> pw a <= pw b.
Proof. intros H. unfold pw. apply Z.pow_le_mono_r; lia. Qed.

Lemma pw_mul (a b : Z) :
  -4000 <= a -> -4000 <= b -> -4000 <= a + b ->
  pw (a + b) * pw 0 = pw a * pw b.
Proof.
  intros Ha Hb Hab. unfold pw. rewrite <- !Z.pow_add_r by lia.
  f_equal. lia.
Qed.

Lemma pw_53 (c t : Z) : -4000 <= t -> c < 2 ^ 53 -> c * pw t < pw (53 + t).
Proof.
  intros Ht Hc. replace (53 + t) with (t + 53) by lia.
  rewrite pw_add by lia. pose proof (pw_pos t Ht). nia.
Qed.

(** A valid finite double has the exponent its mantissa length asks for. *)
Lemma valid_finite (s : bool) (m : positive) (e : Z) :
  valid_binary (S754_finite s m e) = true ->
  -1074 <= e <= 971 /\ Zpos (digits2_pos m) <= 53 /\
  (-1074 < e -> Zpos (digits2_pos m) = 53).
Proof.
  cbn [SpecFloat.valid_binary]. unfold bounded, canonical_mantissa.
  rewrite andb_true_iff, Z.eqb_eq, Z.leb_le, fexp_eq.
  change (emax - prec) with 971. lia.
Qed.

Lemma valid_lt_pow (s : bool) (m : positive) (e : Z) :
  valid_binary (S754_finite s m e) = true -> Zpos m < 2 ^ 53.
Proof.
  intros H. apply valid_finite in H. destruct H as (_ & Hd & _).
  pose proof (digits2_pos_bounds m) as [_ Hm].
  eapply Z.lt_le_trans; [exact Hm|]. apply Z.pow_le_mono_r; lia.
Qed.

Lemma valid_normal_ge (s : bool) (m : positive) (e : Z) :
  valid_binary (S754_finite s m e) = true -> -1074 < e -> 2 ^ 52 <= Zpos m.
Proof.
  intros H He. apply valid_finite in H. destruct H as (_ & _ & Hd).
  pose proof (digits2_pos_bounds m) as [Hm _]. rewrite (Hd He) in Hm.
  exact Hm.
Qed.

(** Between valid doubles, the lower exponent has the lower value. *)
Lemma valid_exp_lt (s1 s2 : bool) (m1 m2 : positive) (e1 e2 : Z) :
  valid_binary (S754_finite s1 m1 e1) = true ->
  valid_binary (S754_finite s2 m2 e2) = true ->
  e1 < e2 -> Zpos m1 * pw e1 < Zpos m2 * pw e2.
Proof.
  intros V1 V2 He.
  pose proof (valid_lt_pow _ _ _ V1) as H1.
  pose proof (proj1 (valid_finite _ _ _ V1)) as R1.
  pose proof (valid_normal_ge _ _ _ V2 ltac:(lia)) as H2.
  pose proof (pw_pos e1 ltac:(lia)) as P1.
  pose proof (pw_mono (e1 + 1) e2 ltac:(lia)) as P2.
  rewrite pw_succ in P2 by lia.
  change (2 ^ 53) with (2 * 2 ^ 52) in H1.
  assert (0 < 2 ^ 52) by (apply Z.pow_pos_nonneg; lia).
  nia.
Qed.

Lemma compare_cont_le (m1 m2 : positive) :
  Pos.compare_cont Eq m1 m2 <> Gt <-> Zpos m1 <= Zpos m2.
Proof.
  change (Pos.compare_cont Eq m1 m2) with (Pos.compare m1 m2).
  rewrite Pos.compare_le_iff. reflexivity.
Qed.

(** [x] is a zero or a positive finite float of scaled value at most [Bv]. *)
(** [x] is a zero, a positive finite float up to [Bv] or a negative one
    down to [- Kv]. *)
(** [B] is the integer [c]. *)
(** *** [<=] on doubles is the order of their values *)

Lemma SFleb_finite_pos (m1 m2 : positive) (e1 e2 : Z) :
  valid_binary (S754_finite false m1 e1) = true ->
  valid_binary (S754_finite false m2 e2) = true ->
  SFleb (S754_finite false m1 e1) (S754_finite false m2 e2) = true <->
  Zpos m1 * pw e1 <= Zpos m2 * pw e2.
Proof.
  intros V1 V2. unfold SFleb. cbn [SFcompare].
  pose proof (proj1 (valid_finite _ _ _ V1)) as R1.
  pose proof (proj1 (valid_finite _ _ _ V2)) as R2.
  destruct (Z.compare_spec e1 e2) as [E|E|E].
  - subst e2. pose proof (pw_pos e1 ltac:(lia)) as P.
    pose proof (compare_cont_le m1 m2) as C.
    destruct (Pos.compare_cont Eq m1 m2); split; intros H; try reflexivity;
      try discriminate.
    + apply Z.mul_le_mono_nonneg_r; [lia|]. apply C. discriminate.
    + apply Z.mul_le_mono_nonneg_r; [lia|]. apply C. discriminate.
    + exfalso. assert (Zpos m1 <= Zpos m2) by nia.
      apply C in H0. congruence.
  - pose proof (valid_exp_lt _ _ _ _ _ _ V1 V2 E). split; [lia|reflexivity].
  - pose proof (valid_exp_lt _ _ _ _ _ _ V2 V1 E). split; [discriminate|lia].
Qed.

Lemma SFleb_finite_neg (m1 m2 : positive) (e1 e2 : Z) :
  valid_binary (S754_finite true m1 e1) = true ->
  valid_binary (S754_finite true m2 e2) = true ->
  SFleb (S754_finite true m1 e1) (S754_finite true m2 e2) = true ->
  Zpos m2 * pw e2 <= Zpos m1 * pw e1.
Proof.
  intros V1 V2. unfold SFleb. cbn [SFcompare].
  pose proof (proj1 (valid_finite _ _ _ V1)) as R1.
  pose proof (proj1 (valid_finite _ _ _ V2)) as R2.
  destruct (Z.compare_spec e1 e2) as [E|E|E].
  - subst e2. pose proof (pw_pos e1 ltac:(lia)) as P.
    pose proof (compare_cont_le m2 m1) as C.
    rewrite (Pos.compare_cont_antisym m1 m2 Eq). cbn [CompOpp].
    destruct (Pos.compare_cont Eq m2 m1); cbn [CompOpp]; intros H;
      try discriminate;
      (apply Z.mul_le_mono_nonneg_r; [lia|]; apply C; discriminate).
  - discriminate.
  - intros _. pose proof (valid_exp_lt _ _ _ _ _ _ V2 V1 E). lia.
Qed.

Lemma sf_upto_of_leb (c : Z) (B x : spec_float) :
  0 <= c -> sf_int c B ->
  valid_binary B = true -> valid_binary x = true ->
  SFleb (S754_zero false) x = true -> SFleb x B = true ->
  sf_upto (c * pw 0) x.
Proof.
  intros Hc HB VB Vx H0 H1.
  destruct B as [[|]|sB| |[|] mB eB]; cbn [sf_int] in HB; try contradiction;
    destruct x as [sx|[|]| |[|] mx ex]; cbn [sf_upto]; try exact I;
    try discriminate.
  rewrite <- HB. now apply SFleb_finite_pos.
Qed.

Lemma leb_of_sf_upto (c : Z) (B x : spec_float) :
  0 <= c -> sf_int c B ->
  valid_binary B = true -> valid_binary x = true ->
  sf_upto (c * pw 0) x ->
  SFleb (S754_zero false) x = true /\ SFleb x B = true.
Proof.
  intros Hc HB VB Vx Hx.
  destruct x as [sx|sx| |sx mx ex]; cbn [sf_upto] in Hx; try contradiction.
  - split; [reflexivity|].
    destruct B as [sB|sB| |sB mB eB]; cbn [sf_int] in HB; try contradiction.
    + reflexivity.
    + destruct sB; [|reflexivity].
      pose proof (proj1 (valid_finite _ _ _ VB)) as RB.
      pose proof (pw_pos eB ltac:(lia)). pose proof (pw_pos 0 ltac:(lia)).
      nia.
  - destruct sx; [contradiction|]. split; [reflexivity|].
    pose proof (proj1 (valid_finite _ _ _ Vx)) as Rx.
    pose proof (pw_pos ex ltac:(lia)). pose proof (pw_pos 0 ltac:(lia)).
    destruct B as [sB|sB| |sB mB eB]; cbn [sf_int] in HB; try contradiction.
    + destruct sB; [contradiction|]. subst c. nia.
    + destruct sB.
      * pose proof (proj1 (valid_finite _ _ _ VB)) as RB.
        pose proof (pw_pos eB ltac:(lia)). nia.
      * apply SFleb_finite_pos; try assumption. rewrite HB. exact Hx.
Qed.

Lemma sf_within_of_leb (k b : Z) (Kn B x : spec_float) :
  0 < k -> 0 <= b -> sf_int (- k) Kn -> sf_int b B ->
  valid_binary Kn = true -> valid_binary B = true -> valid_binary x = true ->
  SFleb Kn x = true -> SFleb x B = true ->
  sf_within (k * pw 0) (b * pw 0) x.
Proof.
  intros Hk Hb HK HB VK VB Vx H0 H1.
  pose proof (pw_pos 0 ltac:(lia)) as P0.
  destruct Kn as [[|]|sK| |[|] mK eK]; cbn [sf_int] in HK;
    try contradiction; try lia.
  - pose proof (proj1 (valid_finite _ _ _ VK)) as RK.
    pose proof (pw_pos eK ltac:(lia)) as PK.
    destruct x as [sx|[|]| |[|] mx ex]; cbn [sf_within]; try exact I;
      try discriminate.
    + destruct B as [[|]|sB| |[|] mB eB]; cbn [sf_int] in HB;
        try contradiction; discriminate.
    + apply SFleb_finite_neg in H0; try assumption. nia.
    + apply (sf_upto_of_leb b B _ Hb HB VB Vx); [reflexivity|exact H1].
  - pose proof (proj1 (valid_finite _ _ _ VK)) as RK.
    pose proof (pw_pos eK ltac:(lia)) as PK. nia.
Qed.

(** *** Integers below 2^53 convert exactly *)

Lemma Pos_iter_xO_val (m d : positive) :
  Zpos (Pos.iter xO m d) = Zpos m * 2 ^ Zpos d.
Proof.
  induction d as [|d IH] using Pos.peano_ind.
  - cbn [Pos.iter]. rewrite Pos2Z.inj_xO. change (2 ^ 1) with 2. lia.
  - rewrite Pos.iter_succ, Pos2Z.inj_xO, IH, Pos2Z.inj_succ, Z.pow_succ_r
      by lia. lia.
Qed.

Lemma Pos_iter_xO_digits (m d : positive) :
  Zpos (digits2_pos (Pos.iter xO m d)) = Zpos (digits2_pos m) + Zpos d.
Proof.
  induction d as [|d IH] using Pos.peano_ind.
  - cbn [Pos.iter digits2_pos]. lia.
  - rewrite Pos.iter_succ. cbn [digits2_pos]. lia.
Qed.

Lemma binary_round_aux_exact (s : bool) (m : positive) (e : Z) :
  Zpos (digits2_pos m) = 53 -> -1074 <= e <= 971 ->
  binary_round_aux prec emax s (Zpos m) e loc_Exact = S754_finite s m e.
Proof.
  intros Hd He. unfold binary_round_aux, shr_fexp.
  cbn [Zdigits2 shr_record_of_loc round_nearest_even].
  rewrite fexp_eq, Hd.
  replace (Z.max (53 + e - 53) (-1074) - e) with 0 by lia.
  cbn [shr shr_m loc_of_shr_record round_nearest_even Zdigits2
       shr_record_of_loc].
  rewrite fexp_eq, Hd.
  replace (Z.max (53 + e - 53) (-1074) - e) with 0 by lia.
  cbn [shr shr_m].
  replace (e <=? emax - prec) with true; [reflexivity|].
  symmetry. apply Z.leb_le. change (emax - prec) with 971. lia.
Qed.

(** An integer below 2^53 is converted exactly. *)
Lemma binary_round_int (s : bool) (p : positive) :
  Zpos p < 2 ^ 53 ->
  exists (m : positive) (e : Z),
    binary_round prec emax s p 0 = S754_finite s m e /\
    -52 <= e <= 0 /\ Zpos m * pw e = Zpos p * pw 0.
Proof.
  intros Hp. unfold binary_round.
  pose proof (digits2_pos_bounds p) as [Hlo Hhi].
  assert (Hd : Zpos (digits2_pos p) <= 53).
  { destruct (Z_le_gt_dec (Zpos (digits2_pos p)) 53) as [|Hgt]; [assumption|].
    exfalso. assert (2 ^ 53 <= 2 ^ (Zpos (digits2_pos p) - 1))
      by (apply Z.pow_le_mono_r; lia). lia. }
  rewrite fexp_eq.
  replace (Z.max (Z.pos (digits2_pos p) + 0 - 53) (-1074))
    with (Zpos (digits2_pos p) - 53) by lia.
  unfold shl_align.
  destruct (Zpos (digits2_pos p) - 53 - 0) as [|q|q] eqn:Eq; try lia.
  - exists p, 0. rewrite binary_round_aux_exact by lia.
    repeat split; lia.
  - exists (Pos.iter xO p q), (Zpos (digits2_pos p) - 53).
    rewrite binary_round_aux_exact.
    + repeat split; try lia. rewrite Pos_iter_xO_val.
      assert (E : pw 0 = pw (Zpos (digits2_pos p) - 53) * 2 ^ Zpos q).
      { rewrite <- pw_add by lia. f_equal. lia. }
      rewrite E. ring.
    + rewrite Pos_iter_xO_digits. lia.
    + lia.
Qed.

Lemma to_Z_of_Z_small (k : Z) :
  0 <= k < 2 ^ 53 -> Uint63.to_Z (Uint63.of_Z k) = k.
Proof.
  intros Hk. rewrite Uint63.of_Z_spec. apply Z.mod_small.
  assert (2 ^ 53 < Uint63.wB) by (vm_compute; reflexivity). lia.
Qed.

(** [float(k)] is [k], for [|k| < 2^53]. *)
Lemma float_of_int_rep (k : Z) :
  - 2 ^ 53 < k < 2 ^ 53 -> sf_int k (Prim2SF (float_of_int k)).
Proof.
  intros Hk. unfold float_of_int.
  destruct (Z.ltb_spec k 0) as [Hneg|Hpos].
  - rewrite FloatAxioms.opp_spec, FloatAxioms.of_uint63_spec,
      to_Z_of_Z_small by lia.
    destruct (- k) as [|p|p] eqn:E; try lia.
    cbn [binary_normalize].
    destruct (binary_round_int false p ltac:(lia)) as (m & e & -> & He & Hv).
    cbn [SFopp negb sf_int]. lia.
  - rewrite FloatAxioms.of_uint63_spec, to_Z_of_Z_small by lia.
    destruct k as [|p|p]; try lia.
    + reflexivity.
    + cbn [binary_normalize].
      destruct (binary_round_int false p ltac:(lia)) as (m & e & -> & He & Hv).
      cbn [sf_int]. lia.
Qed.

(** *** Multiplication *)

Lemma pw_lt_inv (a b : Z) : -4000 <= b -> pw a < pw b -> a < b.
Proof.
  intros Hb H. destruct (Z_lt_le_dec a b) as [|Hge]; [assumption|exfalso].
  pose proof (pw_mono b a ltac:(lia)). lia.
Qed.

Lemma pw_0_53 : pw 53 = 2 ^ 53 * pw 0.
Proof. replace 53 with (0 + 53) at 1 by lia. rewrite pw_add by lia. lia. Qed.

(** A positive mantissa whose value is below 2^53 sits on a grid no
    coarser than the integers. *)
Lemma digits_grid (m : positive) (e c : Z) :
  -4000 <= e -> Zpos m * pw e <= c * pw 0 -> c < 2 ^ 53 ->
  fexp prec emax (Zdigits2 (Zpos m) + e) <= 0.
Proof.
  intros He Hle Hc. rewrite fexp_eq. cbn [Zdigits2].
  pose proof (digits2_pos_bounds m) as [Hlo _].
  pose proof (pw_pos e He) as Pe. pose proof (pw_pos 0 ltac:(lia)) as P0.
  assert (H : pw (e + (Zpos (digits2_pos m) - 1)) < pw 53).
  { rewrite pw_add by lia. rewrite pw_0_53. nia. }
  apply pw_lt_inv in H; lia.
Qed.

Lemma sf_int_pos (k : Z) (K : spec_float) :
  0 < k -> sf_int k K -> valid_binary K = true ->
  exists (m : positive) (e : Z),
    K = S754_finite false m e /\ Zpos m * pw e = k * pw 0 /\
    -1074 <= e <= 971.
Proof.
  intros Hk HK VK. pose proof (pw_pos 0 ltac:(lia)) as P0.
  destruct K as [[|]|s| |[|] m e]; cbn [sf_int] in HK; try contradiction;
    try lia.
  - pose proof (proj1 (valid_finite _ _ _ VK)) as R.
    pose proof (pw_pos e ltac:(lia)). nia.
  - exists m, e. repeat split; try assumption;
      apply (valid_finite _ _ _ VK).
Qed.

(** [x * k] for [0 <= x <= b]. *)
Lemma SFmul_upto (x K : spec_float) (b k : Z) :
  valid_binary x = true -> valid_binary K = true ->
  0 < k -> 0 <= b -> b * k < 2 ^ 53 ->
  sf_int k K -> sf_upto (b * pw 0) x ->
  sf_upto (b * k * pw 0) (SF64mul x K).
Proof.
  intros Vx VK Hk Hb Hbk HK Hx.
  destruct (sf_int_pos k K Hk HK VK) as (mK & eK & -> & HvK & RK).
  destruct x as [sx|sx| |[|] mx ex]; cbn [sf_upto] in Hx; try contradiction.
  - exact I.
  - pose proof (proj1 (valid_finite _ _ _ Vx)) as Rx.
    pose proof (pw_pos 0 ltac:(lia)) as P0.
    pose proof (pw_pos ex ltac:(lia)) as Px.
    pose proof (pw_pos eK ltac:(lia)) as PK.
    pose proof (pw_pos (ex + eK) ltac:(lia)) as PxK.
    pose proof (pw_mul ex eK ltac:(lia) ltac:(lia) ltac:(lia)) as Hmul.
    assert (Hval : Zpos (mx * mK) * pw (ex + eK) <= b * k * pw 0).
    { rewrite Pos2Z.inj_mul.
      apply Z.mul_le_mono_pos_r with (p := pw 0); [exact P0|].
      replace (Zpos mx * Zpos mK * pw (ex + eK) * pw 0)
        with ((Zpos mx * pw ex) * (Zpos mK * pw eK))
        by (rewrite <- (Z.mul_assoc _ (pw (ex + eK)) (pw 0)), Hmul; ring).
      rewrite HvK. nia. }
    unfold SF64mul, SFmul. cbn [xorb].
    pose proof (round_aux_le (b * k) 0 (Zpos (mx * mK)) (ex + eK) loc_Exact
                  ltac:(lia) ltac:(lia) (Pos2Z.is_nonneg _)) as R.
    specialize (R (digits_grid (mx * mK) (ex + eK) (b * k)
                     ltac:(lia) Hval Hbk) Hval).
    specialize (R ltac:(congruence)).
    specialize (R ltac:(rewrite pw_0_53; nia)).
    destruct (binary_round_aux prec emax false (Z.pos (mx * mK)) (ex + eK)
                loc_Exact) as [[|]|s| |[|] m e]; cbn [sf_upto];
      try contradiction; try exact I.
    apply R.
Qed.

(** *** Addition *)

(** Aligning a mantissa to an exponent keeps the value. *)
Lemma shl_align_val (m : positive) (e e' : Z) :
  -4000 <= e -> -4000 <= e' ->
  Zpos (fst (shl_align m e e')) * pw (snd (shl_align m e e')) = Zpos m * pw e
  /\ -4000 <= snd (shl_align m e e')
  /\ (e' <= e -> snd (shl_align m e e') = e').
Proof.
  intros He He'. unfold shl_align.
  destruct (e' - e) as [|d|d] eqn:E; cbn [fst snd].
  - repeat split; lia.
  - repeat split; lia.
  - rewrite Pos_iter_xO_val.
    assert (Ee : pw e = pw e' * 2 ^ Zpos d).
    { rewrite <- pw_add by lia. f_equal. lia. }
    rewrite Ee. repeat split; lia.
Qed.

(** Rounding an exact positive value. *)
Lemma binary_round_upto (p : positive) (e c : Z) :
  -1074 <= e -> Zpos p * pw e <= c * pw 0 -> c < 2 ^ 53 ->
  sf_upto (c * pw 0) (binary_round prec emax false p e).
Proof.
  intros He Hle Hc. unfold binary_round.
  set (f := fexp prec emax (Zpos (digits2_pos p) + e)).
  assert (Hf : -1074 <= f) by (unfold f; rewrite fexp_eq; lia).
  destruct (shl_align_val p e f ltac:(lia) ltac:(lia)) as (Hv & Hs & _).
  destruct (shl_align p e f) as [mz ez]. cbn [fst snd] in Hv, Hs.
  rewrite <- Hv in Hle.
  pose proof (pw_pos 0 ltac:(lia)) as P0.
  pose proof (pw_pos ez Hs) as Pz.
  pose proof (round_aux_le c 0 (Zpos mz) ez loc_Exact
                Hs ltac:(lia) (Pos2Z.is_nonneg _)) as R.
  specialize (R (digits_grid mz ez c Hs Hle Hc) Hle).
  specialize (R ltac:(congruence)).
  specialize (R ltac:(rewrite pw_0_53; nia)).
  destruct (binary_round_aux prec emax false (Z.pos mz) ez loc_Exact)
    as [[|]|s| |[|] m e0]; cbn [sf_upto]; try contradiction; try exact I.
  apply R.
Qed.

(** [x + k] for [-k <= x <= b]: the aligned mantissas are added exactly,
    the sum is not negative, and it is rounded. *)
Lemma SFadd_upto (x K : spec_float) (b k : Z) :
  valid_binary x = true -> valid_binary K = true ->
  0 < k -> 0 <= b -> b + k < 2 ^ 53 ->
  sf_int k K -> sf_within (k * pw 0) (b * pw 0) x ->
  sf_upto ((b + k) * pw 0) (SF64add x K).
Proof.
  intros Vx VK Hk Hb Hbk HK Hx.
  destruct (sf_int_pos k K Hk HK VK) as (mK & eK & -> & HvK & RK).
  pose proof (pw_pos 0 ltac:(lia)) as P0.
  destruct x as [sx|sx| |sx mx ex]; cbn [sf_within] in Hx;
    try contradiction.
  - cbn [SF64add SFadd sf_upto]. unfold SF64add, SFadd. cbn [sf_upto]. nia.
  - pose proof (proj1 (valid_finite _ _ _ Vx)) as Rx.
    unfold SF64add, SFadd.
    set (ez := Z.min ex eK).
    destruct (shl_align_val mx ex ez ltac:(lia) ltac:(lia)) as (Hv1 & _ & Hs1).
    destruct (shl_align_val mK eK ez ltac:(lia) ltac:(lia)) as (Hv2 & _ & Hs2).
    rewrite Hs1 in Hv1 by lia. rewrite Hs2 in Hv2 by lia.
    set (a1 := Zpos (fst (shl_align mx ex ez))) in *.
    set (a2 := Zpos (fst (shl_align mK eK ez))) in *.
    pose proof (pw_pos ez ltac:(lia)) as Pz.
    assert (Hsum : (cond_Zopp sx a1 + cond_Zopp false a2) * pw ez
                   <= (b + k) * pw 0 /\
                   0 <= (cond_Zopp sx a1 + cond_Zopp false a2) * pw ez).
    { destruct sx; cbn [cond_Zopp]; nia. }
    destruct Hsum as [Hup Hlow].
    destruct (cond_Zopp sx a1 + cond_Zopp false a2) as [|p|p] eqn:Ez;
      cbn [binary_normalize].
    + exact I.
    + apply binary_round_upto; [lia|exact Hup|exact Hbk].
    + exfalso. assert (Zneg p * pw ez < 0) by nia. lia.
Qed.

(** *** Division *)

Lemma Zdigits2_ge (q j : Z) : 0 <= j -> 2 ^ j <= q -> j + 1 <= Zdigits2 q.
Proof.
  intros Hj Hq. assert (0 < 2 ^ j) by (apply Z.pow_pos_nonneg; lia).
  destruct q as [|p|p]; try lia. cbn [Zdigits2].
  pose proof (digits2_pos_bounds p) as [_ Hhi].
  destruct (Z_lt_le_dec j (Zpos (digits2_pos p))) as [|Hge]; [lia|exfalso].
  assert (2 ^ Zpos (digits2_pos p) <= 2 ^ j)
    by (apply Z.pow_le_mono_r; lia).
  lia.
Qed.

Lemma Zdigits2_nonneg (q : Z) : 0 <= Zdigits2 q.
Proof. destruct q; cbn; lia. Qed.

Lemma new_location_exact (n k : Z) :
  new_location n k <> loc_Exact -> k <> 0.
Proof.
  unfold new_location, new_location_even, new_location_odd.
  intros H ->. destruct (Z.even n); cbn in H; congruence.
Qed.

Lemma shift_match (m s : Z) :
  0 <= s ->
  match s with
  | 0 => m
  | Z.pos _ => Z.shiftl m s
  | Z.neg _ => 0
  end = m * 2 ^ s.
Proof.
  intros Hs. destruct s as [|p|p]; try lia.
  apply Z.shiftl_mul_pow2. lia.
Qed.

(** The quotient, its exponent and its location, as the rounding wants
    them. *)
Lemma SFdiv_core_spec (m1 m2 : positive) (e1 e2 : Z) :
  let '(q, e', l) := SFdiv_core_binary prec emax (Zpos m1) e1 (Zpos m2) e2 in
  exists s r : Z,
    0 <= s /\ e' + s = e1 - e2 /\
    Z.min (-1074) (e1 - e2) <= e' /\
    Zpos m1 * 2 ^ s = q * Zpos m2 + r /\ 0 <= r < Zpos m2 /\ 0 <= q /\
    (l <> loc_Exact -> r <> 0) /\
    e' <= fexp prec emax (Zdigits2 q + e').
Proof.
  unfold SFdiv_core_binary. cbn [Zdigits2].
  set (d1 := Zpos (digits2_pos m1)). set (d2 := Zpos (digits2_pos m2)).
  set (e' := Z.min (fexp prec emax (d1 + e1 - (d2 + e2))) (e1 - e2)).
  set (s := e1 - e2 - e').
  assert (Hs : 0 <= s).
  { unfold s, e'. generalize (fexp prec emax (d1 + e1 - (d2 + e2))). lia. }
  set (m' := match s with
             | 0 => Z.pos m1
             | Z.pos _ => Z.shiftl (Z.pos m1) s
             | Z.neg _ => 0
             end).
  assert (Hm' : m' = Zpos m1 * 2 ^ s).
  { unfold m'. now apply shift_match. }
  pose proof (Z_div_mod m' (Zpos m2) ltac:(lia)) as Hdiv.
  destruct (Z.div_eucl m' (Z.pos m2)) as [q r]. destruct Hdiv as [Hqr Hr].
  exists s, r.
  assert (Hpow : 0 < 2 ^ s) by (apply Z.pow_pos_nonneg; lia).
  assert (Hq : 0 <= q) by nia.
  repeat split; try lia.
  - unfold e'. rewrite fexp_eq. lia.
  - now apply new_location_exact.
  - (* enough digits in the quotient *)
    assert (Hd : d1 + s - d2 <= Zdigits2 q).
    { destruct (Z_le_gt_dec (d1 + s - d2) 0) as [|Hpos].
      - pose proof (Zdigits2_nonneg q). lia.
      - replace (d1 + s - d2) with (d1 + s - d2 - 1 + 1) by lia.
        apply Zdigits2_ge; [lia|].
        pose proof (digits2_pos_bounds m1) as [Hlo1 _].
        pose proof (digits2_pos_bounds m2) as [_ Hhi2].
        fold d1 in Hlo1. fold d2 in Hhi2.
        assert (E : 2 ^ (d1 - 1) * 2 ^ s
                    = 2 ^ (d1 + s - d2 - 1) * 2 ^ d2).
        { rewrite <- !Z.pow_add_r by lia. f_equal. lia. }
        assert (0 < 2 ^ (d1 + s - d2 - 1))
          by (apply Z.pow_pos_nonneg; lia).
        assert (2 ^ (d1 + s - d2 - 1) * Zpos m2 <= m') by nia.
        nia. }
    rewrite !fexp_eq. unfold e' at 1. rewrite fexp_eq. unfold s in Hd. lia.
Qed.

(** [x / k] for [0 <= x <= b * k]. *)
Lemma SFdiv_upto (x K : spec_float) (b k : Z) :
  valid_binary x = true -> valid_binary K = true ->
  0 < k -> 0 <= b -> b * k < 2 ^ 53 ->
  sf_int k K -> sf_upto (b * k * pw 0) x ->
  sf_upto (b * pw 0) (SF64div x K).
Proof.
  intros Vx VK Hk Hb Hbk HK Hx.
  destruct (sf_int_pos k K Hk HK VK) as (mK & eK & -> & HvK & RK).
  destruct x as [sx|sx| |[|] mx ex]; cbn [sf_upto] in Hx; try contradiction.
  - exact I.
  - pose proof (proj1 (valid_finite _ _ _ Vx)) as Rx.
    unfold SF64div, SFdiv. cbn [xorb].
    pose proof (SFdiv_core_spec mx mK ex eK) as Hc.
    destruct (SFdiv_core_binary prec emax (Z.pos mx) ex (Z.pos mK) eK)
      as [[q e'] l].
    destruct Hc as (s & r & Hs & He' & Hlow & Hqr & Hr & Hq & Hl & Hfe).
    pose proof (pw_pos 0 ltac:(lia)) as P0.
    pose proof (pw_pos ex ltac:(lia)) as Px.
    pose proof (pw_pos eK ltac:(lia)) as PK.
    pose proof (pw_pos e' ltac:(lia)) as Pe.
    assert (Hpow : 0 < 2 ^ s) by (apply Z.pow_pos_nonneg; lia).
    (* pw ex * pw 0 = pw e' * 2^s * pw eK *)
    assert (Hexp : pw ex * pw 0 = pw e' * 2 ^ s * pw eK).
    { rewrite <- pw_add by lia.
      rewrite <- (pw_mul (e' + s) eK) by lia.
      f_equal. f_equal. lia. }
    assert (Hb53 : b < 2 ^ 53) by nia.
    (* q * pw e' * (k * pw 0) + r * pw e' * pw eK = mx * pw ex * pw 0 *)
    assert (Hkey : q * pw e' * (k * pw 0) + r * (pw e' * pw eK)
                   = Zpos mx * pw ex * pw 0).
    { replace (Zpos mx * pw ex * pw 0) with (Zpos mx * (pw ex * pw 0))
        by ring.
      rewrite Hexp, <- HvK.
      replace (Zpos mx * (pw e' * 2 ^ s * pw eK))
        with (Zpos mx * 2 ^ s * (pw e' * pw eK)) by ring.
      rewrite Hqr. ring. }
    assert (Hrp : 0 <= r * (pw e' * pw eK)) by nia.
    assert (Hval : q * pw e' <= b * pw 0).
    { apply Z.mul_le_mono_pos_r with (p := k * pw 0); [nia|]. nia. }
    assert (Hstrict : r <> 0 -> q * pw e' < b * pw 0).
    { intros Hr0. assert (0 < r * (pw e' * pw eK)) by nia.
      apply Z.mul_lt_mono_pos_r with (p := k * pw 0); [nia|]. nia. }
    assert (Hgrid : fexp prec emax (Zdigits2 q + e') <= 0).
    { destruct q as [|qp|qp]; try lia.
      - cbn [Zdigits2] in *. rewrite fexp_eq in *. lia.
      - apply (digits_grid qp e' b); [lia|exact Hval|exact Hb53]. }
    pose proof (round_aux_le b 0 q e' l ltac:(lia) ltac:(lia) Hq Hgrid Hval)
      as R.
    specialize (R ltac:(intros Hne; split; [apply Hstrict, Hl, Hne|exact Hfe])).
    specialize (R ltac:(rewrite pw_0_53; nia)).
    destruct (binary_round_aux prec emax false q e' l)
      as [[|]|s0| |[|] m e0]; cbn [sf_upto]; try contradiction; try exact I.
    apply R.
Qed.

(** *** [math.floor] *)

Lemma floor_upto (x : float) (b : Z) :
  0 <= b -> sf_upto (b * pw 0) (Prim2SF x) ->
  exists n : Z, float_floor x = Some n /\ 0 <= n <= b.
Proof.
  intros Hb. unfold float_floor. pose proof (Prim2SF_valid x) as V.
  pose proof (pw_pos 0 ltac:(lia)) as P0.
  destruct (Prim2SF x) as [s|s| |[|] m e]; cbn [sf_upto]; try contradiction.
  - intros _. exists 0. split; [reflexivity|]. lia.
  - intros Hle. pose proof (proj1 (valid_finite _ _ _ V)) as R.
    pose proof (pw_pos e ltac:(lia)) as Pe.
    destruct e as [|p|p].
    + eexists. split; [reflexivity|]. nia.
    + eexists. split; [reflexivity|].
      assert (E : pw (Zpos p) = pw 0 * 2 ^ Zpos p)
        by (rewrite <- pw_add by lia; f_equal).
      assert (0 < 2 ^ Zpos p) by (apply Z.pow_pos_nonneg; lia).
      rewrite E in Hle. nia.
    + eexists. split; [reflexivity|].
      assert (E : pw 0 = pw (Zneg p) * 2 ^ Zpos p).
      { rewrite <- pw_add by lia. f_equal. lia. }
      assert (0 < 2 ^ Zpos p) by (apply Z.pow_pos_nonneg; lia).
      rewrite E in Hle. split.
      * apply Z.div_pos; lia.
      * apply Z.div_le_upper_bound; [lia|]. nia.
Qed.

(** *** The four laws on primitive floats *)

Lemma Prim2SF_int_0 : Prim2SF (float_of_int 0) = S754_zero false.
Proof. reflexivity. Qed.

Lemma float_leb_upto (x : float) (c : Z) :
  0 <= c -> small c ->
  PrimFloat.leb (float_of_int 0) x = true ->
  PrimFloat.leb x (float_of_int c) = true ->
  sf_upto (c * pw 0) (Prim2SF x).
Proof.
  intros Hc Hs H0 H1. rewrite FloatAxioms.leb_spec in H0, H1.
  rewrite Prim2SF_int_0 in H0.
  apply (sf_upto_of_leb c (Prim2SF (float_of_int c))); try assumption;
    try apply Prim2SF_valid.
  now apply float_of_int_rep.
Qed.

Lemma float_upto_leb (x : float) (c : Z) :
  0 <= c -> small c ->
  sf_upto (c * pw 0) (Prim2SF x) ->
  PrimFloat.leb (float_of_int 0) x = true /\
  PrimFloat.leb x (float_of_int c) = true.
Proof.
  intros Hc Hs Hx. rewrite !FloatAxioms.leb_spec, Prim2SF_int_0.
  apply (leb_of_sf_upto c); try assumption; try apply Prim2SF_valid.
  now apply float_of_int_rep.
Qed.

Lemma binary64_add_range (x : float) (k b : Z) :
  0 < k -> 0 <= b -> small (b + k) ->
  PrimFloat.leb (float_of_int (- k)) x = true ->
  PrimFloat.leb x (float_of_int b) = true ->
  PrimFloat.leb (float_of_int 0) (x + float_of_int k) = true /\
  PrimFloat.leb (x + float_of_int k) (float_of_int (b + k)) = true.
Proof.
  intros Hk Hb Hs H0 H1. unfold small in Hs.
  apply float_upto_leb; [lia|exact Hs|].
  rewrite FloatAxioms.add_spec. rewrite FloatAxioms.leb_spec in H0, H1.
  apply SFadd_upto; try apply Prim2SF_valid; try lia.
  - apply float_of_int_rep. lia.
  - apply (sf_within_of_leb k b (Prim2SF (float_of_int (- k)))
             (Prim2SF (float_of_int b))); try assumption;
      try apply Prim2SF_valid; apply float_of_int_rep; lia.
Qed.

Lemma binary64_div_range (x : float) (k b : Z) :
  0 < k -> 0 <= b -> small k -> small (b * k) ->
  PrimFloat.leb (float_of_int 0) x = true ->
  PrimFloat.leb x (float_of_int (b * k)) = true ->
  PrimFloat.leb (float_of_int 0) (x / float_of_int k) = true /\
  PrimFloat.leb (x / float_of_int k) (float_of_int b) = true.
Proof.
  intros Hk Hb Hsk Hs H0 H1. unfold small in Hs, Hsk.
  assert (Hbk : 0 <= b * k) by nia.
  assert (Hb' : b < 2 ^ 53) by nia.
  apply float_upto_leb; [lia|unfold small; lia|].
  rewrite FloatAxioms.div_spec.
  pose proof (float_leb_upto x (b * k) Hbk Hs H0 H1) as Hx.
  apply (SFdiv_upto _ _ b k); try apply Prim2SF_valid; try lia.
  - apply float_of_int_rep. lia.
  - exact Hx.
Qed.

Lemma binary64_mul_range (x : float) (k b : Z) :
  0 < k -> 0 <= b -> small k -> small (b * k) ->
  PrimFloat.leb (float_of_int 0) x = true ->
  PrimFloat.leb x (float_of_int b) = true ->
  PrimFloat.leb (float_of_int 0) (x * float_of_int k) = true /\
  PrimFloat.leb (x * float_of_int k) (float_of_int (b * k)) = true.
Proof.
  intros Hk Hb Hsk Hs H0 H1. unfold small in Hs, Hsk.
  assert (Hbk : 0 <= b * k) by nia.
  assert (Hb' : b < 2 ^ 53) by nia.
  apply float_upto_leb; [lia|exact Hs|].
  rewrite FloatAxioms.mul_spec.
  pose proof (float_leb_upto x b Hb ltac:(unfold small; lia) H0 H1) as Hx.
  apply (SFmul_upto _ _ b k); try apply Prim2SF_valid; try lia.
  - apply float_of_int_rep. lia.
  - exact Hx.
Qed.

Lemma binary64_floor_range (x : float) (b : Z) :
  0 <= b -> small b ->
  PrimFloat.leb (float_of_int 0) x = true ->
  PrimFloat.leb x (float_of_int b) = true ->
  exists n : Z, float_floor x = Some n /\ 0 <= n <= b.
Proof.
  intros Hb Hs H0 H1. apply floor_upto; [exact Hb|].
  now apply float_leb_upto.
Qed.

Lemma binary64_laws : NumLaws float.
Proof.
  split.
  - exact binary64_add_range.
  - exact binary64_div_range.
  - exact binary64_mul_range.
  - exact binary64_floor_range.
Qed.

(** ** Quantizer

    The theorems on [encode] are stated for every arithmetic that has the
    laws above: they hold of the program on doubles ([binary64_laws]) and
    of its formulas over the rationals ([exact_laws]). *)

Lemma firstn_skipn_app {A : Type} (n : nat) (l1 l2 : list A) :
  List.length l1 = n ->
  firstn n (l1 ++ l2) = l1 /\ skipn n (l1 ++ l2) = l2.
Proof.
  intros <-. split.
  - rewrite firstn_app, Nat.sub_diag, firstn_all. cbn [firstn].
    apply app_nil_r.
  - rewrite skipn_app, Nat.sub_diag, skipn_all. reflexivity.
Qed.

Section QuantizerLaws.
Context {F : Type} `{NumLaws F}.

Lemma between_true (lo : Z) (x : F) (hi : Z) :
  between lo x hi = true <->
  (int lo <=? x)%num = true /\ (x <=? int hi)%num = true.
Proof. unfold between. apply andb_true_iff. Qed.

(** One axis: a coordinate between [-offset] and [offset], shifted by
    [offset], divided by the span and scaled by [top], is floored to an
    integer of [0 .. top]. *)
Lemma scale_range (x : F) (offset span top : Z) :
  0 < offset -> span = 2 * offset -> span < 2 ^ 53 -> 0 < top < 2 ^ 53 ->
  between (- offset) x offset = true ->
  exists k : Z,
    num_floor ((x + int offset) / int span * int top)%num = Some k /\
    0 <= k <= top.
Proof.
  intros Ho Hspan Hs Ht Hx. apply between_true in Hx.
  destruct Hx as [Hlo Hhi].
  destruct (add_range x offset offset) as [A0 A1];
    try assumption; try (unfold small; lia).
  replace (offset + offset) with (1 * span) in A1 by lia.
  destruct (div_range (x + int offset)%num span 1) as [D0 D1];
    try assumption; try (unfold small; lia).
  destruct (mul_range ((x + int offset) / int span)%num top 1) as [M0 M1];
    try assumption; try (unfold small; lia).
  rewrite Z.mul_1_l in M1.
  apply floor_range; try assumption; unfold small; lia.
Qed.

Lemma quantize_range (x : F) (offset : Z) :
  0 < offset < 2 ^ 52 ->
  between (- offset) x offset = true ->
  exists k : Z, quantize x offset (2 * offset) = Ok k /\ 0 <= k <= 2 ^ 24 - 1.
Proof.
  intros Ho Hx.
  destruct (scale_range x offset (2 * offset) (2 ^ 24 - 1)) as (k & Hk & Hr);
    try lia; [exact Hx|].
  exists k. split; [|exact Hr].
  unfold quantize, math_floor. now rewrite Hk.
Qed.
End QuantizerLaws.

(** [quantize] is the expression [encode] floors, axis by axis. *)
Lemma encode_unfold {F : Type} `{Num F} (lat lon : F) :
  encode lat lon =
  if negb (between (-90) lat 90) then Err (OutOfRange Latitude)
  else if negb (between (-180) lon 180) then Err (OutOfRange Longitude)
  else
    lat_int <- quantize lat 90 180 ;;
    lon_int <- quantize lon 180 360 ;;
    Ok (rev (digits 5 lat_int) ++ rev (digits 5 lon_int)).
Proof.
  unfold encode, quantize.
  destruct (negb (between (-90) lat 90)); [reflexivity|].
  destruct (negb (between (-180) lon 180)); [reflexivity|].
  destruct (math_floor _) as [lat_int|e]; [|reflexivity].
  destruct (math_floor _) as [lon_int|e]; [|reflexivity].
  cbn [bind]. rewrite !int_to_base29_digits. reflexivity.
Qed.

Lemma quantize_floor {F : Type} `{Num F} (x : F) (offset span k : Z) :
  quantize x offset span = Ok k <->
  num_floor ((x + int offset) / int span * int (2 ^ 24 - 1))%num = Some k.
Proof.
  unfold quantize, math_floor.
  destruct (num_floor _) as [k'|]; split; intros [= ->]; reflexivity.
Qed.

(** [encode] raises [OutOfRange], and names the field, exactly when a
    range check fails. *)
Lemma encode_OutOfRange {F : Type} `{Num F} (lat lon : F) (f : field) :
  encode lat lon = Err (OutOfRange f) <->
  (between (-90) lat 90 = false /\ f = Latitude) \/
  (between (-90) lat 90 = true /\ between (-180) lon 180 = false /\
   f = Longitude).
Proof.
  rewrite encode_unfold. unfold quantize, math_floor.
  destruct (between (-90) lat 90); cbn [negb].
  - destruct (between (-180) lon 180); cbn [negb].
    + split.
      * destruct (num_floor _); [|discriminate].
        destruct (num_floor _); discriminate.
      * intros [[[=] _]|(_ & [=] & _)].
    + split.
      * intros [= <-]. right. auto.
      * intros [[[=] _]|(_ & _ & ->)]. reflexivity.
  - split.
    + intros [= <-]. left. auto.
    + intros [[_ ->]|([=] & _)]. reflexivity.
Qed.

(** The two fields of a ten-symbol code made of digits are read back. *)
Lemma decode_digits {F : Type} `{Num F} (a b : Z) :
  0 <= a < 29 ^ 5 -> 0 <= b < 29 ^ 5 ->
  @decode F _ (rev (digits 5 a) ++ rev (digits 5 b)) =
  Ok ((int a / int (2 ^ 24 - 1) * int 180 - int 90)%num,
      (int b / int (2 ^ 24 - 1) * int 360 - int 180)%num).
Proof.
  intros Ha Hb. unfold decode.
  assert (La : List.length (rev (digits 5 a)) = 5%nat)
    by (rewrite length_rev; apply digits_length).
  assert (Lb : List.length (rev (digits 5 b)) = 5%nat)
    by (rewrite length_rev; apply digits_length).
  rewrite length_app, La, Lb. cbn [Nat.add Nat.eqb negb].
  destruct (firstn_skipn_app 5 _ (rev (digits 5 b)) La) as [-> ->].
  rewrite !base29_to_int_digits. cbn [bind].
  rewrite BASE_29, !Z.mod_small by assumption. reflexivity.
Qed.

Section EncodeLaws.
Context {F : Type} `{NumLaws F}.

(** What [encode] does on a valid coordinate. *)
Lemma encode_in_range (lat lon : F) :
  between (-90) lat 90 = true -> between (-180) lon 180 = true ->
  exists lat_int lon_int : Z,
    quantize lat 90 180 = Ok lat_int /\
    quantize lon 180 360 = Ok lon_int /\
    0 <= lat_int <= 2 ^ 24 - 1 /\
    0 <= lon_int <= 2 ^ 24 - 1 /\
    encode lat lon = Ok (rev (digits 5 lat_int) ++ rev (digits 5 lon_int)).
Proof.
  intros Hlat Hlon.
  destruct (quantize_range lat 90) as (lat_int & Qlat & Rlat);
    [lia|exact Hlat|].
  destruct (quantize_range lon 180) as (lon_int & Qlon & Rlon);
    [lia|exact Hlon|].
  change (2 * 90) with 180 in Qlat. change (2 * 180) with 360 in Qlon.
  exists lat_int, lon_int. repeat (split; [assumption|]).
  rewrite encode_unfold, Hlat, Hlon, Qlat, Qlon. reflexivity.
Qed.
End EncodeLaws.

(** C2. For every lat in [-90, 90] and lon in [-180, 180], [encode]
    returns [toDigits(latInt, 5) ++ toDigits(lonInt, 5)], latitude field
    first, where [latInt = floor(((lat + 90) / 180) * (2^24 - 1))] and
    [lonInt = floor(((lon + 180) / 360) * (2^24 - 1))]. *)
Theorem encode_formula {F : Type} `{NumLaws F} (lat lon : F) :
  between (-90) lat 90 = true -> between (-180) lon 180 = true ->
  exists (latInt lonInt : Z) (lat_code lon_code : str),
    num_floor ((lat + int 90) / int 180 * int (2 ^ 24 - 1))%num
      = Some latInt /\
    num_floor ((lon + int 180) / int 360 * int (2 ^ 24 - 1))%num
      = Some lonInt /\
    int_to_base29 latInt 5 = Ok lat_code /\
    int_to_base29 lonInt 5 = Ok lon_code /\
    encode lat lon = Ok (lat_code ++ lon_code).
Proof.
  intros Hlat Hlon.
  destruct (encode_in_range lat lon Hlat Hlon)
    as (latInt & lonInt & Qlat & Qlon & _ & _ & He).
  exists latInt, lonInt, (rev (digits 5 latInt)), (rev (digits 5 lonInt)).
  repeat split.
  - now apply quantize_floor.
  - now apply quantize_floor.
  - apply int_to_base29_digits.
  - apply int_to_base29_digits.
  - exact He.
Qed.

Lemma encode_formula_witness :
  exists (latInt lonInt : Z) (lat_code lon_code : str),
    num_floor ((35.5%float + int 90) / int 180 * int (2 ^ 24 - 1))%num
      = Some latInt /\
    num_floor ((139.75%float + int 180) / int 360 * int (2 ^ 24 - 1))%num
      = Some lonInt /\
    int_to_base29 latInt 5 = Ok lat_code /\
    int_to_base29 lonInt 5 = Ok lon_code /\
    encode 35.5%float 139.75%float = Ok (lat_code ++ lon_code).
Proof.
  apply (@encode_formula float binary64 binary64_laws
           35.5%float 139.75%float); reflexivity.
Defined.

(** The range checks decide whether [OutOfRange] is raised. *)
Lemma encode_OutOfRange_iff {F : Type} `{Num F} (lat lon : F) :
  (exists f : field, encode lat lon = Err (OutOfRange f)) <->
  (between (-90) lat 90 = false \/ between (-180) lon 180 = false).
Proof.
  split.
  - intros [f Hf]. apply encode_OutOfRange in Hf. tauto.
  - intros Hout. destruct (between (-90) lat 90) eqn:Hlat.
    + destruct Hout as [[=]|Hlon]. exists Longitude.
      apply encode_OutOfRange. auto.
    + exists Latitude. apply encode_OutOfRange. auto.
Qed.

(** C4. [encode] fails with [OutOfRange] if and only if lat is outside
    [-90, 90] or lon is outside [-180, 180] (bounds included); on an
    in-range input it raises nothing. *)
Theorem encode_fails_iff_out_of_range {F : Type} `{NumLaws F} (lat lon : F) :
  ((exists f : field, encode lat lon = Err (OutOfRange f)) <->
   (between (-90) lat 90 = false \/ between (-180) lon 180 = false)) /\
  (between (-90) lat 90 = true -> between (-180) lon 180 = true ->
   exists code : str, encode lat lon = Ok code).
Proof.
  split; [apply encode_OutOfRange_iff|].
  intros Hlat Hlon.
  destruct (encode_in_range lat lon Hlat Hlon)
    as (latInt & lonInt & _ & _ & _ & _ & He).
  eexists. exact He.
Qed.

Lemma encode_fails_iff_out_of_range_witness :
  ((exists f : field, encode 90%float (-180)%float = Err (OutOfRange f)) <->
   (between (-90) 90%float 90 = false \/
    between (-180) (-180)%float 180 = false)) /\
  (between (-90) 90%float 90 = true ->
   between (-180) (-180)%float 180 = true ->
   exists code : str, encode 90%float (-180)%float = Ok code).
Proof.
  exact (@encode_fails_iff_out_of_range float binary64 binary64_laws
           90%float (-180)%float).
Defined.

(** C8. For every lat in [-90, 90] and lon in [-180, 180], [encode]
    returns a string of exactly ten characters, each one of the 29 symbols
    of the alphabet. *)
Theorem encode_length_alphabet {F : Type} `{NumLaws F} (lat lon : F) :
  between (-90) lat 90 = true -> between (-180) lon 180 = true ->
  exists code : str,
    encode lat lon = Ok code /\
    List.length code = 10%nat /\
    in_alphabet code.
Proof.
  intros Hlat Hlon.
  destruct (encode_in_range lat lon Hlat Hlon)
    as (latInt & lonInt & _ & _ & _ & _ & He).
  eexists. split; [exact He|]. split.
  - rewrite length_app, !length_rev, !digits_length. reflexivity.
  - apply Forall_app. split; apply Forall_rev, digits_in_alphabet.
Qed.

Lemma encode_length_alphabet_witness :
  exists code : str,
    encode (-90)%float 180%float = Ok code /\
    List.length code = 10%nat /\
    in_alphabet code.
Proof.
  apply (@encode_length_alphabet float binary64 binary64_laws
           (-90)%float 180%float); reflexivity.
Defined.

(** C10. For every lat in [-90, 90] and lon in [-180, 180] (the end points
    90 and 180 included), the integers quantized inside [encode] lie in
    [0, 2^24 - 1]; so both are below 29^5, [int_to_base29(., 5)] drops no
    digit of them, and each field reads back as the integer it was made
    from. *)
Theorem encode_ints_fit {F : Type} `{NumLaws F} (lat lon : F) :
  between (-90) lat 90 = true -> between (-180) lon 180 = true ->
  exists (latInt lonInt : Z) (lat_code lon_code : str),
    num_floor ((lat + int 90) / int 180 * int (2 ^ 24 - 1))%num
      = Some latInt /\
    num_floor ((lon + int 180) / int 360 * int (2 ^ 24 - 1))%num
      = Some lonInt /\
    0 <= latInt <= 2 ^ 24 - 1 /\
    0 <= lonInt <= 2 ^ 24 - 1 /\
    latInt mod 29 ^ 5 = latInt /\
    lonInt mod 29 ^ 5 = lonInt /\
    int_to_base29 latInt 5 = Ok lat_code /\
    int_to_base29 lonInt 5 = Ok lon_code /\
    base29_to_int lat_code = Ok latInt /\
    base29_to_int lon_code = Ok lonInt /\
    encode lat lon = Ok (lat_code ++ lon_code).
Proof.
  intros Hlat Hlon.
  destruct (encode_in_range lat lon Hlat Hlon)
    as (latInt & lonInt & Qlat & Qlon & Rlat & Rlon & He).
  assert (Mlat : latInt mod 29 ^ 5 = latInt) by (apply Z.mod_small; lia).
  assert (Mlon : lonInt mod 29 ^ 5 = lonInt) by (apply Z.mod_small; lia).
  exists latInt, lonInt, (rev (digits 5 latInt)), (rev (digits 5 lonInt)).
  repeat split; try lia; try apply int_to_base29_digits; try exact He.
  - now apply quantize_floor.
  - now apply quantize_floor.
  - rewrite base29_to_int_digits, BASE_29. f_equal. exact Mlat.
  - rewrite base29_to_int_digits, BASE_29. f_equal. exact Mlon.
Qed.

Lemma encode_ints_fit_witness :
  exists (latInt lonInt : Z) (lat_code lon_code : str),
    num_floor ((90%float + int 90) / int 180 * int (2 ^ 24 - 1))%num
      = Some latInt /\
    num_floor ((180%float + int 180) / int 360 * int (2 ^ 24 - 1))%num
      = Some lonInt /\
    0 <= latInt <= 2 ^ 24 - 1 /\
    0 <= lonInt <= 2 ^ 24 - 1 /\
    latInt mod 29 ^ 5 = latInt /\
    lonInt mod 29 ^ 5 = lonInt /\
    int_to_base29 latInt 5 = Ok lat_code /\
    int_to_base29 lonInt 5 = Ok lon_code /\
    base29_to_int lat_code = Ok latInt /\
    base29_to_int lon_code = Ok lonInt /\
    encode 90%float 180%float = Ok (lat_code ++ lon_code).
Proof.
  apply (@encode_ints_fit float binary64 binary64_laws 90%float 180%float);
    reflexivity.
Defined.

(** ** Decoding *)

(** [base29_to_int] succeeds on the strings over the alphabet and raises
    [InvalidSymbol], for a character of the string that is not in the
    alphabet, on all others. *)
Lemma base29_to_int_loop_cases (s : str) :
  forall n : Z,
    (in_alphabet s /\ exists k : Z, base29_to_int_loop s n = Ok k) \/
    (exists c : ascii,
        In c s /\ ~ In c CHARSET /\
        base29_to_int_loop s n = Err (InvalidSymbol c)).
Proof.
  induction s as [|c s IH]; intros n; cbn [base29_to_int_loop].
  - left. split; [constructor|eauto].
  - destruct (dict_get Ascii.eqb CHAR_TO_INDEX c) as [idx|] eqn:Hc.
    + assert (Hin : In c CHARSET).
      { apply dict_get_Some_In in Hc.
        rewrite <- CHAR_TO_INDEX_keys. apply in_map_iff.
        exists (c, idx). auto. }
      destruct (IH (n * BASE + idx)) as [[Hs Hk]|(c' & Hc' & Hn & He)].
      * left. split; [now constructor|exact Hk].
      * right. exists c'. split; [now right|split; [exact Hn|exact He]].
    + right. exists c. split; [now left|split; [|reflexivity]].
      now apply CHAR_TO_INDEX_None.
Qed.

Lemma base29_to_int_cases (s : str) :
  (in_alphabet s /\ exists k : Z, base29_to_int s = Ok k) \/
  (exists c : ascii,
      In c s /\ ~ In c CHARSET /\ base29_to_int s = Err (InvalidSymbol c)).
Proof. apply base29_to_int_loop_cases. Qed.

Lemma decode_wrong_length {F : Type} `{Num F} (code : str) :
  List.length code <> 10%nat -> @decode F _ code = Err InvalidLength.
Proof.
  intros Hl. unfold decode. apply Nat.eqb_neq in Hl. now rewrite Hl.
Qed.

(** On ten characters [decode] returns a pair, when all are in the
    alphabet, or raises [InvalidSymbol] for one that is not. *)
Lemma decode_ten_cases {F : Type} `{Num F} (code : str) :
  List.length code = 10%nat ->
  (in_alphabet code /\ exists p : F * F, decode code = Ok p) \/
  (exists c : ascii,
      In c code /\ ~ In c CHARSET /\ @decode F _ code = Err (InvalidSymbol c)).
Proof.
  intros Hl. unfold decode. rewrite Hl. cbn [Nat.eqb negb].
  assert (Hsplit : code = firstn 5 code ++ skipn 5 code)
    by (symmetry; apply firstn_skipn).
  destruct (base29_to_int_cases (firstn 5 code))
    as [[Ha [a ->]]|(c & Hc & Hn & ->)]; cbn [bind].
  - destruct (base29_to_int_cases (skipn 5 code))
      as [[Hb [b ->]]|(c & Hc & Hn & ->)]; cbn [bind].
    + left. split; [|eauto].
      rewrite Hsplit. apply Forall_app. now split.
    + right. exists c. split; [|split; [exact Hn|reflexivity]].
      rewrite Hsplit. apply in_or_app. now right.
  - right. exists c. split; [|split; [exact Hn|reflexivity]].
    rewrite Hsplit. apply in_or_app. now left.
Qed.

(** C5. [decode] fails with [InvalidLength] if and only if the code is
    not exactly ten characters long; a ten-character code fails with
    [InvalidSymbol] if and only if one of its characters is not in the
    alphabet; the length is checked before any symbol. *)
Theorem decode_failures {F : Type} `{Num F} (code : str) :
  (@decode F _ code = Err InvalidLength <-> List.length code <> 10%nat) /\
  (List.length code = 10%nat ->
   ((exists c : ascii, @decode F _ code = Err (InvalidSymbol c)) <->
    (exists c : ascii, In c code /\ ~ In c CHARSET))) /\
  (List.length code <> 10%nat ->
   (exists c : ascii, In c code /\ ~ In c CHARSET) ->
   @decode F _ code = Err InvalidLength).
Proof.
  split; [split|split].
  - intros He Hl.
    destruct (decode_ten_cases (F := F) code Hl)
      as [[_ [p Hp]]|(c & _ & _ & Hc)]; congruence.
  - apply decode_wrong_length.
  - intros Hl. split.
    + intros [c Hc].
      destruct (decode_ten_cases (F := F) code Hl)
        as [[_ [p Hp]]|(c' & Hin & Hn & _)]; [congruence|eauto].
    + intros (c & Hin & Hn).
      destruct (decode_ten_cases (F := F) code Hl)
        as [[Ha _]|(c' & _ & _ & Hc)]; [|eauto].
      exfalso. apply Hn. exact (proj1 (Forall_forall _ _) Ha c Hin).
  - intros Hl _. now apply decode_wrong_length.
Qed.

(** C6. [decode] does not check the decoded integers against the 24-bit
    range: the ten-symbol code [9999999999], all of whose characters are in
    the alphabet, has both fields equal to 29^5 - 1 > 2^24 - 1, and
    [decode] returns for it, without raising, a latitude above 90 and a
    longitude above 180.  (Binary64 arithmetic: the pair returned is
    (130.06075740222678, 260.12151480445357).) *)
Theorem decode_not_revalidated :
  exists (code : str) (lat lon : float),
    List.length code = 10%nat /\
    in_alphabet code /\
    base29_to_int (firstn 5 code) = Ok (29 ^ 5 - 1) /\
    base29_to_int (skipn 5 code) = Ok (29 ^ 5 - 1) /\
    2 ^ 24 - 1 < 29 ^ 5 - 1 /\
    @decode float binary64 code = Ok (lat, lon) /\
    (int 90 <=? lat)%num = true /\ (lat <=? int 90)%num = false /\
    (int 180 <=? lon)%num = true /\ (lon <=? int 180)%num = false.
Proof.
  exists (lit "9999999999"),
    (int (29 ^ 5 - 1) / int (2 ^ 24 - 1) * int 180 - int 90)%num,
    (int (29 ^ 5 - 1) / int (2 ^ 24 - 1) * int 360 - int 180)%num.
  split; [reflexivity|]. split.
  - repeat (constructor; [vm_compute; tauto|]). constructor.
  - repeat (split; [vm_compute; reflexivity|]). vm_compute. reflexivity.
Qed.

(** The same code in exact arithmetic: latitude 90 * (2 * 20511148 /
    16777215 - 1), about 130.06. *)
Lemma decode_not_revalidated_exact :
  exists lat lon : Q,
    @decode Q exact (lit "9999999999") = Ok (lat, lon) /\
    (90 < lat)%Q /\ (180 < lon)%Q.
Proof.
  eexists _, _. split; [vm_compute; reflexivity|]. split; reflexivity.
Qed.

(** ** Error estimator *)

(** C9. For every lat in [-90, 90] and lon in [-180, 180],
    [calculate_error(lat, lon)] is the external geodesic distance between
    the original [(lat, lon)] and the round-tripped [decode(encode(lat,
    lon))]; on an out-of-range input it fails with the very [OutOfRange]
    failure [encode] raises. *)
Theorem calculate_error_is_geodesic {F : Type} `{NumLaws F} {D : Type}
    (geodesic_meters : F * F -> F * F -> result D) (lat lon : F) :
  (between (-90) lat 90 = true -> between (-180) lon 180 = true ->
   exists (code : str) (lat' lon' : F),
     encode lat lon = Ok code /\
     decode code = Ok (lat', lon') /\
     calculate_error geodesic_meters lat lon
     = geodesic_meters (lat, lon) (lat', lon')) /\
  (between (-90) lat 90 = false \/ between (-180) lon 180 = false ->
   exists f : field,
     encode lat lon = Err (OutOfRange f) /\
     calculate_error geodesic_meters lat lon = Err (OutOfRange f)).
Proof.
  split.
  - intros Hlat Hlon.
    destruct (encode_in_range lat lon Hlat Hlon)
      as (latInt & lonInt & _ & _ & Rlat & Rlon & He).
    assert (Hd := decode_digits (F := F) latInt lonInt
                    ltac:(lia) ltac:(lia)).
    eexists _, _, _. split; [exact He|]. split; [exact Hd|].
    unfold calculate_error. rewrite He. cbn [bind]. rewrite Hd. reflexivity.
  - intros Hout.
    destruct (proj2 (encode_OutOfRange_iff lat lon) Hout) as [f Hf].
    exists f. split; [exact Hf|].
    unfold calculate_error. rewrite Hf. reflexivity.
Qed.

Lemma calculate_error_is_geodesic_witness :
  (between (-90) 35.5%float 90 = true ->
   between (-180) 139.75%float 180 = true ->
   exists (code : str) (lat' lon' : float),
     encode 35.5%float 139.75%float = Ok code /\
     decode code = Ok (lat', lon') /\
     calculate_error (fun p q => Ok (PrimFloat.abs (fst p - fst q)%float))
       35.5%float 139.75%float
     = Ok (PrimFloat.abs (35.5 - lat')%float)) /\
  (between (-90) 35.5%float 90 = false \/
   between (-180) 139.75%float 180 = false ->
   exists f : field,
     encode 35.5%float 139.75%float = Err (OutOfRange f) /\
     calculate_error (D := float)
       (fun p q => Ok (PrimFloat.abs (fst p - fst q)%float))
       35.5%float 139.75%float
     = Err (OutOfRange f)).
Proof.
  exact (@calculate_error_is_geodesic float binary64 binary64_laws float
           (fun p q => Ok (PrimFloat.abs (fst p - fst q)%float))
           35.5%float 139.75%float).
Defined.

(** ** Round-trip error *)

(** One axis in exact arithmetic: the value rebuilt from the floored
    integer is below the original by less than one bucket. *)
Lemma dequantize_error (x : Q) (offset span k : Z) :
  0 < span ->
  Qfloor ((x + inject_Z offset) / inject_Z span * inject_Z (2 ^ 24 - 1)) = k ->
  (0 <= x - (inject_Z k / inject_Z (2 ^ 24 - 1) * inject_Z span
             - inject_Z offset) < bucket span)%Q.
Proof.
  intros Hs Hk.
  set (y := ((x + inject_Z offset) / inject_Z span
             * inject_Z (2 ^ 24 - 1))%Q) in *.
  assert (Hs' : ~ (inject_Z span == 0)%Q).
  { intros E. apply inject_Z_pos in Hs. rewrite E in Hs.
    now apply Qlt_irrefl in Hs. }
  assert (Hm : ~ (inject_Z (2 ^ 24 - 1) == 0)%Q) by discriminate.
  assert (E : (x - (inject_Z k / inject_Z (2 ^ 24 - 1) * inject_Z span
                    - inject_Z offset)
               == (y - inject_Z k) * bucket span)%Q).
  { unfold y, bucket. field. split; assumption. }
  assert (Hb : (0 < bucket span)%Q).
  { unfold bucket. apply Qlt_shift_div_l; [reflexivity|].
    rewrite Qmult_0_l. now apply inject_Z_pos. }
  pose proof (Qfloor_le y) as L. pose proof (Qlt_floor y) as U.
  rewrite Hk in L, U. rewrite inject_Z_plus in U.
  change (inject_Z 1) with 1%Q in U.
  rewrite E. split.
  - apply Qmult_le_0_compat; lra.
  - rewrite <- (Qmult_1_l (bucket span)) at 2.
    apply Qmult_lt_compat_r; [exact Hb|lra].
Qed.

Lemma Qabs_of_gap (x x' b : Q) :
  (0 <= x - x' < b)%Q -> (Qabs (x' - x) <= b)%Q.
Proof. intros [H0 Hb]. apply Qabs_Qle_condition. split; lra. Qed.

(** The round trip without rounding.  Evaluated in exact arithmetic, for every lat
    in [-90, 90] and lon in [-180, 180] the round trip
    [decode(encode(lat, lon))] returns a coordinate that is not above the
    original and is below it by less than one bucket on each axis:
    [0 <= lat - lat' < 180/(2^24 - 1)] and
    [0 <= lon - lon' < 360/(2^24 - 1)], hence
    [|lat' - lat| <= 180/(2^24 - 1)] and [|lon' - lon| <= 360/(2^24 - 1)]. *)
Theorem roundtrip_error_exact (lat lon : Q) :
  (-90 <= lat <= 90)%Q -> (-180 <= lon <= 180)%Q ->
  exists (code : str) (lat' lon' : Q),
    @encode Q exact lat lon = Ok code /\
    @decode Q exact code = Ok (lat', lon') /\
    (0 <= lat - lat' < bucket 180)%Q /\
    (0 <= lon - lon' < bucket 360)%Q /\
    (Qabs (lat' - lat) <= bucket 180)%Q /\
    (Qabs (lon' - lon) <= bucket 360)%Q.
Proof.
  intros [Hlat0 Hlat1] [Hlon0 Hlon1].
  assert (Blat : between (-90) lat 90 = true).
  { apply between_true. split; apply exact_le; assumption. }
  assert (Blon : between (-180) lon 180 = true).
  { apply between_true. split; apply exact_le; assumption. }
  destruct (@encode_in_range Q exact exact_laws lat lon Blat Blon)
    as (latInt & lonInt & Qlat & Qlon & Rlat & Rlon & He).
  apply quantize_floor in Qlat, Qlon.
  cbn [num_floor exact] in Qlat, Qlon.
  injection Qlat as Qlat. injection Qlon as Qlon.
  pose proof (dequantize_error lat 90 180 latInt ltac:(lia) Qlat) as Elat.
  pose proof (dequantize_error lon 180 360 lonInt ltac:(lia) Qlon) as Elon.
  eexists _, _, _. split; [exact He|]. split.
  - apply decode_digits; lia.
  - cbn [int num_add num_sub num_mul num_div exact].
    repeat split; try apply Elat; try apply Elon;
      apply Qabs_of_gap; assumption.
Qed.

Lemma roundtrip_error_exact_witness :
  exists (code : str) (lat' lon' : Q),
    @encode Q exact (35 # 1)%Q (-139 # 2)%Q = Ok code /\
    @decode Q exact code = Ok (lat', lon') /\
    (0 <= (35 # 1) - lat' < bucket 180)%Q /\
    (0 <= (-139 # 2) - lon' < bucket 360)%Q /\
    (Qabs (lat' - (35 # 1)) <= bucket 180)%Q /\
    (Qabs (lon' - (-139 # 2)) <= bucket 360)%Q.
Proof.
  apply (roundtrip_error_exact (35 # 1)%Q (-139 # 2)%Q);
    split; vm_compute; discriminate.
Defined.

(** C3 on binary64.  The double -0.1024872125677625 is a valid latitude;
    [encode] puts it in bucket 8379054, [decode] returns
    -0.10249794140446511, and the two differ by more than 180/(2^24 - 1),
    by about 3.6e-15 degree, both as exact rationals and when the bound is
    itself computed in binary64. *)
Lemma roundtrip_error_binary64 :
  between (-90) lat_near_boundary 90 = true /\
  between (-180) 0%float 180 = true /\
  exists (code : str) (lat' lon' : float),
    @encode float binary64 lat_near_boundary 0%float = Ok code /\
    @decode float binary64 code = Ok (lat', lon') /\
    ~ (Qabs (float_to_Q lat' - float_to_Q lat_near_boundary)
       <= bucket 180)%Q /\
    PrimFloat.leb (PrimFloat.abs (lat' - lat_near_boundary))
                  (int 180 / int (2 ^ 24 - 1))%num = false.
Proof.
  split; [reflexivity|]. split; [reflexivity|].
  exists (lit "M4TF7M48TK"),
    (int 8379054 / int (2 ^ 24 - 1) * int 180 - int 90)%num,
    (int 8388607 / int (2 ^ 24 - 1) * int 360 - int 180)%num.
  split; [vm_compute; reflexivity|]. split; [vm_compute; reflexivity|].
  split; [|vm_compute; reflexivity].
  intros Hle. apply Qle_bool_iff in Hle. vm_compute in Hle. discriminate.
Qed.

(** ** Round-trip error on binary64

    Each operation of the quantizer rounds to nearest, so its result is
    within a few units of the last place of the exact one.  The values
    are integers on the scale of [pw]; [t] is the exponent of the last
    place at the magnitude of the result. *)

(** *** Shifting right keeps a value in the cell of its mantissa *)


Section Cells.
Variables N D : Z.
Hypothesis HD : 0 < D.

Lemma shr_1_cell (e : Z) (mrs : shr_record) :
  Cell N D e mrs -> Cell N D (e + 1) (shr_1 mrs).
Proof.
  destruct mrs as [m r s]. unfold Cell. cbn [shr_m].
  intros (He & Hm & Hlo & Hhi).
  pose proof (pw_pos e He) as Hp. rewrite pw_succ by assumption.
  destruct m as [|[p|p|]|p]; cbn [shr_1 shr_m]; try lia;
    try (pose proof (Pos2Z.inj_xI p) as Ep);
    try (pose proof (Pos2Z.inj_xO p) as Ep);
    repeat split; try lia; nia.
Qed.

Lemma iter_shr_1_cell (p : positive) :
  forall (e : Z) (mrs : shr_record),
    Cell N D e mrs -> Cell N D (e + Zpos p) (iter_pos shr_1 p mrs).
Proof.
  induction p as [p IH|p IH|]; intros e mrs H; cbn [iter_pos].
  - replace (e + Z.pos p~1) with (e + 1 + Zpos p + Zpos p) by lia.
    apply IH, IH, shr_1_cell, H.
  - replace (e + Z.pos p~0) with (e + Zpos p + Zpos p) by lia.
    apply IH, IH, H.
  - apply shr_1_cell, H.
Qed.

Lemma shr_cell (mrs : shr_record) (e n : Z) :
  Cell N D e mrs -> Cell N D (snd (shr mrs e n)) (fst (shr mrs e n)).
Proof.
  intros H. destruct n as [|p|p]; cbn [shr fst snd]; try exact H.
  now apply iter_shr_1_cell.
Qed.
End Cells.

Lemma shr_exp (mrs : shr_record) (e n : Z) :
  snd (shr mrs e n) = e + Z.max n 0 /\
  (n <= 0 -> fst (shr mrs e n) = mrs).
Proof. destruct n as [|p|p]; cbn [shr fst snd]; split; try lia; auto. Qed.

(** *** The error of one rounding *)

Lemma Zdigits2_grid (m e t : Z) :
  0 < m -> -4000 <= e -> -4000 <= t ->
  m * pw e < 2 ^ 53 * pw t -> Zdigits2 m + e - 53 <= t.
Proof.
  intros Hm He Ht H. destruct m as [|p|p]; try lia. cbn [Zdigits2].
  pose proof (digits2_pos_bounds p) as [Hlo _].
  pose proof (pw_pos e He) as Pe. pose proof (pw_pos t Ht) as Pt.
  assert (Hp : pw (e + (Zpos (digits2_pos p) - 1)) < pw (t + 53)).
  { rewrite !pw_add by lia. nia. }
  apply pw_lt_inv in Hp; lia.
Qed.

Lemma round_nearest_even_near (m : Z) (l : location) :
  round_nearest_even m l = m \/ round_nearest_even m l = m + 1.
Proof.
  destruct (round_nearest_even_cases m l) as [H|[H _]]; auto.
Qed.

Lemma round_nearest_even_exact (m : Z) :
  round_nearest_even m loc_Exact = m.
Proof. reflexivity. Qed.

(** The error of [binary_round_aux]: at most three units of the grid
    [2^t] of the doubles as large as the exact value [N / D]. *)
Lemma round_aux_err (s : bool) (mx ex : Z) (lx : location) (N D t : Z) :
  -4000 <= ex <= 971 -> -1074 <= t <= 970 -> 0 <= mx -> 0 < D ->
  D * (mx * pw ex) <= N < D * ((mx + 1) * pw ex) ->
  (lx = loc_Exact /\ N = D * (mx * pw ex)) \/
  ex <= fexp prec emax (Zdigits2 mx + ex) ->
  fexp prec emax (Zdigits2 mx + ex) <= t ->
  N < D * (2 ^ 53 * pw t) ->
  match binary_round_aux prec emax s mx ex lx with
  | S754_zero s' => s' = s /\ N <= 3 * (D * pw t)
  | S754_finite s' m e =>
      s' = s /\
      - (3 * (D * pw t)) <= D * (Zpos m * pw e) - N <= 3 * (D * pw t)
  | _ => False
  end.
Proof.
  intros Hex Ht Hmx HD HN Hprec Hgrid Hmag.
  pose proof (pw_pos t ltac:(lia)) as Pt.
  unfold binary_round_aux, shr_fexp.
  set (n := fexp prec emax (Zdigits2 mx + ex) - ex).
  assert (C0 : Cell N D ex (shr_record_of_loc mx lx)).
  { unfold Cell. rewrite shr_record_of_loc_m. repeat split; lia. }
  pose proof (shr_cell N D HD _ ex n C0) as C1.
  destruct (shr_exp (shr_record_of_loc mx lx) ex n) as [He1 Hsame].
  destruct (shr (shr_record_of_loc mx lx) ex n) as [mrs1 e1].
  cbn [fst snd] in C1, He1, Hsame.
  destruct C1 as (He1' & Hm1 & Hlo1 & Hhi1).
  set (m2 := round_nearest_even (shr_m mrs1) (loc_of_shr_record mrs1)).
  pose proof (pw_pos e1 He1') as P1.
  (* after the first rounding *)
  assert (F1 : 0 <= m2 /\
               (e1 <= t /\ - (D * pw t) <= D * (m2 * pw e1) - N <= D * pw t
                \/ m2 = mx /\ e1 = ex /\ N = D * (mx * pw ex) /\ n <= 0)).
  { destruct (Z_lt_le_dec 0 n) as [Hn|Hn].
    - (* a shift: the grid is fexp *)
      assert (E1 : e1 <= t) by lia.
      pose proof (pw_mono e1 t ltac:(lia)) as Pm.
      destruct (round_nearest_even_near (shr_m mrs1)
                  (loc_of_shr_record mrs1)) as [E|E]; fold m2 in E;
        rewrite E; (split; [lia|left; split; [exact E1|nia]]).
    - pose proof (Hsame Hn) as Em. subst mrs1.
      rewrite shr_record_of_loc_m in *.
      destruct Hprec as [[-> HNe]|Hfe].
      + assert (Em : m2 = mx) by reflexivity.
        split; [lia|]. right. repeat split; lia.
      + assert (E1 : e1 <= t) by lia.
        pose proof (pw_mono e1 t ltac:(lia)) as Pm.
        destruct (round_nearest_even_near
                    (shr_m (shr_record_of_loc mx lx))
                    (loc_of_shr_record (shr_record_of_loc mx lx)))
          as [E|E]; fold m2 in E; rewrite shr_record_of_loc_m in E;
          rewrite E; (split; [lia|left; split; [exact E1|nia]]). }
  destruct F1 as [Hm2 F1].
  (* the second shift *)
  set (n2 := fexp prec emax (Zdigits2 m2 + e1) - e1).
  assert (C2 : Cell (m2 * pw e1) 1 e1 (shr_record_of_loc m2 loc_Exact)).
  { unfold Cell. cbn [shr_record_of_loc shr_m]. repeat split; lia. }
  pose proof (shr_cell _ 1 ltac:(lia) _ e1 n2 C2) as C3.
  destruct (shr_exp (shr_record_of_loc m2 loc_Exact) e1 n2) as [He3 Hsame3].
  destruct (shr (shr_record_of_loc m2 loc_Exact) e1 n2) as [mrs3 e3].
  cbn [fst snd] in C3, He3, Hsame3.
  destruct C3 as (He3' & Hm3 & Hlo3 & Hhi3).
  pose proof (pw_pos e3 He3') as P3.
  destruct F1 as [[E1 Herr]|(-> & -> & HNe & Hn)].
  - (* e3 <= t + 1 *)
    assert (E3 : e3 <= t + 1).
    { destruct (Z.eq_dec m2 0) as [->|Hnz].
      - unfold n2 in He3. cbn [Zdigits2] in He3. rewrite fexp_eq in He3. lia.
      - assert (Hd : Zdigits2 m2 + e1 - 53 <= t + 1).
        { apply Zdigits2_grid; try lia.
          rewrite pw_succ by lia.
          assert (m2 * pw e1 < (2 ^ 53 + 1) * pw t) by nia.
          nia. }
        unfold n2 in He3. rewrite fexp_eq in He3. lia. }
    pose proof (pw_mono e3 (t + 1) ltac:(lia)) as Pm3.
    rewrite pw_succ in Pm3 by lia.
    destruct (shr_m mrs3) as [|m|m]; try lia.
    + split; [reflexivity|nia].
    + replace (e3 <=? emax - prec) with true
        by (symmetry; apply Z.leb_le; change (emax - prec) with 971; lia).
      split; [reflexivity|nia].
  - (* nothing was shifted: the result is exact *)
    fold n in n2. subst n2. rewrite (Hsame3 ltac:(lia)) in *.
    cbn [shr_record_of_loc shr_m] in *.
    assert (E3 : e3 = ex) by lia. clear He3. subst e3.
    destruct mx as [|m|m]; try lia.
    + split; [reflexivity|nia].
    + replace (ex <=? emax - prec) with true
        by (symmetry; apply Z.leb_le; change (emax - prec) with 971; lia).
      split; [reflexivity|nia].
Qed.



Lemma value_exp_bound (m : positive) (e c : Z) :
  -4000 <= e -> Zpos m * pw e < 2 ^ 53 * pw c -> -4000 <= c -> e < c + 53.
Proof.
  intros He H Hc. pose proof (pw_pos e He). 
  apply pw_lt_inv; [lia|]. rewrite pw_add by lia. nia.
Qed.

(** Rounding an exact value [p * 2^e]. *)
Lemma binary_round_err (s : bool) (p : positive) (e t : Z) :
  -1074 <= e <= 971 -> -1074 <= t <= 970 ->
  Zpos p * pw e < 2 ^ 53 * pw t ->
  sf_fin (binary_round prec emax s p e) /\
  - (3 * pw t)
  <= (if s then -1 else 1) * sval (binary_round prec emax s p e)
     - Zpos p * pw e
  <= 3 * pw t.
Proof.
  intros He Ht Hmag. unfold binary_round.
  set (f := fexp prec emax (Zpos (digits2_pos p) + e)).
  assert (Hf : -1074 <= f) by (unfold f; rewrite fexp_eq; lia).
  destruct (shl_align_val p e f ltac:(lia) ltac:(lia)) as (Hv & Hs & Hs').
  assert (Hz : snd (shl_align p e f) <= e).
  { destruct (Z_le_gt_dec f e) as [Hle|Hgt]; [rewrite Hs'; lia|].
    unfold shl_align. destruct (f - e) eqn:E; cbn [snd]; lia. }
  destruct (shl_align p e f) as [mz ez]. cbn [fst snd] in Hv, Hs, Hz.
  rewrite <- Hv in Hmag |- *.
  pose proof (pw_pos t ltac:(lia)) as Pt.
  pose proof (pw_pos ez Hs) as Pz.
  pose proof (round_aux_err s (Zpos mz) ez loc_Exact (Zpos mz * pw ez) 1 t
                ltac:(lia) Ht (Pos2Z.is_nonneg _) ltac:(lia)) as R.
  specialize (R ltac:(lia)).
  specialize (R ltac:(left; split; [reflexivity|lia])).
  assert (Hg : fexp prec emax (Zdigits2 (Z.pos mz) + ez) <= t).
  { rewrite fexp_eq.
    pose proof (Zdigits2_grid (Zpos mz) ez t ltac:(lia) Hs ltac:(lia) Hmag).
    lia. }
  specialize (R Hg ltac:(lia)).
  destruct (binary_round_aux prec emax s (Z.pos mz) ez loc_Exact)
    as [s'|s'| |s' m e0]; try contradiction; destruct R as [-> R];
    cbn [sf_fin sval]; (split; [exact I|]); destruct s; lia.
Qed.

Lemma sf_upto_cases (Bv : Z) (x : spec_float) :
  sf_upto Bv x ->
  (exists s, x = S754_zero s) \/
  (exists m e, x = S754_finite false m e /\ Zpos m * pw e <= Bv).
Proof.
  destruct x as [s|s| |[|] m e]; cbn [sf_upto]; try contradiction; eauto.
Qed.

Lemma SFmul_err (x K : spec_float) (b k t : Z) :
  valid_binary x = true -> valid_binary K = true ->
  0 < k -> 0 <= b -> -1074 <= t <= 900 ->
  b * k * pw 0 < 2 ^ 53 * pw t ->
  sf_int k K -> sf_upto (b * pw 0) x ->
  sf_fin (SF64mul x K) /\
  - (3 * pw t) <= sval (SF64mul x K) - k * sval x <= 3 * pw t.
Proof.
  intros Vx VK Hk Hb Ht Hmag HK Hx.
  destruct (sf_int_pos k K Hk HK VK) as (mK & eK & -> & HvK & RK).
  pose proof (pw_pos 0 ltac:(lia)) as P0.
  pose proof (pw_pos t ltac:(lia)) as Pt.
  destruct (sf_upto_cases _ _ Hx) as [[s ->]|(mx & ex & -> & Hle)].
  - unfold SF64mul. cbn [SFmul sf_fin sval]. split; [exact I|lia].
  - pose proof (proj1 (valid_finite _ _ _ Vx)) as Rx.
    pose proof (pw_pos ex ltac:(lia)) as Px.
    pose proof (pw_pos eK ltac:(lia)) as PK.
    pose proof (pw_pos (ex + eK) ltac:(lia)) as PxK.
    pose proof (pw_mul ex eK ltac:(lia) ltac:(lia) ltac:(lia)) as Hmul.
    assert (HN : Zpos (mx * mK) * pw (ex + eK) = k * (Zpos mx * pw ex)).
    { rewrite Pos2Z.inj_mul.
      apply Z.mul_cancel_r with (p := pw 0); [lia|].
      replace (Zpos mx * Zpos mK * pw (ex + eK) * pw 0)
        with ((Zpos mx * pw ex) * (Zpos mK * pw eK))
        by (rewrite <- (Z.mul_assoc _ (pw (ex + eK)) (pw 0)), Hmul; ring).
      rewrite HvK. ring. }
    assert (Hm : Zpos (mx * mK) * pw (ex + eK) < 2 ^ 53 * pw t)
      by (rewrite HN; nia).
    assert (Hexp : ex + eK < t + 53)
      by (apply (value_exp_bound (mx * mK)); [lia|exact Hm|lia]).
    unfold SF64mul, SFmul. cbn [xorb sval].
    pose proof (round_aux_err false (Zpos (mx * mK)) (ex + eK) loc_Exact
                  (Zpos (mx * mK) * pw (ex + eK)) 1 t
                  ltac:(lia) ltac:(lia) (Pos2Z.is_nonneg _) ltac:(lia)) as R.
    specialize (R ltac:(lia)).
    specialize (R ltac:(left; split; [reflexivity|lia])).
    assert (Hg : fexp prec emax (Zdigits2 (Z.pos (mx * mK)) + (ex + eK)) <= t).
    { rewrite fexp_eq.
      pose proof (Zdigits2_grid (Zpos (mx * mK)) (ex + eK) t
                    ltac:(lia) ltac:(lia) ltac:(lia) Hm). lia. }
    specialize (R Hg ltac:(lia)).
    destruct (binary_round_aux prec emax false (Z.pos (mx * mK)) (ex + eK)
                loc_Exact) as [s'|s'| |s' m e0]; try contradiction;
      destruct R as [-> R]; cbn [sf_fin sval]; (split; [exact I|]); lia.
Qed.

(** *** Addition, subtraction, division *)

Lemma SFadd_err (x K : spec_float) (b k t : Z) :
  valid_binary x = true -> valid_binary K = true ->
  0 < k -> 0 <= b -> -1074 <= t <= 900 ->
  (b + k) * pw 0 < 2 ^ 53 * pw t ->
  sf_int k K -> sf_within (k * pw 0) (b * pw 0) x ->
  sf_fin (SF64add x K) /\
  - (3 * pw t) <= sval (SF64add x K) - (sval x + k * pw 0) <= 3 * pw t.
Proof.
  intros Vx VK Hk Hb Ht Hmag HK Hx.
  destruct (sf_int_pos k K Hk HK VK) as (mK & eK & -> & HvK & RK).
  pose proof (pw_pos 0 ltac:(lia)) as P0.
  pose proof (pw_pos t ltac:(lia)) as Pt.
  destruct x as [sx|sx| |sx mx ex]; cbn [sf_within] in Hx;
    try contradiction.
  - unfold SF64add. cbn [SFadd sf_fin sval]. split; [exact I|lia].
  - pose proof (proj1 (valid_finite _ _ _ Vx)) as Rx.
    unfold SF64add, SFadd.
    set (ez := Z.min ex eK).
    destruct (shl_align_val mx ex ez ltac:(lia) ltac:(lia)) as (Hv1 & _ & Hs1).
    destruct (shl_align_val mK eK ez ltac:(lia) ltac:(lia)) as (Hv2 & _ & Hs2).
    rewrite Hs1 in Hv1 by lia. rewrite Hs2 in Hv2 by lia.
    set (a1 := Zpos (fst (shl_align mx ex ez))) in *.
    set (a2 := Zpos (fst (shl_align mK eK ez))) in *.
    pose proof (pw_pos ez ltac:(lia)) as Pz.
    assert (Hsum : (cond_Zopp sx a1 + cond_Zopp false a2) * pw ez
                   = sval (S754_finite sx mx ex) + k * pw 0 /\
                   0 <= sval (S754_finite sx mx ex) + k * pw 0
                     < 2 ^ 53 * pw t).
    { cbn [sval]. destruct sx; cbn [cond_Zopp]; nia. }
    destruct Hsum as [Hsum Hrange].
    destruct (cond_Zopp sx a1 + cond_Zopp false a2) as [|p|p] eqn:Ez;
      cbn [binary_normalize].
    + cbn [sf_fin]. split; [exact I|]. cbn [sval] in *. lia.
    + destruct (binary_round_err false p ez t ltac:(lia) ltac:(lia)
                  ltac:(lia)) as [Hfin Herr].
      split; [exact Hfin|]. lia.
    + exfalso. assert (Zneg p * pw ez < 0) by nia. lia.
Qed.

Lemma SFsub_err (x K : spec_float) (b k t : Z) :
  valid_binary x = true -> valid_binary K = true ->
  0 < k -> 0 <= b -> -1074 <= t <= 900 ->
  b * pw 0 < 2 ^ 53 * pw t -> k * pw 0 < 2 ^ 53 * pw t ->
  sf_int k K -> sf_upto (b * pw 0) x ->
  sf_fin (SF64sub x K) /\
  - (3 * pw t) <= sval (SF64sub x K) - (sval x - k * pw 0) <= 3 * pw t.
Proof.
  intros Vx VK Hk Hb Ht Hmb Hmk HK Hx.
  destruct (sf_int_pos k K Hk HK VK) as (mK & eK & -> & HvK & RK).
  pose proof (pw_pos 0 ltac:(lia)) as P0.
  pose proof (pw_pos t ltac:(lia)) as Pt.
  destruct (sf_upto_cases _ _ Hx) as [[s ->]|(mx & ex & -> & Hle)].
  - unfold SF64sub. cbn [SFsub sf_fin sval negb]. split; [exact I|lia].
  - pose proof (proj1 (valid_finite _ _ _ Vx)) as Rx.
    unfold SF64sub, SFsub.
    set (ez := Z.min ex eK).
    destruct (shl_align_val mx ex ez ltac:(lia) ltac:(lia)) as (Hv1 & _ & Hs1).
    destruct (shl_align_val mK eK ez ltac:(lia) ltac:(lia)) as (Hv2 & _ & Hs2).
    rewrite Hs1 in Hv1 by lia. rewrite Hs2 in Hv2 by lia.
    set (a1 := Zpos (fst (shl_align mx ex ez))) in *.
    set (a2 := Zpos (fst (shl_align mK eK ez))) in *.
    pose proof (pw_pos ez ltac:(lia)) as Pz.
    pose proof (pw_pos ex ltac:(lia)) as Px.
    cbn [cond_Zopp sval].
    assert (Hdiff : (a1 - a2) * pw ez = Zpos mx * pw ex - k * pw 0) by nia.
    destruct (a1 - a2) as [|p|p] eqn:Ez; cbn [binary_normalize].
    + cbn [sf_fin sval]. split; [exact I|]. lia.
    + destruct (binary_round_err false p ez t ltac:(lia) ltac:(lia)
                  ltac:(nia)) as [Hfin Herr].
      split; [exact Hfin|]. lia.
    + assert (Hp : Zpos p * pw ez = k * pw 0 - Zpos mx * pw ex).
      { change (Zneg p) with (- Zpos p) in Hdiff. lia. }
      destruct (binary_round_err true p ez t ltac:(lia) ltac:(lia)
                  ltac:(nia)) as [Hfin Herr].
      split; [exact Hfin|]. lia.
Qed.


Lemma SFdiv_err (x K : spec_float) (b k t : Z) :
  valid_binary x = true -> valid_binary K = true ->
  0 < k -> 0 <= b -> -1074 <= t <= 900 ->
  b * pw 0 < 2 ^ 53 * pw t ->
  sf_int k K -> sf_upto (b * k * pw 0) x ->
  sf_fin (SF64div x K) /\
  - (3 * (k * pw t)) <= k * sval (SF64div x K) - sval x <= 3 * (k * pw t).
Proof.
  intros Vx VK Hk Hb Ht Hmag HK Hx.
  destruct (sf_int_pos k K Hk HK VK) as (mK & eK & -> & HvK & RK).
  pose proof (pw_pos 0 ltac:(lia)) as P0.
  pose proof (pw_pos t ltac:(lia)) as Pt.
  destruct (sf_upto_cases _ _ Hx) as [[s ->]|(mx & ex & -> & Hle)].
  - unfold SF64div. cbn [SFdiv sf_fin sval]. split; [exact I|lia].
  - pose proof (proj1 (valid_finite _ _ _ Vx)) as Rx.
    unfold SF64div, SFdiv. cbn [xorb sval].
    pose proof (SFdiv_core_spec mx mK ex eK) as Hc.
    destruct (SFdiv_core_binary prec emax (Z.pos mx) ex (Z.pos mK) eK)
      as [[q e'] l].
    destruct Hc as (s & r & Hs & He' & Hlow & Hqr & Hr & Hq & Hl & Hfe).
    pose proof (pw_pos ex ltac:(lia)) as Px.
    pose proof (pw_pos eK ltac:(lia)) as PK.
    pose proof (pw_pos e' ltac:(lia)) as Pe.
    assert (Hpow : 0 < 2 ^ s) by (apply Z.pow_pos_nonneg; lia).
    assert (Hexp : pw ex * pw 0 = pw e' * 2 ^ s * pw eK).
    { rewrite <- pw_add by lia.
      rewrite <- (pw_mul (e' + s) eK) by lia.
      f_equal. f_equal. lia. }
    assert (Hkey : q * pw e' * (k * pw 0) + r * (pw e' * pw eK)
                   = Zpos mx * pw ex * pw 0).
    { replace (Zpos mx * pw ex * pw 0) with (Zpos mx * (pw ex * pw 0))
        by ring.
      rewrite Hexp, <- HvK.
      replace (Zpos mx * (pw e' * 2 ^ s * pw eK))
        with (Zpos mx * 2 ^ s * (pw e' * pw eK)) by ring.
      rewrite Hqr. ring. }
    (* the cell of the quotient *)
    assert (Hcell : k * (q * pw e') <= Zpos mx * pw ex
                    < k * ((q + 1) * pw e')).
    { split.
      - apply Z.mul_le_mono_pos_r with (p := pw 0); [exact P0|]. nia.
      - apply Z.mul_lt_mono_pos_r with (p := pw 0); [exact P0|].
        assert (r * (pw e' * pw eK) < Zpos mK * pw eK * pw e') by nia.
        rewrite HvK in H. nia. }
    assert (Hqv : q * pw e' < 2 ^ 53 * pw t).
    { assert (k * (q * pw e') <= k * (b * pw 0)) by nia. nia. }
    assert (Hgrid : fexp prec emax (Zdigits2 q + e') <= t).
    { destruct q as [|qp|qp]; try lia.
      - cbn [Zdigits2] in *. rewrite fexp_eq in *. lia.
      - pose proof (Zdigits2_grid (Zpos qp) e' t ltac:(lia) ltac:(lia)
                      ltac:(lia) Hqv).
        rewrite fexp_eq. lia. }
    pose proof (round_aux_err false q e' l (Zpos mx * pw ex) k t
                  ltac:(lia) ltac:(lia) Hq Hk Hcell (or_intror Hfe) Hgrid)
      as R.
    specialize (R ltac:(nia)).
    destruct (binary_round_aux prec emax false q e' l)
      as [s'|s'| |s' m e0]; try contradiction;
      destruct R as [-> R]; cbn [sf_fin sval]; (split; [exact I|]); lia.
Qed.

(** *** The errors on primitive floats *)


Lemma sf_int_sval (k : Z) (K : spec_float) : sf_int k K -> sval K = k * pw 0.
Proof.
  destruct K as [[|]|s| |s m e]; cbn [sf_int sval]; try contradiction; lia.
Qed.

Lemma fval_int (k : Z) : small k -> fval (float_of_int k) = k * pw 0.
Proof. intros Hk. apply sf_int_sval, float_of_int_rep, Hk. Qed.

Lemma sf_int_upto (a b : Z) (K : spec_float) :
  0 <= a <= b -> valid_binary K = true -> sf_int a K ->
  sf_upto (b * pw 0) K.
Proof.
  intros Hab V HK. pose proof (pw_pos 0 ltac:(lia)) as P0.
  destruct K as [[|]|s| |[|] m e]; cbn [sf_int sf_upto] in *;
    try contradiction; try exact I;
    pose proof (proj1 (valid_finite _ _ _ V)) as R;
    pose proof (pw_pos e ltac:(lia)); nia.
Qed.

Lemma float_int_upto (a b : Z) :
  0 <= a <= b -> small a ->
  sf_upto (b * pw 0) (Prim2SF (float_of_int a)).
Proof.
  intros Hab Ha. apply (sf_int_upto a b); [exact Hab|apply Prim2SF_valid|].
  now apply float_of_int_rep.
Qed.

Lemma sf_upto_fin (Bv : Z) (x : spec_float) : sf_upto Bv x -> sf_fin x.
Proof. destruct x as [s|s| |[|] m e]; cbn; auto. Qed.

Lemma sf_within_fin (Kv Bv : Z) (x : spec_float) :
  sf_within Kv Bv x -> sf_fin x.
Proof. destruct x as [s|s| |[|] m e]; cbn; auto. Qed.

(** The errors of the four operations of the quantizer, on doubles. *)

Lemma binary64_add_err (x : float) (k b t : Z) :
  0 < k -> 0 <= b -> small (b + k) -> -1074 <= t <= 900 ->
  (b + k) * pw 0 < 2 ^ 53 * pw t ->
  PrimFloat.leb (float_of_int (- k)) x = true ->
  PrimFloat.leb x (float_of_int b) = true ->
  sf_fin (Prim2SF x) /\
  - (3 * pw t) <= fval (x + float_of_int k) - (fval x + k * pw 0)
  <= 3 * pw t.
Proof.
  intros Hk Hb Hs Ht Hmag H0 H1. unfold small in Hs. unfold fval.
  rewrite FloatAxioms.leb_spec in H0, H1.
  assert (Hw : sf_within (k * pw 0) (b * pw 0) (Prim2SF x)).
  { apply (sf_within_of_leb k b (Prim2SF (float_of_int (- k)))
             (Prim2SF (float_of_int b))); try assumption;
      try apply Prim2SF_valid; apply float_of_int_rep; lia. }
  split; [exact (sf_within_fin _ _ _ Hw)|].
  rewrite FloatAxioms.add_spec.
  apply (SFadd_err _ _ b k t); try apply Prim2SF_valid; try assumption.
  apply float_of_int_rep. lia.
Qed.

Lemma binary64_div_err (x : float) (k b t : Z) :
  0 < k -> 0 <= b -> small k -> small (b * k) -> -1074 <= t <= 900 ->
  b * pw 0 < 2 ^ 53 * pw t ->
  PrimFloat.leb (float_of_int 0) x = true ->
  PrimFloat.leb x (float_of_int (b * k)) = true ->
  - (3 * (k * pw t)) <= k * fval (x / float_of_int k) - fval x
  <= 3 * (k * pw t).
Proof.
  intros Hk Hb Hsk Hs Ht Hmag H0 H1. unfold fval.
  assert (Hbk : 0 <= b * k) by nia.
  pose proof (float_leb_upto x (b * k) Hbk Hs H0 H1) as Hx.
  rewrite FloatAxioms.div_spec.
  apply (SFdiv_err _ _ b k t); try apply Prim2SF_valid; try assumption.
  apply float_of_int_rep. exact Hsk.
Qed.

Lemma binary64_mul_err (x : float) (k b t : Z) :
  0 < k -> 0 <= b -> small k -> small b -> -1074 <= t <= 900 ->
  b * k * pw 0 < 2 ^ 53 * pw t ->
  PrimFloat.leb (float_of_int 0) x = true ->
  PrimFloat.leb x (float_of_int b) = true ->
  - (3 * pw t) <= fval (x * float_of_int k) - k * fval x <= 3 * pw t.
Proof.
  intros Hk Hb Hsk Hs Ht Hmag H0 H1. unfold fval.
  pose proof (float_leb_upto x b Hb Hs H0 H1) as Hx.
  rewrite FloatAxioms.mul_spec.
  apply (SFmul_err _ _ b k t); try apply Prim2SF_valid; try assumption.
  apply float_of_int_rep. exact Hsk.
Qed.

Lemma binary64_sub_err (x : float) (k b t : Z) :
  0 < k -> 0 <= b -> small k -> small b -> -1074 <= t <= 900 ->
  b * pw 0 < 2 ^ 53 * pw t -> k * pw 0 < 2 ^ 53 * pw t ->
  PrimFloat.leb (float_of_int 0) x = true ->
  PrimFloat.leb x (float_of_int b) = true ->
  sf_fin (Prim2SF (x - float_of_int k)) /\
  - (3 * pw t) <= fval (x - float_of_int k) - (fval x - k * pw 0)
  <= 3 * pw t.
Proof.
  intros Hk Hb Hsk Hs Ht Hmb Hmk H0 H1. unfold fval.
  pose proof (float_leb_upto x b Hb Hs H0 H1) as Hx.
  rewrite FloatAxioms.sub_spec.
  apply (SFsub_err _ _ b k t); try apply Prim2SF_valid; try assumption.
  apply float_of_int_rep. exact Hsk.
Qed.

(** [math.floor] brackets the value. *)
Lemma floor_val (x : float) (b n : Z) :
  sf_upto (b * pw 0) (Prim2SF x) -> float_floor x = Some n ->
  n * pw 0 <= fval x < (n + 1) * pw 0.
Proof.
  unfold float_floor, fval. pose proof (Prim2SF_valid x) as V.
  pose proof (pw_pos 0 ltac:(lia)) as P0.
  destruct (Prim2SF x) as [s|s| |[|] m e]; cbn [sf_upto sval];
    try contradiction.
  - intros _ [= <-]. lia.
  - intros _. pose proof (proj1 (valid_finite _ _ _ V)) as R.
    pose proof (pw_pos e ltac:(lia)) as Pe.
    destruct e as [|p|p]; intros H.
    + assert (Hn : n = Z.pos m) by congruence. subst n. lia.
    + assert (Hn : n = Z.pos m * 2 ^ Z.pos p) by congruence. clear H.
      assert (E : pw (Zpos p) = pw 0 * 2 ^ Zpos p)
        by (rewrite <- pw_add by lia; f_equal).
      rewrite E, Hn. nia.
    + assert (Hn : n = Z.pos m / 2 ^ Z.pos p) by congruence. clear H.
      assert (E : pw 0 = pw (Zneg p) * 2 ^ Zpos p).
      { rewrite <- pw_add by lia. f_equal. lia. }
      assert (Hp : 0 < 2 ^ Zpos p) by (apply Z.pow_pos_nonneg; lia).
      rewrite E, Hn.
      pose proof (Z.mul_div_le (Zpos m) (2 ^ Zpos p) Hp).
      pose proof (Z.mul_succ_div_gt (Zpos m) (2 ^ Zpos p) Hp).
      nia.
Qed.

(** The rational of a finite double is its scaled value over 2^4000. *)
Lemma float_to_Q_val (x : float) :
  sf_fin (Prim2SF x) ->
  (float_to_Q x == inject_Z (fval x) / inject_Z (pw 0))%Q.
Proof.
  unfold float_to_Q, fval. pose proof (Prim2SF_valid x) as V.
  pose proof (pw_pos 0 ltac:(lia)) as P0.
  assert (HP : ~ (inject_Z (pw 0) == 0)%Q).
  { intros E. unfold Qeq in E. cbn in E. lia. }
  destruct (Prim2SF x) as [s|s| |s m e]; cbn [sf_fin sval];
    try contradiction; intros _.
  - unfold Qdiv. rewrite Qmult_0_l. reflexivity.
  - pose proof (proj1 (valid_finite _ _ _ V)) as R.
    pose proof (pw_pos e ltac:(lia)) as Pe.
    apply Qmult_inj_r with (z := inject_Z (pw 0)); [exact HP|].
    unfold Qdiv. rewrite <- Qmult_assoc, (Qmult_comm (/ _)), Qmult_inv_r,
      Qmult_1_r by exact HP.
    set (v := if s then Z.neg m else Z.pos m).
    replace (if s then - Z.pos m else Z.pos m) with v
      by (unfold v; destruct s; reflexivity).
    destruct e as [|p|p].
    + rewrite <- inject_Z_mult. reflexivity.
    + rewrite <- inject_Z_mult.
      assert (E : pw (Zpos p) = pw 0 * 2 ^ Zpos p)
        by (rewrite <- pw_add by lia; f_equal).
      rewrite E. apply inject_Z_injective. ring.
    + assert (E : pw 0 = pw (Zneg p) * 2 ^ Zpos p).
      { rewrite <- pw_add by lia. f_equal. lia. }
      unfold Qeq, Qmult, inject_Z. cbn [Qnum Qden].
      rewrite Pos.mul_1_r, Pos2Z.inj_pow, E. ring.
Qed.

(** *** One axis *)

Lemma pw_shift (e d : Z) : -4000 <= e -> 0 <= d -> pw (e + d) = pw e * 2 ^ d.
Proof. intros He Hd. now apply pw_add. Qed.

(** One axis on binary64.  [tau] is the exponent of the last place of the
    doubles next to the span [2 * o]. *)
Lemma axis_err (o tau : Z) (x : float) (k : Z) :
  0 < o < 2 ^ 50 -> -1074 <= tau <= 900 ->
  2 * o * pw 0 < 2 ^ 53 * pw tau ->
  PrimFloat.leb (float_of_int (- o)) x = true ->
  PrimFloat.leb x (float_of_int o) = true ->
  float_floor ((x + float_of_int o) / float_of_int (2 * o)
               * float_of_int (2 ^ 24 - 1))%float = Some k ->
  let x' := (float_of_int k / float_of_int (2 ^ 24 - 1)
             * float_of_int (2 * o) - float_of_int o)%float in
  let err := 9 * ((2 ^ 24 - 1) * pw tau)
             + 12 * ((2 ^ 24 - 1) * (o * pw (-52)))
             + 6 * (o * pw (-29)) in
  0 <= k <= 2 ^ 24 - 1 /\
  sf_fin (Prim2SF x) /\ sf_fin (Prim2SF x') /\
  - (2 * (o * pw 0) + err) <= (2 ^ 24 - 1) * (fval x' - fval x) <= err.
Proof.
  intros Ho Htau Hmag Hlo Hhi Hk x' err. subst x' err.
  assert (ER : pw (-29) = pw (-52) * 2 ^ 23) by (now rewrite <- pw_shift).
  assert (EP : pw 0 = pw (-52) * 2 ^ 52) by (now rewrite <- pw_shift).
  pose proof (pw_pos (-52) ltac:(lia)) as PE.
  pose proof (pw_pos 0 ltac:(lia)) as PP.
  pose proof (pw_pos tau ltac:(lia)) as PU.
  assert (PoP : 0 < o * pw 0) by (apply Z.mul_pos_pos; lia).
  (* encode *)
  destruct (binary64_add_range x o o) as [A0 A1];
    try assumption; try (unfold small; lia).
  destruct (binary64_add_err x o o tau) as [Fx A2];
    try assumption; try (unfold small; lia).
  replace (o + o) with (1 * (2 * o)) in A1 by lia.
  set (a := (x + float_of_int o)%float) in *.
  destruct (binary64_div_range a (2 * o) 1) as [B0 B1];
    try assumption; try (unfold small; lia).
  pose proof (binary64_div_err a (2 * o) 1 (-52)) as B2.
  specialize (B2 ltac:(lia) ltac:(lia) ltac:(unfold small; lia)
                 ltac:(unfold small; lia) ltac:(lia)
                 ltac:(rewrite EP; lia) A0 A1).
  set (b := (a / float_of_int (2 * o))%float) in *.
  destruct (binary64_mul_range b (2 ^ 24 - 1) 1) as [C0 C1];
    try assumption; try (unfold small; lia).
  pose proof (binary64_mul_err b (2 ^ 24 - 1) 1 (-29)) as C2.
  specialize (C2 ltac:(lia) ltac:(lia) ltac:(unfold small; lia)
                 ltac:(unfold small; lia) ltac:(lia)
                 ltac:(rewrite ER, EP; lia) B0 B1).
  set (c := (b * float_of_int (2 ^ 24 - 1))%float) in *.
  assert (Cu : sf_upto ((1 * (2 ^ 24 - 1)) * pw 0) (Prim2SF c))
    by (apply float_leb_upto; try assumption; unfold small; lia).
  destruct (floor_upto c (1 * (2 ^ 24 - 1)) ltac:(lia) Cu)
    as (k' & Hk' & Rk).
  rewrite Hk in Hk'. injection Hk' as <-.
  pose proof (floor_val c (1 * (2 ^ 24 - 1)) k Cu Hk) as F.
  (* decode *)
  assert (Ku : sf_upto ((1 * (2 ^ 24 - 1)) * pw 0)
                 (Prim2SF (float_of_int k)))
    by (apply float_int_upto; unfold small; lia).
  destruct (float_upto_leb (float_of_int k) (1 * (2 ^ 24 - 1)) ltac:(lia)
              ltac:(unfold small; lia) Ku) as [K0 K1].
  pose proof (fval_int k ltac:(unfold small; lia)) as Kv.
  destruct (binary64_div_range (float_of_int k) (2 ^ 24 - 1) 1) as [P0 P1];
    try assumption; try (unfold small; lia).
  pose proof (binary64_div_err (float_of_int k) (2 ^ 24 - 1) 1 (-52)) as P2.
  specialize (P2 ltac:(lia) ltac:(lia) ltac:(unfold small; lia)
                 ltac:(unfold small; lia) ltac:(lia)
                 ltac:(rewrite EP; lia) K0 K1).
  set (p := (float_of_int k / float_of_int (2 ^ 24 - 1))%float) in *.
  destruct (binary64_mul_range p (2 * o) 1) as [Q0 Q1];
    try assumption; try (unfold small; lia).
  pose proof (binary64_mul_err p (2 * o) 1 tau) as Q2.
  specialize (Q2 ltac:(lia) ltac:(lia) ltac:(unfold small; lia)
                 ltac:(unfold small; lia) ltac:(lia) ltac:(lia) P0 P1).
  set (q := (p * float_of_int (2 * o))%float) in *.
  pose proof (binary64_sub_err q o (1 * (2 * o)) tau) as S2.
  specialize (S2 ltac:(lia) ltac:(lia) ltac:(unfold small; lia)
                 ltac:(unfold small; lia) ltac:(lia) ltac:(lia) ltac:(lia)
                 Q0 Q1).
  destruct S2 as [Fx' S2].
  split; [lia|]. split; [exact Fx|]. split; [exact Fx'|].
  rewrite Kv in P2.
  change (2 ^ 24 - 1) with 16777215 in *.
  set (A := fval a) in *. set (B := fval b) in *. set (C := fval c) in *.
  set (P := fval p) in *. set (Qv := fval q) in *.
  set (X := fval x) in *.
  set (X' := fval (q - float_of_int o)) in *.
  clearbody A B C P Qv X X'. clear - Ho PE PP PU A2 B2 C2 F P2 Q2 S2.
  set (E := pw (-52)) in *. set (R := pw (-29)) in *.
  set (U := pw tau) in *. set (W := pw 0) in *.
  clearbody E R U W.
  assert (C3 : - (3 * (o * R)) <= o * C - 16777215 * (o * B)
               <= 3 * (o * R)) by nia.
  assert (F3 : o * (k * W) <= o * C < o * (k * W) + o * W) by nia.
  assert (P3 : - (3 * (16777215 * (o * E)))
               <= 16777215 * (o * P) - o * (k * W)
               <= 3 * (16777215 * (o * E))) by nia.
  lia.
Qed.

Lemma Qabs_scaled (d P n m : Z) :
  0 < P -> 0 < m -> - (n * P) <= m * d <= n * P ->
  (Qabs (inject_Z d / inject_Z P) <= inject_Z n / inject_Z m)%Q.
Proof.
  intros HP Hm Hd.
  destruct P as [|p|p]; try lia. destruct m as [|m|m]; try lia.
  apply Qabs_Qle_condition.
  unfold Qle, Qdiv, Qinv, Qmult, Qopp, inject_Z. cbn [Qnum Qden].
  rewrite !Pos.mul_1_l, !Z.mul_1_r. lia.
Qed.

Lemma float_to_Q_diff (x x' : float) :
  sf_fin (Prim2SF x) -> sf_fin (Prim2SF x') ->
  (float_to_Q x' - float_to_Q x
   == inject_Z (fval x' - fval x) / inject_Z (pw 0))%Q.
Proof.
  intros Fx Fx'. rewrite (float_to_Q_val x Fx), (float_to_Q_val x' Fx').
  unfold Zminus. rewrite inject_Z_plus, inject_Z_opp.
  unfold Qdiv, Qminus. ring.
Qed.

Lemma axis_roundtrip (o tau eps : Z) (x : float) (k : Z) :
  (o = 90 /\ tau = -45 /\ eps = 1) \/ (o = 180 /\ tau = -44 /\ eps = 2) ->
  PrimFloat.leb (float_of_int (- o)) x = true ->
  PrimFloat.leb x (float_of_int o) = true ->
  float_floor ((x + float_of_int o) / float_of_int (2 * o)
               * float_of_int (2 ^ 24 - 1))%float = Some k ->
  (Qabs (float_to_Q (float_of_int k / float_of_int (2 ^ 24 - 1)
                     * float_of_int (2 * o) - float_of_int o)%float
         - float_to_Q x)
   <= bucket (2 * o) + inject_Z eps / inject_Z (10 ^ 12))%Q.
Proof.
  intros Hc Hlo Hhi Hk.
  assert (EU : pw tau = pw (-52) * (eps * 128)).
  { destruct Hc as [(_ & -> & ->)|(_ & -> & ->)].
    - change (-45) with (-52 + 7). now rewrite pw_shift.
    - change (-44) with (-52 + 8). now rewrite pw_shift. }
  assert (ER : pw (-29) = pw (-52) * 8388608)
    by (change (-29) with (-52 + 23); now rewrite pw_shift).
  assert (EP : pw 0 = pw (-52) * 4503599627370496)
    by (change 0 with (-52 + 52) at 1; now rewrite pw_shift).
  pose proof (pw_pos (-52) ltac:(lia)) as PE.
  pose proof (pw_pos 0 ltac:(lia)) as PP.
  assert (Hmag : 2 * o * pw 0 < 2 ^ 53 * pw tau).
  { rewrite EU, EP. change (2 ^ 53) with 9007199254740992.
    destruct Hc as [(-> & _ & ->)|(-> & _ & ->)]; lia. }
  assert (Ho : 0 < o < 2 ^ 50) by lia.
  assert (Ht : -1074 <= tau <= 900) by lia.
  destruct (axis_err o tau x k Ho Ht Hmag Hlo Hhi Hk)
    as (_ & Fx & Fx' & Hd).
  rewrite (float_to_Q_diff _ _ Fx Fx').
  set (d := fval _ - fval x) in *. clearbody d.
  change (2 ^ 24 - 1) with 16777215 in Hd.
  rewrite EU, ER, EP in Hd.
  apply Qle_trans with
    (inject_Z (2 * o * 1000000000000 + eps * 16777215)
     / inject_Z 16777215000000000000)%Q.
  - apply Qabs_scaled; [exact PP|reflexivity|].
    rewrite EP. clear - Hc Hd PE.
    set (E := pw (-52)) in *. clearbody E.
    destruct Hc as [(-> & _ & ->)|(-> & _ & ->)]; lia.
  - apply Qle_lteq. right.
    destruct Hc as [(-> & _ & ->)|(-> & _ & ->)]; reflexivity.
Qed.

(** C3, as the code has it.  On binary64, for every lat in [-90, 90] and
    lon in [-180, 180], [encode] returns a code and [decode] of that code
    returns a coordinate [(lat', lon')] with
    [|lat' - lat| <= 180/(2^24 - 1) + 1e-12] and
    [|lon' - lon| <= 360/(2^24 - 1) + 2e-12], the differences taken on the
    exact values of the doubles.  The slack covers the roundings of the six
    operations of an axis; without it the bound fails
    ([roundtrip_error_binary64]). *)
Theorem roundtrip_error (lat lon : float) :
  between (-90) lat 90 = true -> between (-180) lon 180 = true ->
  exists (code : str) (lat' lon' : float),
    @encode float binary64 lat lon = Ok code /\
    @decode float binary64 code = Ok (lat', lon') /\
    (Qabs (float_to_Q lat' - float_to_Q lat)
     <= bucket 180 + (1 # 1000000000000))%Q /\
    (Qabs (float_to_Q lon' - float_to_Q lon)
     <= bucket 360 + (2 # 1000000000000))%Q.
Proof.
  intros Blat Blon.
  destruct (@encode_in_range float binary64 binary64_laws lat lon Blat Blon)
    as (latInt & lonInt & Qlat & Qlon & Rlat & Rlon & He).
  apply quantize_floor in Qlat, Qlon.
  apply between_true in Blat, Blon.
  destruct Blat as [Llo Lhi]. destruct Blon as [Nlo Nhi].
  cbn [num_floor num_le num_add num_div num_mul int binary64]
    in Qlat, Qlon, Llo, Lhi, Nlo, Nhi.
  eexists _, _, _. split; [exact He|]. split.
  - apply decode_digits; lia.
  - cbn [int num_add num_sub num_mul num_div binary64]. split.
    + exact (axis_roundtrip 90 (-45) 1 lat latInt
               ltac:(left; auto) Llo Lhi Qlat).
    + exact (axis_roundtrip 180 (-44) 2 lon lonInt
               ltac:(right; auto) Nlo Nhi Qlon).
Qed.

Lemma roundtrip_error_witness :
  exists (code : str) (lat' lon' : float),
    @encode float binary64 lat_near_boundary 0%float = Ok code /\
    @decode float binary64 code = Ok (lat', lon') /\
    (Qabs (float_to_Q lat' - float_to_Q lat_near_boundary)
     <= bucket 180 + (1 # 1000000000000))%Q /\
    (Qabs (float_to_Q lon' - float_to_Q 0%float)
     <= bucket 360 + (2 # 1000000000000))%Q.
Proof.
  apply (roundtrip_error lat_near_boundary 0%float); reflexivity.
Defined.

(** * Further properties *)

(** ** More on the digit codec *)

Lemma in_alphabet_rev (s : str) : in_alphabet s -> in_alphabet (rev s).
Proof. apply Forall_rev. Qed.

(** [in_alphabet], as a test. *)
Lemma in_alphabet_check (s : str) :
  forallb (fun c => existsb (Ascii.eqb c) CHARSET) s = true ->
  in_alphabet s.
Proof.
  intros Hs. apply Forall_forall. intros c Hc.
  rewrite forallb_forall in Hs. specialize (Hs c Hc).
  apply existsb_exists in Hs. destruct Hs as (c' & Hin & E).
  apply Ascii.eqb_eq in E. now subst.
Qed.

Lemma in_alphabet_app (s t : str) :
  in_alphabet (s ++ t) <-> in_alphabet s /\ in_alphabet t.
Proof. apply Forall_app. Qed.

(** X1.  [int_to_base29] never raises: for every integer [n], negative
    ones included, and every [length], each [INDEX_TO_CHAR[n % BASE]]
    lookup finds its key, and the result is a string of exactly [length]
    symbols of the alphabet (the empty string for [length = 0]). *)
Theorem int_to_base29_total (n : Z) (length : nat) :
  exists s : str,
    int_to_base29 n length = Ok s /\
    List.length s = length /\
    in_alphabet s.
Proof.
  exists (rev (digits length n)). split; [apply int_to_base29_digits|].
  split.
  - rewrite length_rev. apply digits_length.
  - apply in_alphabet_rev, digits_in_alphabet.
Qed.

(** X2.  For every integer [n] and every [length], reading back the
    output of [int_to_base29] gives [n mod 29^length], with Python's
    flooring [%]: a value of [0 .. 29^length - 1] is recovered, a larger
    one loses its high digits and a negative one wraps around. *)
Theorem base29_roundtrip_mod (n : Z) (length : nat) :
  exists s : str,
    int_to_base29 n length = Ok s /\
    base29_to_int s = Ok (n mod 29 ^ Z.of_nat length) /\
    0 <= n mod 29 ^ Z.of_nat length < 29 ^ Z.of_nat length.
Proof.
  exists (rev (digits length n)). split; [apply int_to_base29_digits|].
  split.
  - rewrite base29_to_int_digits, BASE_29. reflexivity.
  - apply Z.mod_pos_bound, Z.pow_pos_nonneg; lia.
Qed.

(** The index of a symbol names that symbol. *)
Lemma CHAR_TO_INDEX_digit (c : ascii) (i : Z) :
  dict_get Ascii.eqb CHAR_TO_INDEX c = Some i -> digit i = c.
Proof.
  intros Hc. apply dict_get_Some_In in Hc. vm_compute in Hc.
  repeat (destruct Hc as [Hc|Hc]; [injection Hc as <- <-; reflexivity|]).
  destruct Hc.
Qed.

(** Starting the loop of [base29_to_int] from another accumulator shifts
    the result by the difference, [length s] digits up. *)
Lemma base29_to_int_loop_shift (s : str) :
  forall a1 v1 a2 : Z,
    base29_to_int_loop s a1 = Ok v1 ->
    base29_to_int_loop s a2
    = Ok (v1 + (a2 - a1) * BASE ^ Z.of_nat (List.length s)).
Proof.
  induction s as [|c s IH]; intros a1 v1 a2.
  - cbn [base29_to_int_loop List.length]. intros [= <-]. f_equal.
    change (BASE ^ Z.of_nat 0) with 1. lia.
  - cbn [base29_to_int_loop List.length].
    destruct (dict_get Ascii.eqb CHAR_TO_INDEX c) as [i|]; [|discriminate].
    intros Hv. rewrite (IH _ _ (a2 * BASE + i) Hv). f_equal.
    rewrite BASE_pow_succ. ring.
Qed.

Lemma base29_to_int_loop_snoc (s : str) (c : ascii) (n i : Z) :
  base29_to_int_loop s 0 = Ok n ->
  dict_get Ascii.eqb CHAR_TO_INDEX c = Some i ->
  base29_to_int_loop (s ++ [c]) 0 = Ok (n * BASE + i).
Proof.
  intros Hs Hc. rewrite base29_to_int_loop_app, Hs.
  cbn [bind base29_to_int_loop]. now rewrite Hc.
Qed.

(** A string that [base29_to_int] accepts is the digits of its value. *)
Lemma base29_to_int_Ok_digits (s : str) :
  forall n : Z,
    base29_to_int s = Ok n ->
    0 <= n < BASE ^ Z.of_nat (List.length s) /\
    rev (digits (List.length s) n) = s.
Proof.
  unfold base29_to_int.
  induction s as [|c s IH] using rev_ind; intros n.
  - cbn [base29_to_int_loop List.length digits rev]. intros [= <-].
    change (BASE ^ Z.of_nat 0) with 1. split; [lia|reflexivity].
  - rewrite base29_to_int_loop_app.
    destruct (base29_to_int_loop s 0) as [m|e] eqn:Hs; [|discriminate].
    cbn [bind base29_to_int_loop].
    destruct (dict_get Ascii.eqb CHAR_TO_INDEX c) as [i|] eqn:Hc;
      [|discriminate].
    intros [= <-]. destruct (IH m eq_refl) as [Hm Hd].
    pose proof (CHAR_TO_INDEX_range c i Hc) as Hi.
    pose proof (CHAR_TO_INDEX_digit c i Hc) as Hdi.
    rewrite length_app. cbn [List.length]. rewrite Nat.add_1_r.
    rewrite BASE_pow_succ. rewrite BASE_29 in *. split; [nia|].
    cbn [digits rev]. rewrite BASE_29.
    replace ((m * 29 + i) mod 29) with i
      by (rewrite Z.add_comm, Z.mod_add, Z.mod_small; lia).
    replace ((m * 29 + i) / 29) with m
      by (rewrite Z.add_comm, Z.div_add, Z.div_small; lia).
    now rewrite Hd, Hdi.
Qed.

Lemma base29_to_int_Ok_iff (s : str) :
  (exists n : Z, base29_to_int s = Ok n) <-> in_alphabet s.
Proof.
  split.
  - intros [n Hn].
    destruct (base29_to_int_cases s) as [[Ha _]|(c & _ & _ & Hc)];
      [exact Ha|congruence].
  - intros Ha.
    destruct (base29_to_int_cases s) as [[_ Hk]|(c & Hin & Hn & _)];
      [exact Hk|].
    exfalso. apply Hn. exact (proj1 (Forall_forall _ _) Ha c Hin).
Qed.

(** X3.  The other round trip: a string [s] of symbols of the alphabet is
    read by [base29_to_int] as an integer [n] of [0 .. 29^len(s) - 1], and
    [int_to_base29(n, len(s))] writes [s] back. *)
Theorem base29_to_int_inverse (s : str) :
  in_alphabet s ->
  exists n : Z,
    base29_to_int s = Ok n /\
    0 <= n < 29 ^ Z.of_nat (List.length s) /\
    int_to_base29 n (List.length s) = Ok s.
Proof.
  intros Ha. apply base29_to_int_Ok_iff in Ha. destruct Ha as [n Hn].
  destruct (base29_to_int_Ok_digits s n Hn) as [Hr Hd].
  exists n. split; [exact Hn|]. rewrite BASE_29 in Hr. split; [exact Hr|].
  rewrite int_to_base29_digits. now rewrite Hd.
Qed.

Lemma base29_to_int_inverse_witness :
  in_alphabet (lit "M4TF7") /\
  exists n : Z,
    base29_to_int (lit "M4TF7") = Ok n /\
    0 <= n < 29 ^ Z.of_nat (List.length (lit "M4TF7")) /\
    int_to_base29 n (List.length (lit "M4TF7")) = Ok (lit "M4TF7").
Proof.
  assert (Ha : in_alphabet (lit "M4TF7"))
    by (apply in_alphabet_check; reflexivity).
  split; [exact Ha|]. exact (base29_to_int_inverse (lit "M4TF7") Ha).
Defined.

(** X4.  [base29_to_int] is positional: the value of [s + t] is the value
    of [s] shifted [len(t)] digits up, plus the value of [t]. *)
Theorem base29_to_int_concat (s t : str) (a b : Z) :
  base29_to_int s = Ok a -> base29_to_int t = Ok b ->
  base29_to_int (s ++ t) = Ok (a * 29 ^ Z.of_nat (List.length t) + b).
Proof.
  unfold base29_to_int. intros Hs Ht.
  rewrite base29_to_int_loop_app, Hs. cbn [bind].
  rewrite (base29_to_int_loop_shift t 0 b a Ht), BASE_29. f_equal. lia.
Qed.

Lemma base29_to_int_concat_witness :
  base29_to_int (lit "AB") = Ok 1 /\ base29_to_int (lit "C9") = Ok 86 /\
  base29_to_int (lit "AB" ++ lit "C9")
  = Ok (1 * 29 ^ Z.of_nat (List.length (lit "C9")) + 86).
Proof.
  split; [reflexivity|]. split; [reflexivity|].
  apply (base29_to_int_concat (lit "AB") (lit "C9") 1 86); reflexivity.
Defined.

(** X5.  [base29_to_int] raises for the first symbol that is not in the
    alphabet, whatever follows it. *)
Theorem base29_to_int_first_invalid (pre rest : str) (c : ascii) :
  in_alphabet pre -> ~ In c CHARSET ->
  base29_to_int (pre ++ c :: rest) = Err (InvalidSymbol c).
Proof.
  intros Ha Hc. apply base29_to_int_Ok_iff in Ha. destruct Ha as [n Hn].
  unfold base29_to_int in *. rewrite base29_to_int_loop_app, Hn.
  cbn [bind base29_to_int_loop].
  apply CHAR_TO_INDEX_None in Hc. now rewrite Hc.
Qed.

Lemma base29_to_int_first_invalid_witness :
  in_alphabet (lit "AB") /\ ~ In "I"%char CHARSET /\
  base29_to_int (lit "AB" ++ "I"%char :: lit "0O")
  = Err (InvalidSymbol "I"%char).
Proof.
  assert (Ha : in_alphabet (lit "AB")) by (apply in_alphabet_check; reflexivity).
  assert (Hc : ~ In "I"%char CHARSET) by (apply CHAR_TO_INDEX_None; reflexivity).
  split; [exact Ha|]. split; [exact Hc|].
  exact (base29_to_int_first_invalid (lit "AB") (lit "0O") "I"%char Ha Hc).
Defined.

(** X6.  Two strings of the same length that [base29_to_int] reads as the
    same integer are the same string: a code of fixed length names its
    integer without ambiguity. *)
Theorem base29_to_int_injective (s t : str) (n : Z) :
  List.length s = List.length t ->
  base29_to_int s = Ok n -> base29_to_int t = Ok n -> s = t.
Proof.
  intros Hl Hs Ht.
  destruct (base29_to_int_Ok_digits s n Hs) as [_ <-].
  destruct (base29_to_int_Ok_digits t n Ht) as [_ <-].
  now rewrite Hl.
Qed.

Lemma base29_to_int_injective_witness :
  List.length (lit "AAAAB") = List.length (lit "AAAAB") /\
  base29_to_int (lit "AAAAB") = Ok 1 /\
  lit "AAAAB" = lit "AAAAB".
Proof.
  split; [reflexivity|]. split; [reflexivity|].
  apply (base29_to_int_injective (lit "AAAAB") (lit "AAAAB") 1);
    reflexivity.
Defined.

(** ** More on [decode] and [encode] *)

(** X7.  [decode] has three outcomes and no other: a string of ten
    symbols of the alphabet is decoded; a string of another length raises
    the length error, whatever its symbols; a string of ten symbols one of
    which is not in the alphabet raises the invalid-symbol error for such a
    symbol.  No overflow, no range error. *)
Theorem decode_outcomes {F : Type} `{Num F} (code : str) :
  (List.length code = 10%nat /\ in_alphabet code /\
   exists p : F * F, decode code = Ok p) \/
  (List.length code <> 10%nat /\ @decode F _ code = Err InvalidLength) \/
  (List.length code = 10%nat /\
   exists c : ascii,
     In c code /\ ~ In c CHARSET /\
     @decode F _ code = Err (InvalidSymbol c)).
Proof.
  destruct (Nat.eq_dec (List.length code) 10) as [Hl|Hl].
  - destruct (decode_ten_cases (F := F) code Hl) as [[Ha Hp]|Hc].
    + left. repeat split; assumption.
    + right. right. split; assumption.
  - right. left. split; [exact Hl|now apply decode_wrong_length].
Qed.

(** X8.  On binary64, whatever the two doubles, [encode] returns a code
    of ten symbols of the alphabet or raises one of its two range errors,
    the latitude first: [math.floor] is never applied to a nan or an
    infinity, and no [INDEX_TO_CHAR] lookup fails. *)
Theorem encode_outcomes (lat lon : float) :
  (exists code : str,
     @encode float binary64 lat lon = Ok code /\
     List.length code = 10%nat /\ in_alphabet code) \/
  (between (-90) lat 90 = false /\
   @encode float binary64 lat lon = Err (OutOfRange Latitude)) \/
  (between (-90) lat 90 = true /\ between (-180) lon 180 = false /\
   @encode float binary64 lat lon = Err (OutOfRange Longitude)).
Proof.
  destruct (between (-90) lat 90) eqn:Blat.
  - destruct (between (-180) lon 180) eqn:Blon.
    + left.
      destruct (@encode_in_range float binary64 binary64_laws lat lon
                  Blat Blon) as (a & b & _ & _ & _ & _ & Hok).
      eexists. split; [exact Hok|]. split.
      * rewrite length_app, !length_rev, !digits_length. reflexivity.
      * apply in_alphabet_app.
        split; apply in_alphabet_rev, digits_in_alphabet.
    + right. right. rewrite encode_unfold, Blat, Blon. auto.
  - right. left. rewrite encode_unfold, Blat. auto.
Qed.

(** A nan or an infinity is on no side of an integer. *)
Lemma SFcompare_refl (x : spec_float) :
  sf_fin x -> valid_binary x = true -> SFeqb x x = true.
Proof.
  unfold SFeqb. destruct x as [s|s| |s m e]; cbn [sf_fin SFcompare];
    try contradiction; try reflexivity.
  intros _ _. rewrite Z.compare_refl, Pos.compare_cont_refl.
  destruct s; reflexivity.
Qed.

Lemma is_nan_not_fin (x : float) :
  is_nan x = true -> Prim2SF x = S754_nan.
Proof.
  unfold is_nan. rewrite FloatAxioms.eqb_spec.
  pose proof (Prim2SF_valid x) as V.
  destruct (Prim2SF x) as [s|s| |s m e] eqn:E; try reflexivity.
  - discriminate.
  - destruct s; discriminate.
  - rewrite (SFcompare_refl (S754_finite s m e) I V). discriminate.
Qed.

Lemma is_infinity_not_fin (x : float) :
  is_infinity x = true -> exists s : bool, Prim2SF x = S754_infinity s.
Proof.
  unfold is_infinity. rewrite FloatAxioms.eqb_spec, FloatAxioms.abs_spec.
  change (Prim2SF infinity) with (S754_infinity false).
  destruct (Prim2SF x) as [s|s| |s m e]; try discriminate.
  intros _. now exists s.
Qed.

Lemma between_non_finite (lo hi : Z) (x : float) :
  small lo -> small hi ->
  is_nan x = true \/ is_infinity x = true ->
  @between float binary64 lo x hi = false.
Proof.
  intros Hlo Hhi Hx. unfold between. cbn [num_le int binary64].
  rewrite !FloatAxioms.leb_spec.
  pose proof (float_of_int_rep lo Hlo) as Rlo.
  pose proof (float_of_int_rep hi Hhi) as Rhi.
  destruct Hx as [Hx|Hx].
  - rewrite (is_nan_not_fin x Hx).
    destruct (Prim2SF (float_of_int lo)) as [s|s| |s m e]; reflexivity.
  - destruct (is_infinity_not_fin x Hx) as [s ->].
    destruct (Prim2SF (float_of_int lo)) as [sl|sl| |sl ml el];
      cbn [sf_int] in Rlo; try contradiction;
      destruct (Prim2SF (float_of_int hi)) as [sh|sh| |sh mh eh];
      cbn [sf_int] in Rhi; try contradiction;
      destruct s; try destruct sl; try destruct sh; reflexivity.
Qed.

(** X9.  On binary64 a nan or an infinity is rejected by the range
    checks, since every comparison with a nan is false: as a latitude it
    raises the latitude error whatever the longitude, and as the longitude
    of a valid latitude it raises the longitude error. *)
Theorem encode_rejects_non_finite (lat lon : float) :
  (is_nan lat = true \/ is_infinity lat = true ->
   @encode float binary64 lat lon = Err (OutOfRange Latitude)) /\
  (between (-90) lat 90 = true ->
   is_nan lon = true \/ is_infinity lon = true ->
   @encode float binary64 lat lon = Err (OutOfRange Longitude)).
Proof.
  split.
  - intros Hx. rewrite encode_unfold.
    rewrite (between_non_finite (-90) 90 lat); [reflexivity| | |exact Hx];
      unfold small; lia.
  - intros Hlat Hx. rewrite encode_unfold, Hlat.
    rewrite (between_non_finite (-180) 180 lon); [reflexivity| | |exact Hx];
      unfold small; lia.
Qed.

Lemma encode_rejects_non_finite_witness :
  @encode float binary64 nan 0%float = Err (OutOfRange Latitude) /\
  @encode float binary64 0%float infinity = Err (OutOfRange Longitude).
Proof.
  split.
  - apply (proj1 (encode_rejects_non_finite nan 0%float)).
    left. reflexivity.
  - apply (proj2 (encode_rejects_non_finite 0%float infinity)).
    + reflexivity.
    + right. reflexivity.
Defined.

(** ** The decoded coordinate is a valid coordinate (binary64) *)

(** The sign given to a rounding is the sign of its result, and nothing
    else depends on it. *)
Lemma binary_round_aux_sign (s : bool) (mx ex : Z) (lx : location) :
  binary_round_aux prec emax s mx ex lx
  = match binary_round_aux prec emax false mx ex lx with
    | S754_zero _ => S754_zero s
    | S754_infinity _ => S754_infinity s
    | S754_nan => S754_nan
    | S754_finite _ m e => S754_finite s m e
    end.
Proof.
  unfold binary_round_aux.
  destruct (shr_fexp prec emax mx ex lx) as [mrs1 e1].
  destruct (shr_fexp prec emax _ e1 loc_Exact) as [mrs2 e2].
  destruct (shr_m mrs2) as [|m|m]; try reflexivity.
  destruct (e2 <=? emax - prec); reflexivity.
Qed.

Lemma binary_round_within (s : bool) (p : positive) (e c : Z) :
  -1074 <= e -> Zpos p * pw e <= c * pw 0 -> c < 2 ^ 53 ->
  match binary_round prec emax s p e with
  | S754_zero _ => True
  | S754_finite s' m e' => s' = s /\ Zpos m * pw e' <= c * pw 0
  | _ => False
  end.
Proof.
  intros He Hle Hc.
  pose proof (binary_round_upto p e c He Hle Hc) as R.
  unfold binary_round in *.
  destruct (shl_align p e _) as [mz ez].
  rewrite binary_round_aux_sign.
  destruct (binary_round_aux prec emax false (Z.pos mz) ez loc_Exact)
    as [s0|s0| |[|] m e0]; cbn [sf_upto] in R; try contradiction;
    try exact I.
  split; [reflexivity|exact R].
Qed.

(** [x - k] for [0 <= x <= b] and [k <= b]: between [-k] and [b - k]. *)
Lemma SFsub_within (x K : spec_float) (b k : Z) :
  valid_binary x = true -> valid_binary K = true ->
  0 < k <= b -> b < 2 ^ 53 ->
  sf_int k K -> sf_upto (b * pw 0) x ->
  sf_within (k * pw 0) ((b - k) * pw 0) (SF64sub x K).
Proof.
  intros Vx VK Hk Hb HK Hx.
  destruct (sf_int_pos k K ltac:(lia) HK VK) as (mK & eK & -> & HvK & RK).
  pose proof (pw_pos 0 ltac:(lia)) as P0.
  destruct x as [sx|sx| |[|] mx ex]; cbn [sf_upto] in Hx;
    try contradiction.
  - unfold SF64sub. cbn [SFsub sf_within negb]. lia.
  - pose proof (proj1 (valid_finite _ _ _ Vx)) as Rx.
    unfold SF64sub, SFsub.
    set (ez := Z.min ex eK).
    destruct (shl_align_val mx ex ez ltac:(lia) ltac:(lia)) as (Hv1 & _ & Hs1).
    destruct (shl_align_val mK eK ez ltac:(lia) ltac:(lia)) as (Hv2 & _ & Hs2).
    rewrite Hs1 in Hv1 by lia. rewrite Hs2 in Hv2 by lia.
    set (a1 := Zpos (fst (shl_align mx ex ez))) in *.
    set (a2 := Zpos (fst (shl_align mK eK ez))) in *.
    pose proof (pw_pos ez ltac:(lia)) as Pz.
    pose proof (pw_pos ex ltac:(lia)) as Px.
    cbn [cond_Zopp].
    assert (Hdiff : (a1 - a2) * pw ez = Zpos mx * pw ex - k * pw 0) by nia.
    destruct (a1 - a2) as [|p|p] eqn:Ez; cbn [binary_normalize].
    + exact I.
    + pose proof (binary_round_within false p ez (b - k) ltac:(lia)
                    ltac:(nia) ltac:(lia)) as R.
      destruct (binary_round prec emax false p ez) as [s0|s0| |s0 m0 e0];
        cbn [sf_within]; try contradiction; try exact I.
      destruct R as [-> R]. exact R.
    + assert (Hp : Zpos p * pw ez = k * pw 0 - Zpos mx * pw ex).
      { change (Zneg p) with (- Zpos p) in Hdiff. lia. }
      pose proof (binary_round_within true p ez k ltac:(lia)
                    ltac:(nia) ltac:(lia)) as R.
      destruct (binary_round prec emax true p ez) as [s0|s0| |s0 m0 e0];
        cbn [sf_within]; try contradiction; try exact I.
      destruct R as [-> R]. exact R.
Qed.

Lemma SFleb_finite_neg_of (m1 m2 : positive) (e1 e2 : Z) :
  valid_binary (S754_finite true m1 e1) = true ->
  valid_binary (S754_finite true m2 e2) = true ->
  Zpos m2 * pw e2 <= Zpos m1 * pw e1 ->
  SFleb (S754_finite true m1 e1) (S754_finite true m2 e2) = true.
Proof.
  intros V1 V2 Hle.
  assert (V1' : valid_binary (S754_finite false m1 e1) = true) by exact V1.
  assert (V2' : valid_binary (S754_finite false m2 e2) = true) by exact V2.
  apply (SFleb_finite_pos m2 m1 e2 e1 V2' V1') in Hle.
  revert Hle. unfold SFleb. cbn [SFcompare].
  rewrite (Z.compare_antisym e2 e1).
  destruct (e2 ?= e1); cbn [CompOpp]; try (intros; reflexivity);
    try discriminate.
  rewrite (Pos.compare_cont_antisym m1 m2 Eq). cbn [CompOpp].
  destruct (Pos.compare_cont Eq m2 m1); cbn [CompOpp]; auto.
Qed.

Lemma leb_of_sf_within (k b : Z) (Kn B x : spec_float) :
  0 < k -> 0 <= b -> sf_int (- k) Kn -> sf_int b B ->
  valid_binary Kn = true -> valid_binary B = true -> valid_binary x = true ->
  sf_within (k * pw 0) (b * pw 0) x ->
  SFleb Kn x = true /\ SFleb x B = true.
Proof.
  intros Hk Hb HK HB VK VB Vx Hx.
  pose proof (pw_pos 0 ltac:(lia)) as P0.
  destruct Kn as [[|]|sK| |sK mK eK]; cbn [sf_int] in HK;
    try contradiction; try lia.
  pose proof (proj1 (valid_finite _ _ _ VK)) as RK.
  pose proof (pw_pos eK ltac:(lia)) as PK.
  destruct sK; [|nia].
  destruct x as [sx|sx| |[|] mx ex]; cbn [sf_within] in Hx;
    try contradiction.
  - split; [reflexivity|].
    apply (leb_of_sf_upto b B (S754_zero sx) Hb HB VB Vx). exact I.
  - split.
    + apply SFleb_finite_neg_of; try assumption. nia.
    + destruct B as [[|]|sB| |[|] mB eB]; cbn [sf_int] in HB;
        try contradiction; try reflexivity.
      pose proof (proj1 (valid_finite _ _ _ VB)) as RB.
      pose proof (pw_pos eB ltac:(lia)). nia.
  - split; [reflexivity|].
    apply (leb_of_sf_upto b B _ Hb HB VB Vx). exact Hx.
Qed.

Lemma binary64_sub_range (x : float) (k b : Z) :
  0 < k <= b -> small b ->
  PrimFloat.leb (float_of_int 0) x = true ->
  PrimFloat.leb x (float_of_int b) = true ->
  PrimFloat.leb (float_of_int (- k)) (x - float_of_int k) = true /\
  PrimFloat.leb (x - float_of_int k) (float_of_int (b - k)) = true.
Proof.
  intros Hk Hs H0 H1. unfold small in Hs.
  pose proof (float_leb_upto x b ltac:(lia) Hs H0 H1) as Hx.
  rewrite !FloatAxioms.leb_spec.
  apply (leb_of_sf_within k (b - k)); try apply Prim2SF_valid; try lia.
  - apply float_of_int_rep. lia.
  - apply float_of_int_rep. lia.
  - rewrite FloatAxioms.sub_spec.
    apply SFsub_within; try apply Prim2SF_valid; try lia; try assumption.
    apply float_of_int_rep. lia.
Qed.

(** What [decode] computes from an integer up to [2^24 - 1] lies between
    [- o] and [o]. *)
Lemma dequantize_range (o k : Z) :
  0 < o < 2 ^ 50 -> 0 <= k <= 2 ^ 24 - 1 ->
  @between float binary64 (- o)
    (float_of_int k / float_of_int (2 ^ 24 - 1) * float_of_int (2 * o)
     - float_of_int o)%float o = true.
Proof.
  intros Ho Hk. apply between_true. cbn [num_le int binary64].
  assert (Ku : sf_upto ((1 * (2 ^ 24 - 1)) * pw 0)
                 (Prim2SF (float_of_int k)))
    by (apply float_int_upto; unfold small; lia).
  destruct (float_upto_leb (float_of_int k) (1 * (2 ^ 24 - 1)) ltac:(lia)
              ltac:(unfold small; lia) Ku) as [K0 K1].
  destruct (binary64_div_range (float_of_int k) (2 ^ 24 - 1) 1) as [P0 P1];
    try assumption; try (unfold small; lia).
  destruct (binary64_mul_range
              (float_of_int k / float_of_int (2 ^ 24 - 1))%float (2 * o) 1)
    as [Q0 Q1]; try assumption; try (unfold small; lia).
  destruct (binary64_sub_range _ o (1 * (2 * o)) ltac:(lia)
              ltac:(unfold small; lia) Q0 Q1) as [S0 S1].
  replace (1 * (2 * o) - o) with o in S1 by lia.
  split; assumption.
Qed.

(** X10.  On binary64 the round trip stays in range: for every valid
    coordinate, [decode(encode(lat, lon))] is again a coordinate with
    latitude in [-90, 90] and longitude in [-180, 180], so it can be
    encoded in turn without a range error. *)
Theorem roundtrip_in_range (lat lon : float) :
  between (-90) lat 90 = true -> between (-180) lon 180 = true ->
  exists (code code' : str) (lat' lon' : float),
    @encode float binary64 lat lon = Ok code /\
    @decode float binary64 code = Ok (lat', lon') /\
    between (-90) lat' 90 = true /\
    between (-180) lon' 180 = true /\
    @encode float binary64 lat' lon' = Ok code'.
Proof.
  intros Blat Blon.
  destruct (@encode_in_range float binary64 binary64_laws lat lon Blat Blon)
    as (a & b & _ & _ & Ra & Rb & He).
  pose proof (dequantize_range 90 a ltac:(lia) Ra) as Blat'.
  pose proof (dequantize_range 180 b ltac:(lia) Rb) as Blon'.
  change (2 * 90) with 180 in Blat'. change (2 * 180) with 360 in Blon'.
  destruct (@encode_in_range float binary64 binary64_laws _ _ Blat' Blon')
    as (a' & b' & _ & _ & _ & _ & He').
  eexists _, _, _, _. split; [exact He|]. split.
  - apply decode_digits; lia.
  - cbn [int num_add num_sub num_mul num_div binary64].
    split; [exact Blat'|]. split; [exact Blon'|exact He'].
Qed.

Lemma roundtrip_in_range_witness :
  exists (code code' : str) (lat' lon' : float),
    @encode float binary64 lat_near_boundary 180%float = Ok code /\
    @decode float binary64 code = Ok (lat', lon') /\
    between (-90) lat' 90 = true /\
    between (-180) lon' 180 = true /\
    @encode float binary64 lat' lon' = Ok code'.
Proof.
  apply (roundtrip_in_range lat_near_boundary 180%float); reflexivity.
Defined.

(** ** The two halves of an axis on binary64 *)

(** The integer [encode] floors to, against the exact value of its
    argument: [2 o k <= M (x + o) < 2 o (k + 1)] up to the roundings of
    the addition, the division and the multiplication. *)
Lemma quantize_binary64_err (o tau : Z) (x : float) (k : Z) :
  0 < o < 2 ^ 50 -> -1074 <= tau <= 900 ->
  2 * o * pw 0 < 2 ^ 53 * pw tau ->
  PrimFloat.leb (float_of_int (- o)) x = true ->
  PrimFloat.leb x (float_of_int o) = true ->
  float_floor ((x + float_of_int o) / float_of_int (2 * o)
               * float_of_int (2 ^ 24 - 1))%float = Some k ->
  let err := 3 * ((2 ^ 24 - 1) * pw tau)
             + 6 * ((2 ^ 24 - 1) * (o * pw (-52)))
             + 6 * (o * pw (-29)) in
  0 <= k <= 2 ^ 24 - 1 /\ sf_fin (Prim2SF x) /\
  2 * (o * (k * pw 0)) - err <= (2 ^ 24 - 1) * (fval x + o * pw 0)
  < 2 * (o * ((k + 1) * pw 0)) + err.
Proof.
  intros Ho Htau Hmag Hlo Hhi Hk err. subst err.
  assert (ER : pw (-29) = pw (-52) * 2 ^ 23) by (now rewrite <- pw_shift).
  assert (EP : pw 0 = pw (-52) * 2 ^ 52) by (now rewrite <- pw_shift).
  pose proof (pw_pos (-52) ltac:(lia)) as PE.
  pose proof (pw_pos 0 ltac:(lia)) as PP.
  pose proof (pw_pos tau ltac:(lia)) as PU.
  assert (PoP : 0 < o * pw 0) by (apply Z.mul_pos_pos; lia).
  destruct (binary64_add_range x o o) as [A0 A1];
    try assumption; try (unfold small; lia).
  destruct (binary64_add_err x o o tau) as [Fx A2];
    try assumption; try (unfold small; lia).
  replace (o + o) with (1 * (2 * o)) in A1 by lia.
  set (a := (x + float_of_int o)%float) in *.
  destruct (binary64_div_range a (2 * o) 1) as [B0 B1];
    try assumption; try (unfold small; lia).
  pose proof (binary64_div_err a (2 * o) 1 (-52)) as B2.
  specialize (B2 ltac:(lia) ltac:(lia) ltac:(unfold small; lia)
                 ltac:(unfold small; lia) ltac:(lia)
                 ltac:(rewrite EP; lia) A0 A1).
  set (b := (a / float_of_int (2 * o))%float) in *.
  destruct (binary64_mul_range b (2 ^ 24 - 1) 1) as [C0 C1];
    try assumption; try (unfold small; lia).
  pose proof (binary64_mul_err b (2 ^ 24 - 1) 1 (-29)) as C2.
  specialize (C2 ltac:(lia) ltac:(lia) ltac:(unfold small; lia)
                 ltac:(unfold small; lia) ltac:(lia)
                 ltac:(rewrite ER, EP; lia) B0 B1).
  set (c := (b * float_of_int (2 ^ 24 - 1))%float) in *.
  assert (Cu : sf_upto ((1 * (2 ^ 24 - 1)) * pw 0) (Prim2SF c))
    by (apply float_leb_upto; try assumption; unfold small; lia).
  destruct (floor_upto c (1 * (2 ^ 24 - 1)) ltac:(lia) Cu)
    as (k' & Hk' & Rk).
  rewrite Hk in Hk'. injection Hk' as <-.
  pose proof (floor_val c (1 * (2 ^ 24 - 1)) k Cu Hk) as F.
  split; [lia|]. split; [exact Fx|].
  change (2 ^ 24 - 1) with 16777215 in *.
  set (A := fval a) in *. set (B := fval b) in *. set (C := fval c) in *.
  set (X := fval x) in *.
  clearbody A B C X. clear - Ho PE PP PU A2 B2 C2 F.
  set (E := pw (-52)) in *. set (R := pw (-29)) in *.
  set (U := pw tau) in *. set (W := pw 0) in *.
  clearbody E R U W.
  assert (C3 : - (3 * (o * R)) <= o * C - 16777215 * (o * B)
               <= 3 * (o * R)) by nia.
  assert (F3 : o * (k * W) <= o * C < o * (k * W) + o * W) by nia.
  lia.
Qed.

(** The coordinate [decode] rebuilds from an integer, against the exact
    lower edge of the bucket: [M (x' + o) = 2 o k] up to the roundings of
    the division, the multiplication and the subtraction. *)
Lemma dequantize_binary64_err (o tau k : Z) :
  0 < o < 2 ^ 50 -> -1074 <= tau <= 900 ->
  2 * o * pw 0 < 2 ^ 53 * pw tau ->
  0 <= k <= 2 ^ 24 - 1 ->
  let x' := (float_of_int k / float_of_int (2 ^ 24 - 1)
             * float_of_int (2 * o) - float_of_int o)%float in
  let err := 6 * ((2 ^ 24 - 1) * pw tau)
             + 6 * ((2 ^ 24 - 1) * (o * pw (-52))) in
  sf_fin (Prim2SF x') /\
  - err <= (2 ^ 24 - 1) * (fval x' + o * pw 0) - 2 * (o * (k * pw 0))
  <= err.
Proof.
  intros Ho Htau Hmag Rk x' err. subst x' err.
  assert (EP : pw 0 = pw (-52) * 2 ^ 52) by (now rewrite <- pw_shift).
  pose proof (pw_pos (-52) ltac:(lia)) as PE.
  pose proof (pw_pos 0 ltac:(lia)) as PP.
  pose proof (pw_pos tau ltac:(lia)) as PU.
  assert (PoP : 0 < o * pw 0) by (apply Z.mul_pos_pos; lia).
  assert (Ku : sf_upto ((1 * (2 ^ 24 - 1)) * pw 0)
                 (Prim2SF (float_of_int k)))
    by (apply float_int_upto; unfold small; lia).
  destruct (float_upto_leb (float_of_int k) (1 * (2 ^ 24 - 1)) ltac:(lia)
              ltac:(unfold small; lia) Ku) as [K0 K1].
  pose proof (fval_int k ltac:(unfold small; lia)) as Kv.
  destruct (binary64_div_range (float_of_int k) (2 ^ 24 - 1) 1) as [P0 P1];
    try assumption; try (unfold small; lia).
  pose proof (binary64_div_err (float_of_int k) (2 ^ 24 - 1) 1 (-52)) as P2.
  specialize (P2 ltac:(lia) ltac:(lia) ltac:(unfold small; lia)
                 ltac:(unfold small; lia) ltac:(lia)
                 ltac:(rewrite EP; lia) K0 K1).
  set (p := (float_of_int k / float_of_int (2 ^ 24 - 1))%float) in *.
  destruct (binary64_mul_range p (2 * o) 1) as [Q0 Q1];
    try assumption; try (unfold small; lia).
  pose proof (binary64_mul_err p (2 * o) 1 tau) as Q2.
  specialize (Q2 ltac:(lia) ltac:(lia) ltac:(unfold small; lia)
                 ltac:(unfold small; lia) ltac:(lia) ltac:(lia) P0 P1).
  set (q := (p * float_of_int (2 * o))%float) in *.
  pose proof (binary64_sub_err q o (1 * (2 * o)) tau) as S2.
  specialize (S2 ltac:(lia) ltac:(lia) ltac:(unfold small; lia)
                 ltac:(unfold small; lia) ltac:(lia) ltac:(lia) ltac:(lia)
                 Q0 Q1).
  destruct S2 as [Fx' S2]. split; [exact Fx'|].
  rewrite Kv in P2.
  change (2 ^ 24 - 1) with 16777215 in *.
  set (P := fval p) in *. set (Qv := fval q) in *.
  set (X' := fval (q - float_of_int o)) in *.
  clearbody P Qv X'. clear - Ho PE PP PU P2 Q2 S2.
  set (E := pw (-52)) in *. set (U := pw tau) in *. set (W := pw 0) in *.
  clearbody E U W.
  assert (P3 : - (3 * (16777215 * (o * E)))
               <= 16777215 * (o * P) - o * (k * W)
               <= 3 * (16777215 * (o * E))) by nia.
  lia.
Qed.

(** The magnitudes of the two axes: the last place next to the span, and
    the total of the roundings against one bucket and against the slack
    [eps * 1e-12]. *)
Lemma axis_budget (o tau eps : Z) :
  (o = 90 /\ tau = -45 /\ eps = 1) \/ (o = 180 /\ tau = -44 /\ eps = 2) ->
  0 < o < 2 ^ 50 /\ -1074 <= tau <= 900 /\
  2 * o * pw 0 < 2 ^ 53 * pw tau /\
  9 * ((2 ^ 24 - 1) * pw tau) + 12 * ((2 ^ 24 - 1) * (o * pw (-52)))
  + 6 * (o * pw (-29)) < 2 * (o * pw 0) /\
  10 ^ 12 * (9 * ((2 ^ 24 - 1) * pw tau)
             + 12 * ((2 ^ 24 - 1) * (o * pw (-52)))
             + 6 * (o * pw (-29)))
  <= eps * (2 ^ 24 - 1) * pw 0.
Proof.
  intros Hc.
  assert (EU : pw tau = pw (-52) * (eps * 128)).
  { destruct Hc as [(_ & -> & ->)|(_ & -> & ->)].
    - change (-45) with (-52 + 7). now rewrite pw_shift.
    - change (-44) with (-52 + 8). now rewrite pw_shift. }
  assert (ER : pw (-29) = pw (-52) * 8388608)
    by (change (-29) with (-52 + 23); now rewrite pw_shift).
  assert (EP : pw 0 = pw (-52) * 4503599627370496)
    by (change 0 with (-52 + 52) at 1; now rewrite pw_shift).
  pose proof (pw_pos (-52) ltac:(lia)) as PE.
  rewrite EU, ER, EP. set (E := pw (-52)) in *. clearbody E.
  change (2 ^ 53) with 9007199254740992.
  change (2 ^ 24 - 1) with 16777215.
  change (10 ^ 12) with 1000000000000.
  change (2 ^ 50) with 1125899906842624.
  destruct Hc as [(-> & -> & ->)|(-> & -> & ->)]; lia.
Qed.

Lemma bucket_le_0 (d c W : Z) : 0 < W -> d * W <= c -> c < W -> d <= 0.
Proof. intros HW Hd Hc. nia. Qed.

(** ** Encoding again (binary64) *)

(** One axis: the decoded coordinate is floored to the same integer or to
    the one below. *)
Lemma axis_reencode (o tau eps : Z) (k : Z) :
  (o = 90 /\ tau = -45 /\ eps = 1) \/ (o = 180 /\ tau = -44 /\ eps = 2) ->
  0 <= k <= 2 ^ 24 - 1 ->
  exists k' : Z,
    float_floor
      (((float_of_int k / float_of_int (2 ^ 24 - 1)
         * float_of_int (2 * o) - float_of_int o) + float_of_int o)
       / float_of_int (2 * o) * float_of_int (2 ^ 24 - 1))%float = Some k' /\
    0 <= k' /\ k - 1 <= k' <= k.
Proof.
  intros Hc Rk.
  destruct (axis_budget o tau eps Hc) as (Ho & Ht & Hmag & Hbud & _).
  pose proof (dequantize_range o k Ho Rk) as Hb.
  destruct (dequantize_binary64_err o tau k Ho Ht Hmag Rk) as [_ Hd].
  set (x' := (float_of_int k / float_of_int (2 ^ 24 - 1)
              * float_of_int (2 * o) - float_of_int o)%float) in *.
  destruct (@scale_range float binary64 binary64_laws x' o (2 * o)
              (2 ^ 24 - 1)) as (k' & Hk' & Rk');
    try lia; [exact Hb|].
  cbn [num_floor num_add num_div num_mul int binary64] in Hk'.
  apply between_true in Hb. destruct Hb as [Hlo Hhi].
  cbn [num_le int binary64] in Hlo, Hhi.
  destruct (quantize_binary64_err o tau x' k' Ho Ht Hmag Hlo Hhi Hk')
    as (_ & _ & Hq).
  exists k'. split; [exact Hk'|]. split; [lia|].
  pose proof (pw_pos 0 ltac:(lia)) as PP.
  assert (PW : 0 < 2 * (o * pw 0)) by nia.
  set (X' := fval x') in *. clearbody X'.
  set (W := 2 * (o * pw 0)) in *.
  set (e1 := (2 ^ 24 - 1) * pw tau) in *.
  set (e2 := (2 ^ 24 - 1) * (o * pw (-52))) in *.
  set (e3 := o * pw (-29)) in *.
  assert (K1 : 2 * (o * (k * pw 0)) = k * W) by (unfold W; ring).
  assert (K2 : 2 * (o * (k' * pw 0)) = k' * W) by (unfold W; ring).
  assert (K3 : 2 * (o * ((k' + 1) * pw 0)) = k' * W + W) by (unfold W; ring).
  rewrite K1 in Hd. rewrite K2, K3 in Hq.
  clearbody W e1 e2 e3. split.
  - assert (H : (k - k' - 1) * W <= 9 * e1 + 12 * e2 + 6 * e3 - 1) by lia.
    pose proof (bucket_le_0 _ _ W PW H ltac:(lia)). lia.
  - assert (H : (k' - k) * W <= 9 * e1 + 12 * e2 + 6 * e3) by lia.
    pose proof (bucket_le_0 _ _ W PW H ltac:(lia)). lia.
Qed.

(** The two fields of a code [encode] built are read back. *)
Lemma code_fields (a b : Z) :
  0 <= a <= 2 ^ 24 - 1 -> 0 <= b <= 2 ^ 24 - 1 ->
  base29_to_int (firstn 5 (rev (digits 5 a) ++ rev (digits 5 b))) = Ok a /\
  base29_to_int (skipn 5 (rev (digits 5 a) ++ rev (digits 5 b))) = Ok b.
Proof.
  intros Ha Hb.
  assert (La : List.length (rev (digits 5 a)) = 5%nat)
    by (rewrite length_rev; apply digits_length).
  destruct (firstn_skipn_app 5 _ (rev (digits 5 b)) La) as [-> ->].
  rewrite !base29_to_int_digits, BASE_29, !Z.mod_small by lia.
  split; reflexivity.
Qed.

(** ** binary64 against exact arithmetic *)

Lemma Qfloor_scaled (N W : Z) (y : Q) :
  0 < W -> (y == inject_Z N / inject_Z W)%Q ->
  Qfloor y * W <= N < (Qfloor y + 1) * W.
Proof.
  intros HW Hy.
  assert (L : (inject_Z (Qfloor y) <= inject_Z N / inject_Z W)%Q).
  { eapply Qle_trans; [apply Qfloor_le|].
    apply Qle_lteq. right. exact Hy. }
  assert (U : (inject_Z N / inject_Z W < inject_Z (Qfloor y + 1))%Q).
  { eapply Qle_lt_trans; [|apply Qlt_floor].
    apply Qle_lteq. right. symmetry. exact Hy. }
  destruct W as [|w|w]; try lia.
  unfold Qle, Qdiv, Qinv, Qmult, inject_Z in L. cbn [Qnum Qden] in L.
  unfold Qlt, Qdiv, Qinv, Qmult, inject_Z in U. cbn [Qnum Qden] in U.
  rewrite !Pos.mul_1_l, !Z.mul_1_r in *. lia.
Qed.

(** The exact value [encode]'s formula floors, for a finite double. *)
Lemma quantize_exact_val (o : Z) (x : float) :
  0 < o -> sf_fin (Prim2SF x) ->
  ((float_to_Q x + inject_Z o) / inject_Z (2 * o) * inject_Z (2 ^ 24 - 1)
   == inject_Z ((2 ^ 24 - 1) * (fval x + o * pw 0))
      / inject_Z (2 * (o * pw 0)))%Q.
Proof.
  intros Ho Fx. rewrite (float_to_Q_val x Fx).
  pose proof (pw_pos 0 ltac:(lia)) as PP.
  rewrite !inject_Z_mult, inject_Z_plus, !inject_Z_mult.
  assert (H1 : ~ (inject_Z (pw 0) == 0)%Q).
  { intros E. unfold Qeq in E. cbn in E. lia. }
  assert (H2 : ~ (inject_Z o == 0)%Q).
  { intros E. unfold Qeq in E. cbn in E. lia. }
  field. repeat split; try assumption; discriminate.
Qed.

Lemma axis_near_exact (o tau eps : Z) (x : float) (k : Z) :
  (o = 90 /\ tau = -45 /\ eps = 1) \/ (o = 180 /\ tau = -44 /\ eps = 2) ->
  PrimFloat.leb (float_of_int (- o)) x = true ->
  PrimFloat.leb x (float_of_int o) = true ->
  float_floor ((x + float_of_int o) / float_of_int (2 * o)
               * float_of_int (2 ^ 24 - 1))%float = Some k ->
  -1 <= k - Qfloor ((float_to_Q x + inject_Z o) / inject_Z (2 * o)
                    * inject_Z (2 ^ 24 - 1)) <= 1.
Proof.
  intros Hc Hlo Hhi Hk.
  destruct (axis_budget o tau eps Hc) as (Ho & Ht & Hmag & Hbud & _).
  destruct (quantize_binary64_err o tau x k Ho Ht Hmag Hlo Hhi Hk)
    as (_ & Fx & Hq).
  pose proof (pw_pos 0 ltac:(lia)) as PP.
  assert (PW : 0 < 2 * (o * pw 0)) by nia.
  pose proof (Qfloor_scaled _ _ _ PW (quantize_exact_val o x ltac:(lia) Fx))
    as Hf.
  set (k' := Qfloor _) in *. clearbody k'.
  set (N := (2 ^ 24 - 1) * (fval x + o * pw 0)) in *. clearbody N.
  set (W := 2 * (o * pw 0)) in *.
  set (e1 := (2 ^ 24 - 1) * pw tau) in *.
  set (e2 := (2 ^ 24 - 1) * (o * pw (-52))) in *.
  set (e3 := o * pw (-29)) in *.
  assert (K2 : 2 * (o * (k * pw 0)) = k * W) by (unfold W; ring).
  assert (K3 : 2 * (o * ((k + 1) * pw 0)) = k * W + W) by (unfold W; ring).
  rewrite K2, K3 in Hq.
  assert (P1 : 0 <= e1).
  { unfold e1. pose proof (pw_pos tau ltac:(lia)). lia. }
  assert (P2 : 0 <= e2).
  { unfold e2. pose proof (pw_pos (-52) ltac:(lia)). nia. }
  assert (P3 : 0 <= e3).
  { unfold e3. pose proof (pw_pos (-29) ltac:(lia)). nia. }
  clearbody W e1 e2 e3. split.
  - assert (H : (k' - k - 1) * W <= 3 * e1 + 6 * e2 + 6 * e3 - 1) by lia.
    pose proof (bucket_le_0 _ _ W PW H ltac:(lia)). lia.
  - assert (H : (k - k' - 1) * W <= 3 * e1 + 6 * e2 + 6 * e3 - 1) by lia.
    pose proof (bucket_le_0 _ _ W PW H ltac:(lia)). lia.
Qed.

(** X11.  The integers [encode] computes on binary64 are those of the
    same formulas evaluated without rounding on the same doubles, or
    their neighbours: each differs from [floor((x + o) / (2 o) * (2^24 -
    1))] taken in exact arithmetic by at most one. *)
Theorem encode_bucket_near_exact (lat lon : float) :
  between (-90) lat 90 = true -> between (-180) lon 180 = true ->
  exists (latInt lonInt latExact lonExact : Z),
    @quantize float binary64 lat 90 180 = Ok latInt /\
    @quantize float binary64 lon 180 360 = Ok lonInt /\
    @quantize Q exact (float_to_Q lat) 90 180 = Ok latExact /\
    @quantize Q exact (float_to_Q lon) 180 360 = Ok lonExact /\
    -1 <= latInt - latExact <= 1 /\
    -1 <= lonInt - lonExact <= 1.
Proof.
  intros Blat Blon.
  destruct (@encode_in_range float binary64 binary64_laws lat lon Blat Blon)
    as (a & b & Qa & Qb & _ & _ & _).
  exists a, b. eexists _, _.
  split; [exact Qa|]. split; [exact Qb|].
  split; [reflexivity|]. split; [reflexivity|].
  apply quantize_floor in Qa, Qb.
  apply between_true in Blat, Blon.
  destruct Blat as [Llo Lhi]. destruct Blon as [Nlo Nhi].
  cbn [num_floor num_le num_add num_div num_mul int binary64]
    in Qa, Qb, Llo, Lhi, Nlo, Nhi.
  cbn [num_add num_div num_mul int exact].
  split.
  - exact (axis_near_exact 90 (-45) 1 lat a ltac:(left; auto) Llo Lhi Qa).
  - exact (axis_near_exact 180 (-44) 2 lon b ltac:(right; auto) Nlo Nhi Qb).
Qed.

Lemma encode_bucket_near_exact_witness :
  exists (latInt lonInt latExact lonExact : Z),
    @quantize float binary64 lat_near_boundary 90 180 = Ok latInt /\
    @quantize float binary64 0%float 180 360 = Ok lonInt /\
    @quantize Q exact (float_to_Q lat_near_boundary) 90 180 = Ok latExact /\
    @quantize Q exact (float_to_Q 0%float) 180 360 = Ok lonExact /\
    -1 <= latInt - latExact <= 1 /\
    -1 <= lonInt - lonExact <= 1.
Proof.
  apply (encode_bucket_near_exact lat_near_boundary 0%float); reflexivity.
Defined.

(** ** The decoded coordinate is not above the original (binary64) *)

Lemma Qle_scaled (d P n m : Z) :
  0 < P -> 0 < m -> m * d <= n * P ->
  (inject_Z d / inject_Z P <= inject_Z n / inject_Z m)%Q.
Proof.
  intros HP Hm Hd.
  destruct P as [|p|p]; try lia. destruct m as [|m|m]; try lia.
  unfold Qle, Qdiv, Qinv, Qmult, inject_Z. cbn [Qnum Qden].
  rewrite !Pos.mul_1_l, !Z.mul_1_r. lia.
Qed.

Lemma axis_not_above (o tau eps : Z) (x : float) (k : Z) :
  (o = 90 /\ tau = -45 /\ eps = 1) \/ (o = 180 /\ tau = -44 /\ eps = 2) ->
  PrimFloat.leb (float_of_int (- o)) x = true ->
  PrimFloat.leb x (float_of_int o) = true ->
  float_floor ((x + float_of_int o) / float_of_int (2 * o)
               * float_of_int (2 ^ 24 - 1))%float = Some k ->
  (float_to_Q (float_of_int k / float_of_int (2 ^ 24 - 1)
               * float_of_int (2 * o) - float_of_int o)%float
   - float_to_Q x
   <= inject_Z eps / inject_Z (10 ^ 12))%Q.
Proof.
  intros Hc Hlo Hhi Hk.
  destruct (axis_budget o tau eps Hc) as (Ho & Ht & Hmag & _ & Hbud).
  destruct (axis_err o tau x k Ho Ht Hmag Hlo Hhi Hk)
    as (_ & Fx & Fx' & _ & Hd).
  rewrite (float_to_Q_diff _ _ Fx Fx').
  set (d := fval _ - fval x) in *. clearbody d.
  pose proof (pw_pos 0 ltac:(lia)) as PP.
  apply Qle_scaled; [exact PP|reflexivity|].
  set (err := 9 * _ + 12 * _ + 6 * _) in *. clearbody err.
  change (2 ^ 24 - 1) with 16777215 in *.
  change (10 ^ 12) with 1000000000000 in *.
  assert (H1 : 16777215 * (1000000000000 * d) <= 16777215 * (eps * pw 0))
    by lia.
  lia.
Qed.

(** X12.  On binary64 the decoded coordinate is the south-west corner of
    its cell, up to rounding: for every valid coordinate,
    [decode(encode(lat, lon))] is not above the original by more than
    1e-12 degree of latitude and 2e-12 degree of longitude (it can be
    below it by a whole bucket). *)
Theorem roundtrip_not_above (lat lon : float) :
  between (-90) lat 90 = true -> between (-180) lon 180 = true ->
  exists (code : str) (lat' lon' : float),
    @encode float binary64 lat lon = Ok code /\
    @decode float binary64 code = Ok (lat', lon') /\
    (float_to_Q lat' - float_to_Q lat <= 1 # 1000000000000)%Q /\
    (float_to_Q lon' - float_to_Q lon <= 2 # 1000000000000)%Q.
Proof.
  intros Blat Blon.
  destruct (@encode_in_range float binary64 binary64_laws lat lon Blat Blon)
    as (latInt & lonInt & Qlat & Qlon & Rlat & Rlon & He).
  apply quantize_floor in Qlat, Qlon.
  apply between_true in Blat, Blon.
  destruct Blat as [Llo Lhi]. destruct Blon as [Nlo Nhi].
  cbn [num_floor num_le num_add num_div num_mul int binary64]
    in Qlat, Qlon, Llo, Lhi, Nlo, Nhi.
  eexists _, _, _. split; [exact He|]. split.
  - apply decode_digits; lia.
  - cbn [int num_add num_sub num_mul num_div binary64]. split.
    + exact (axis_not_above 90 (-45) 1 lat latInt
               ltac:(left; auto) Llo Lhi Qlat).
    + exact (axis_not_above 180 (-44) 2 lon lonInt
               ltac:(right; auto) Nlo Nhi Qlon).
Qed.

Lemma roundtrip_not_above_witness :
  exists (code : str) (lat' lon' : float),
    @encode float binary64 35.5%float 139.75%float = Ok code /\
    @decode float binary64 code = Ok (lat', lon') /\
    (float_to_Q lat' - float_to_Q 35.5%float <= 1 # 1000000000000)%Q /\
    (float_to_Q lon' - float_to_Q 139.75%float <= 2 # 1000000000000)%Q.
Proof.
  apply (roundtrip_not_above 35.5%float 139.75%float); reflexivity.
Defined.

(** ** What [calculate_error] measures (binary64) *)

(** What [calculate_error] does on a valid coordinate. *)
Lemma calculate_error_in_range {D : Type}
    (geodesic_meters : float * float -> float * float -> result D)
    (lat lon : float) :
  between (-90) lat 90 = true -> between (-180) lon 180 = true ->
  exists (a b : Z),
    0 <= a <= 2 ^ 24 - 1 /\ 0 <= b <= 2 ^ 24 - 1 /\
    quantize lat 90 180 = Ok a /\ quantize lon 180 360 = Ok b /\
    @encode float binary64 lat lon
    = Ok (rev (digits 5 a) ++ rev (digits 5 b)) /\
    @decode float binary64 (rev (digits 5 a) ++ rev (digits 5 b))
    = Ok ((float_of_int a / float_of_int (2 ^ 24 - 1) * float_of_int 180
           - float_of_int 90)%float,
          (float_of_int b / float_of_int (2 ^ 24 - 1) * float_of_int 360
           - float_of_int 180)%float) /\
    calculate_error geodesic_meters lat lon
    = geodesic_meters (lat, lon)
        ((float_of_int a / float_of_int (2 ^ 24 - 1) * float_of_int 180
          - float_of_int 90)%float,
         (float_of_int b / float_of_int (2 ^ 24 - 1) * float_of_int 360
          - float_of_int 180)%float).
Proof.
  intros Blat Blon.
  destruct (@encode_in_range float binary64 binary64_laws lat lon Blat Blon)
    as (a & b & Qa & Qb & Ra & Rb & He).
  pose proof (@decode_digits float binary64 a b ltac:(lia) ltac:(lia)) as Hd.
  cbn [int num_add num_sub num_mul num_div binary64] in Hd.
  exists a, b. repeat (split; [assumption|]).
  unfold calculate_error. rewrite He. cbn [bind]. rewrite Hd. reflexivity.
Qed.

(** X13.  On binary64, for a valid coordinate, [calculate_error] is the
    geodesic distance, whatever [geodesic] is, from the original to a
    point that is itself a valid coordinate and lies within one bucket
    and the rounding slack of the original on each axis; it raises only if
    [geodesic] does. *)
Theorem calculate_error_points {D : Type}
    (geodesic_meters : float * float -> float * float -> result D)
    (lat lon : float) :
  between (-90) lat 90 = true -> between (-180) lon 180 = true ->
  exists lat' lon' : float,
    calculate_error geodesic_meters lat lon
    = geodesic_meters (lat, lon) (lat', lon') /\
    between (-90) lat' 90 = true /\
    between (-180) lon' 180 = true /\
    (Qabs (float_to_Q lat' - float_to_Q lat)
     <= bucket 180 + (1 # 1000000000000))%Q /\
    (Qabs (float_to_Q lon' - float_to_Q lon)
     <= bucket 360 + (2 # 1000000000000))%Q.
Proof.
  intros Blat Blon.
  destruct (calculate_error_in_range geodesic_meters lat lon Blat Blon)
    as (a & b & Ra & Rb & Qa & Qb & _ & _ & Hc).
  eexists _, _. split; [exact Hc|].
  apply quantize_floor in Qa, Qb.
  apply between_true in Blat, Blon.
  destruct Blat as [Llo Lhi]. destruct Blon as [Nlo Nhi].
  cbn [num_floor num_le num_add num_div num_mul int binary64]
    in Qa, Qb, Llo, Lhi, Nlo, Nhi.
  split; [exact (dequantize_range 90 a ltac:(lia) Ra)|].
  split; [exact (dequantize_range 180 b ltac:(lia) Rb)|].
  split.
  - exact (axis_roundtrip 90 (-45) 1 lat a ltac:(left; auto) Llo Lhi Qa).
  - exact (axis_roundtrip 180 (-44) 2 lon b ltac:(right; auto) Nlo Nhi Qb).
Qed.

Lemma calculate_error_points_witness :
  exists lat' lon' : float,
    calculate_error
      (fun p q => Ok (PrimFloat.abs (fst p - fst q)%float))
      35.5%float 139.75%float
    = Ok (PrimFloat.abs (35.5 - lat')%float) /\
    between (-90) lat' 90 = true /\
    between (-180) lon' 180 = true /\
    (Qabs (float_to_Q lat' - float_to_Q 35.5%float)
     <= bucket 180 + (1 # 1000000000000))%Q /\
    (Qabs (float_to_Q lon' - float_to_Q 139.75%float)
     <= bucket 360 + (2 # 1000000000000))%Q.
Proof.
  apply (calculate_error_points
           (fun p q => Ok (PrimFloat.abs (fst p - fst q)%float))
           35.5%float 139.75%float); reflexivity.
Defined.

(** ** The command line *)

Section MainLaws.
Context {D : Type}.
Variable geodesic_meters : float * float -> float * float -> result D.
Variable is_ValueError : error -> bool.
Variable message : error -> str.
Variable format_2f : D -> str.
Variable format_float : float -> str.
Variable help : list str.

Let run : args float -> list str * outcome :=
  @main float binary64 D geodesic_meters is_ValueError message format_2f
    format_float help.

Lemma main_encode_Err (lat lon : float) (e : error) :
  @encode float binary64 lat lon = Err e ->
  run (Args_encode lat lon) = except_ValueError is_ValueError message [] e.
Proof. intros He. unfold run, main. now rewrite He. Qed.

Lemma main_encode_Ok (lat lon : float) (code : str) :
  @encode float binary64 lat lon = Ok code ->
  run (Args_encode lat lon)
  = match calculate_error geodesic_meters lat lon with
    | Ok err =>
        ([lit "Encoded Code: " ++ code;
          lit "Error: " ++ format_2f err ++ lit " Metor(s)"], Returns)
    | Err e =>
        except_ValueError is_ValueError message
          [lit "Encoded Code: " ++ code] e
    end.
Proof.
  intros He. unfold run, main. rewrite He.
  destruct (calculate_error _ _ _); reflexivity.
Qed.

Lemma main_decode_Err (code : str) (e : error) :
  @decode float binary64 code = Err e ->
  run (Args_decode code) = except_ValueError is_ValueError message [] e.
Proof. intros He. unfold run, main. now rewrite He. Qed.

Lemma main_decode_Ok (code : str) (lat lon : float) :
  @decode float binary64 code = Ok (lat, lon) ->
  run (Args_decode code)
  = ([lit "Decoded Coordinates:";
      lit "Lat: " ++ format_float lat;
      lit "Lon: " ++ format_float lon], Returns).
Proof. intros He. unfold run, main. now rewrite He. Qed.

(** X14.  The [encode] sub-command on binary64, whatever the two doubles.
    If a range check fails, [main] prints the one line [Error: ] followed
    by the message of that range error (the latitude's if both fail) and
    leaves with [sys.exit(1)]; no code is printed.  Otherwise it prints
    [Encoded Code: ] followed by the ten-symbol code, then calls
    [geodesic] on the original and the decoded point: if that returns,
    [main] prints the [Error: ... Metor(s)] line and returns; if it
    raises, the exception is handled after the code line was printed. *)
Theorem main_encode (lat lon : float) :
  ValueError_class is_ValueError ->
  (exists f : field,
     (f = Latitude <-> between (-90) lat 90 = false) /\
     @encode float binary64 lat lon = Err (OutOfRange f) /\
     run (Args_encode lat lon)
     = ([lit "Error: " ++ message (OutOfRange f)], Exits 1)) \/
  (exists (code : str) (lat' lon' : float),
     between (-90) lat 90 = true /\ between (-180) lon 180 = true /\
     @encode float binary64 lat lon = Ok code /\
     List.length code = 10%nat /\
     @decode float binary64 code = Ok (lat', lon') /\
     run (Args_encode lat lon)
     = match geodesic_meters (lat, lon) (lat', lon') with
       | Ok err =>
           ([lit "Encoded Code: " ++ code;
             lit "Error: " ++ format_2f err ++ lit " Metor(s)"], Returns)
       | Err e =>
           except_ValueError is_ValueError message
             [lit "Encoded Code: " ++ code] e
       end).
Proof.
  intros (Hrange & _).
  destruct (between (-90) lat 90) eqn:Blat.
  - destruct (between (-180) lon 180) eqn:Blon.
    + right.
      destruct (calculate_error_in_range geodesic_meters lat lon Blat Blon)
        as (a & b & _ & _ & _ & _ & He & Hd & Hc).
      eexists _, _, _. split; [reflexivity|]. split; [reflexivity|].
      split; [exact He|]. split.
      { rewrite length_app, !length_rev, !digits_length. reflexivity. }
      split; [exact Hd|].
      rewrite (main_encode_Ok _ _ _ He), Hc. reflexivity.
    + left. exists Longitude. split; [split; discriminate|].
      assert (He : @encode float binary64 lat lon
                   = Err (OutOfRange Longitude))
        by (rewrite encode_unfold, Blat, Blon; reflexivity).
      split; [exact He|]. rewrite (main_encode_Err _ _ _ He).
      unfold except_ValueError. rewrite Hrange. reflexivity.
  - left. exists Latitude. split; [split; reflexivity|].
    assert (He : @encode float binary64 lat lon
                 = Err (OutOfRange Latitude))
      by (rewrite encode_unfold, Blat; reflexivity).
    split; [exact He|]. rewrite (main_encode_Err _ _ _ He).
    unfold except_ValueError. rewrite Hrange. reflexivity.
Qed.

(** X15.  The [decode] sub-command, whatever the string.  A string of
    ten symbols of the alphabet is decoded and [main] prints the three
    lines [Decoded Coordinates:], [Lat: ...], [Lon: ...] and returns,
    without checking that the coordinates are in range; any other string
    makes it print the one line [Error: ] followed by the message of the
    [ValueError] and leave with [sys.exit(1)]. *)
Theorem main_decode (code : str) :
  ValueError_class is_ValueError ->
  (exists lat lon : float,
     List.length code = 10%nat /\ in_alphabet code /\
     @decode float binary64 code = Ok (lat, lon) /\
     run (Args_decode code)
     = ([lit "Decoded Coordinates:";
         lit "Lat: " ++ format_float lat;
         lit "Lon: " ++ format_float lon], Returns)) \/
  (exists e : error,
     (List.length code <> 10%nat \/ ~ in_alphabet code) /\
     @decode float binary64 code = Err e /\
     run (Args_decode code) = ([lit "Error: " ++ message e], Exits 1)).
Proof.
  intros (_ & Hlen & Hsym & _).
  destruct (Nat.eq_dec (List.length code) 10) as [Hl|Hl].
  - destruct (decode_ten_cases (F := float) code Hl)
      as [[Ha [[lat lon] Hp]]|(c & Hin & Hn & He)].
    + left. exists lat, lon. repeat (split; [assumption|]).
      now apply main_decode_Ok.
    + right. exists (InvalidSymbol c). split.
      * right. intros Ha. apply Hn.
        exact (proj1 (Forall_forall _ _) Ha c Hin).
      * split; [exact He|]. rewrite (main_decode_Err _ _ He).
        unfold except_ValueError. rewrite Hsym. reflexivity.
  - right. exists InvalidLength. split; [now left|].
    pose proof (decode_wrong_length (F := float) code Hl) as He.
    split; [exact He|]. rewrite (main_decode_Err _ _ He).
    unfold except_ValueError. rewrite Hlen. reflexivity.
Qed.

(** X16.  On binary64 [main] ends in one of two ways, whatever its
    arguments, as long as [geodesic] raises nothing but [ValueError]s: it
    returns, or it leaves with [sys.exit(1)].  No exception of [encode],
    [decode] or [calculate_error] escapes it, and without a sub-command it
    prints the help and leaves with status 1. *)
Theorem main_exit_status (a : args float) :
  ValueError_class is_ValueError ->
  (forall (p q : float * float) (e : error),
     geodesic_meters p q = Err e -> is_ValueError e = true) ->
  (snd (run a) = Returns \/ snd (run a) = Exits 1) /\
  (run Args_none = (help, Exits 1)).
Proof.
  intros (Hrange & Hlen & Hsym & _) Hg. split; [|reflexivity].
  destruct a as [lat lon|code|].
  - destruct (@encode float binary64 lat lon) as [code|e] eqn:He.
    + rewrite (main_encode_Ok _ _ _ He).
      destruct (calculate_error geodesic_meters lat lon) as [d|e] eqn:Hc.
      * left. reflexivity.
      * right. unfold except_ValueError.
        assert (Hv : is_ValueError e = true).
        { destruct (between (-90) lat 90) eqn:Blat;
            [destruct (between (-180) lon 180) eqn:Blon|];
            try (rewrite encode_unfold, Blat, ?Blon in He;
                 cbn [negb] in He; discriminate).
          destruct (calculate_error_in_range geodesic_meters lat lon
                      Blat Blon) as (a & b & _ & _ & _ & _ & _ & _ & Hc').
          rewrite Hc' in Hc. exact (Hg _ _ _ Hc). }
        rewrite Hv. reflexivity.
    + right. rewrite (main_encode_Err _ _ _ He). unfold except_ValueError.
      destruct (between (-90) lat 90) eqn:Blat;
        [destruct (between (-180) lon 180) eqn:Blon|].
      * destruct (@encode_in_range float binary64 binary64_laws
                    lat lon Blat Blon) as (a & b & _ & _ & _ & _ & Hok).
        congruence.
      * rewrite encode_unfold, Blat, Blon in He. cbn [negb] in He.
        injection He as <-. rewrite Hrange. reflexivity.
      * rewrite encode_unfold, Blat in He. cbn [negb] in He.
        injection He as <-. rewrite Hrange. reflexivity.
  - destruct (@decode float binary64 code) as [[lat lon]|e] eqn:Hd.
    + left. rewrite (main_decode_Ok _ _ _ Hd). reflexivity.
    + right. rewrite (main_decode_Err _ _ Hd). unfold except_ValueError.
      destruct (Nat.eq_dec (List.length code) 10) as [Hl|Hl].
      * destruct (decode_ten_cases (F := float) code Hl)
          as [[_ [p Hp]]|(c & _ & _ & He)]; [congruence|].
        rewrite Hd in He. injection He as ->. rewrite Hsym. reflexivity.
      * rewrite (decode_wrong_length (F := float) code Hl) in Hd.
        injection Hd as <-. rewrite Hlen. reflexivity.
  - right. reflexivity.
Qed.
End MainLaws.

Lemma main_encode_witness :
  @main float binary64 float
    (fun p q => Ok (PrimFloat.abs (fst p - fst q)%float))
    (fun e => match e with KeyError _ | NotFinite => false | _ => true end)
    (fun _ => lit "ValueError") (fun _ => lit "0.00") (fun _ => lit "0.0")
    [lit "usage"] (Args_encode 91%float 0%float)
  = ([lit "Error: ValueError"], Exits 1).
Proof.
  destruct (main_encode
              (fun p q => Ok (PrimFloat.abs (fst p - fst q)%float))
              (fun e => match e with
                        | KeyError _ | NotFinite => false
                        | _ => true
                        end)
              (fun _ => lit "ValueError") (fun _ => lit "0.00")
              (fun _ => lit "0.0") [lit "usage"] 91%float 0%float)
    as [(f & _ & _ & Hr)|(code & lat' & lon' & Blat & _)].
  - repeat split; intros; reflexivity.
  - exact Hr.
  - vm_compute in Blat. discriminate.
Defined.

Lemma main_decode_witness :
  exists lat lon : float,
    @main float binary64 float
      (fun p q => Ok (PrimFloat.abs (fst p - fst q)%float))
      (fun e => match e with KeyError _ | NotFinite => false | _ => true end)
      (fun _ => lit "ValueError") (fun _ => lit "0.00") (fun _ => lit "0.0")
      [lit "usage"] (Args_decode (lit "3X7DW3X7DW"))
    = ([lit "Decoded Coordinates:"; lit "Lat: 0.0"; lit "Lon: 0.0"],
       Returns) /\
    @decode float binary64 (lit "3X7DW3X7DW") = Ok (lat, lon).
Proof.
  destruct (main_decode
              (fun p q => Ok (PrimFloat.abs (fst p - fst q)%float))
              (fun e => match e with
                        | KeyError _ | NotFinite => false
                        | _ => true
                        end)
              (fun _ => lit "ValueError") (fun _ => lit "0.00")
              (fun _ => lit "0.0") [lit "usage"] (lit "3X7DW3X7DW"))
    as [(lat & lon & _ & _ & Hd & Hr)|(e & _ & He & _)].
  - repeat split; intros; reflexivity.
  - exists lat, lon. split; [exact Hr|exact Hd].
  - vm_compute in He. discriminate.
Defined.

Lemma main_exit_status_witness :
  snd (@main float binary64 float
         (fun p q => Ok (PrimFloat.abs (fst p - fst q)%float))
         (fun e => match e with
                   | KeyError _ | NotFinite => false
                   | _ => true
                   end)
         (fun _ => lit "ValueError") (fun _ => lit "0.00")
         (fun _ => lit "0.0") [lit "usage"]
         (Args_decode (lit "3X7DW"))) = Exits 1.
Proof.
  destruct (main_exit_status
              (fun p q => Ok (PrimFloat.abs (fst p - fst q)%float))
              (fun e => match e with
                        | KeyError _ | NotFinite => false
                        | _ => true
                        end)
              (fun _ => lit "ValueError") (fun _ => lit "0.00")
              (fun _ => lit "0.0") [lit "usage"]
              (Args_decode (lit "3X7DW"))) as [[Hr|Hr] _].
  - repeat split; intros; reflexivity.
  - intros p q e He. discriminate.
  - vm_compute in Hr. discriminate.
  - exact Hr.
Defined.

(** ** Which codes name a coordinate *)

(** A double above an integer is not [<=] it. *)
Lemma float_above_not_leb (x : float) (c : Z) :
  0 < c -> small c -> sf_fin (Prim2SF x) -> c * pw 0 < fval x ->
  PrimFloat.leb x (float_of_int c) = false.
Proof.
  intros Hc Hs Fx Hx. rewrite FloatAxioms.leb_spec.
  pose proof (Prim2SF_valid x) as Vx.
  pose proof (Prim2SF_valid (float_of_int c)) as Vc.
  pose proof (float_of_int_rep c Hs) as Rc.
  destruct (sf_int_pos c _ Hc Rc Vc) as (mc & ec & Ec & Hvc & _).
  rewrite Ec in *. unfold fval in Hx.
  pose proof (pw_pos 0 ltac:(lia)) as PP.
  destruct (Prim2SF x) as [s|s| |s m e]; cbn [sf_fin sval] in *;
    try contradiction; try nia.
  pose proof (proj1 (valid_finite _ _ _ Vx)) as Rx.
  pose proof (pw_pos e ltac:(lia)) as Pe.
  destruct s; [nia|].
  destruct (SFleb (S754_finite false m e) (S754_finite false mc ec)) eqn:E;
    [|reflexivity].
  apply SFleb_finite_pos in E; try assumption. lia.
Qed.

(** What [decode] computes from an integer above [2^24 - 1], up to twice
    as large: not below [- o], and above [o]. *)
Lemma dequantize_above (o tau : Z) (k : Z) :
  0 < o < 2 ^ 50 -> -1074 <= tau <= 900 ->
  4 * o * pw 0 < 2 ^ 53 * pw tau ->
  6 * ((2 ^ 24 - 1) * (o * pw (-51))) + 6 * ((2 ^ 24 - 1) * pw tau)
  < 2 * (o * pw 0) ->
  0 <= k <= 2 * (2 ^ 24 - 1) ->
  let x' := (float_of_int k / float_of_int (2 ^ 24 - 1)
             * float_of_int (2 * o) - float_of_int o)%float in
  PrimFloat.leb (float_of_int (- o)) x' = true /\
  (2 ^ 24 - 1 < k -> PrimFloat.leb x' (float_of_int o) = false).
Proof.
  intros Ho Htau Hmag Hbud Rk x'. subst x'.
  assert (EP : pw 0 = pw (-51) * 2 ^ 51) by (now rewrite <- pw_shift).
  pose proof (pw_pos (-51) ltac:(lia)) as PE.
  pose proof (pw_pos 0 ltac:(lia)) as PP.
  pose proof (pw_pos tau ltac:(lia)) as PU.
  assert (PoP : 0 < o * pw 0) by (apply Z.mul_pos_pos; lia).
  assert (Ku : sf_upto ((2 * (2 ^ 24 - 1)) * pw 0)
                 (Prim2SF (float_of_int k)))
    by (apply float_int_upto; unfold small; lia).
  destruct (float_upto_leb (float_of_int k) (2 * (2 ^ 24 - 1)) ltac:(lia)
              ltac:(unfold small; lia) Ku) as [K0 K1].
  pose proof (fval_int k ltac:(unfold small; lia)) as Kv.
  destruct (binary64_div_range (float_of_int k) (2 ^ 24 - 1) 2) as [P0 P1];
    try assumption; try (unfold small; lia).
  pose proof (binary64_div_err (float_of_int k) (2 ^ 24 - 1) 2 (-51)) as P2.
  specialize (P2 ltac:(lia) ltac:(lia) ltac:(unfold small; lia)
                 ltac:(unfold small; lia) ltac:(lia)
                 ltac:(rewrite EP; lia) K0 K1).
  set (p := (float_of_int k / float_of_int (2 ^ 24 - 1))%float) in *.
  destruct (binary64_mul_range p (2 * o) 2) as [Q0 Q1];
    try assumption; try (unfold small; lia).
  pose proof (binary64_mul_err p (2 * o) 2 tau) as Q2.
  specialize (Q2 ltac:(lia) ltac:(lia) ltac:(unfold small; lia)
                 ltac:(unfold small; lia) ltac:(lia) ltac:(lia) P0 P1).
  set (q := (p * float_of_int (2 * o))%float) in *.
  destruct (binary64_sub_range q o (2 * (2 * o)) ltac:(lia)
              ltac:(unfold small; lia) Q0 Q1) as [S0 _].
  split; [exact S0|]. intros Hk.
  pose proof (binary64_sub_err q o (2 * (2 * o)) tau) as S2.
  specialize (S2 ltac:(lia) ltac:(lia) ltac:(unfold small; lia)
                 ltac:(unfold small; lia) ltac:(lia) ltac:(lia) ltac:(lia)
                 Q0 Q1).
  destruct S2 as [Fx' S2].
  apply float_above_not_leb; [lia|unfold small; lia|exact Fx'|].
  rewrite Kv in P2.
  change (2 ^ 24 - 1) with 16777215 in *.
  set (P := fval p) in *. set (Qv := fval q) in *.
  set (X' := fval (q - float_of_int o)) in *.
  clearbody P Qv X'. clear - Ho PE PP PU P2 Q2 S2 Hbud Hk.
  set (E := pw (-51)) in *. set (U := pw tau) in *. set (W := pw 0) in *.
  clearbody E U W.
  assert (P3 : - (3 * (16777215 * (o * E)))
               <= 16777215 * (o * P) - o * (k * W)) by nia.
  assert (K3 : 16777216 * (o * W) <= o * (k * W)) by nia.
  assert (H : 16777215 * (o * W) < 16777215 * X') by lia.
  lia.
Qed.

Lemma axis_budget_above (o tau : Z) :
  (o = 90 /\ tau = -44) \/ (o = 180 /\ tau = -43) ->
  0 < o < 2 ^ 50 /\ -1074 <= tau <= 900 /\
  4 * o * pw 0 < 2 ^ 53 * pw tau /\
  6 * ((2 ^ 24 - 1) * (o * pw (-51))) + 6 * ((2 ^ 24 - 1) * pw tau)
  < 2 * (o * pw 0).
Proof.
  intros Hc.
  assert (EU : pw tau = pw (-51) * (o / 90 * 128)).
  { destruct Hc as [(-> & ->)|(-> & ->)].
    - change (-44) with (-51 + 7). now rewrite pw_shift.
    - change (-43) with (-51 + 8). now rewrite pw_shift. }
  assert (EP : pw 0 = pw (-51) * 2251799813685248)
    by (change 0 with (-51 + 51) at 1; now rewrite pw_shift).
  pose proof (pw_pos (-51) ltac:(lia)) as PE.
  rewrite EU, EP. set (E := pw (-51)) in *. clearbody E.
  change (2 ^ 53) with 9007199254740992.
  change (2 ^ 24 - 1) with 16777215.
  change (2 ^ 50) with 1125899906842624.
  destruct Hc as [(-> & ->)|(-> & ->)];
    [change (90 / 90) with 1|change (180 / 90) with 2]; lia.
Qed.

Lemma field_range (s : str) (n : Z) :
  List.length s = 5%nat -> base29_to_int s = Ok n ->
  0 <= n <= 2 * (2 ^ 24 - 1).
Proof.
  intros Hl Hn. destruct (base29_to_int_Ok_digits s n Hn) as [Hr _].
  rewrite Hl, BASE_29 in Hr. change (29 ^ Z.of_nat 5) with 20511149 in Hr.
  lia.
Qed.

(** X17.  On binary64, a string of ten symbols of the alphabet decodes
    to a latitude in [-90, 90] exactly when its first five symbols read as
    an integer of at most [2^24 - 1], and to a longitude in [-180, 180]
    exactly when its last five do; a larger integer gives a coordinate
    above 90 or 180, which [decode] returns all the same. *)
Theorem decode_in_range_iff (code : str) (a b : Z) :
  List.length code = 10%nat ->
  base29_to_int (firstn 5 code) = Ok a ->
  base29_to_int (skipn 5 code) = Ok b ->
  exists lat lon : float,
    @decode float binary64 code = Ok (lat, lon) /\
    (between (-90) lat 90 = true <-> a <= 2 ^ 24 - 1) /\
    (between (-180) lon 180 = true <-> b <= 2 ^ 24 - 1).
Proof.
  intros Hl Ha Hb.
  assert (La : List.length (firstn 5 code) = 5%nat)
    by (rewrite length_firstn; lia).
  assert (Lb : List.length (skipn 5 code) = 5%nat)
    by (rewrite length_skipn; lia).
  pose proof (field_range _ _ La Ha) as Ra.
  pose proof (field_range _ _ Lb Hb) as Rb.
  eexists _, _. split.
  { unfold decode. rewrite Hl. cbn [Nat.eqb negb]. rewrite Ha, Hb.
    cbn [bind]. reflexivity. }
  cbn [int num_add num_sub num_mul num_div binary64].
  destruct (axis_budget_above 90 (-44) ltac:(left; auto))
    as (Ho1 & Ht1 & Hm1 & Hb1).
  destruct (axis_budget_above 180 (-43) ltac:(right; auto))
    as (Ho2 & Ht2 & Hm2 & Hb2).
  destruct (dequantize_above 90 (-44) a Ho1 Ht1 Hm1 Hb1 Ra) as [A0 A1].
  destruct (dequantize_above 180 (-43) b Ho2 Ht2 Hm2 Hb2 Rb) as [B0 B1].
  change (2 * 90) with 180 in *. change (2 * 180) with 360 in *.
  split.
  - split.
    + intros Hbt. destruct (Z_le_gt_dec a (2 ^ 24 - 1)) as [H|H]; [exact H|].
      apply between_true in Hbt. destruct Hbt as [_ Hhi].
      cbn [num_le int binary64] in Hhi.
      rewrite (A1 ltac:(lia)) in Hhi. discriminate.
    + intros H. exact (dequantize_range 90 a ltac:(lia) ltac:(lia)).
  - split.
    + intros Hbt. destruct (Z_le_gt_dec b (2 ^ 24 - 1)) as [H|H]; [exact H|].
      apply between_true in Hbt. destruct Hbt as [_ Hhi].
      cbn [num_le int binary64] in Hhi.
      rewrite (B1 ltac:(lia)) in Hhi. discriminate.
    + intros H. exact (dequantize_range 180 b ltac:(lia) ltac:(lia)).
Qed.

Lemma decode_in_range_iff_witness :
  exists lat lon : float,
    @decode float binary64 (lit "9999AAAAAB") = Ok (lat, lon) /\
    (between (-90) lat 90 = true <-> 20511120 <= 2 ^ 24 - 1) /\
    (between (-180) lon 180 = true <-> 1 <= 2 ^ 24 - 1).
Proof.
  apply (decode_in_range_iff (lit "9999AAAAAB") 20511120 1); reflexivity.
Defined.

(** ** The leading symbol of a field *)

Lemma leading_digit (n : Z) :
  0 <= n <= 2 ^ 24 - 1 ->
  exists (c : ascii) (rest : str),
    rev (digits 5 n) = c :: rest /\ List.length rest = 4%nat /\
    In c (firstn 24 CHARSET).
Proof.
  intros Hn. cbn [digits rev app]. rewrite BASE_29.
  eexists _, _. split; [reflexivity|]. split; [reflexivity|].
  set (i := n / 29 / 29 / 29 / 29).
  assert (Hi : 0 <= i <= 23).
  { unfold i. change (2 ^ 24 - 1) with 16777215 in Hn.
    assert (H1 : 0 <= n / 29 <= 578524)
      by (split; [apply Z.div_pos; lia
                 |apply Z.lt_succ_r, Z.div_lt_upper_bound; lia]).
    assert (H2 : 0 <= n / 29 / 29 <= 19949)
      by (split; [apply Z.div_pos; lia
                 |apply Z.lt_succ_r, Z.div_lt_upper_bound; lia]).
    assert (H3 : 0 <= n / 29 / 29 / 29 <= 687)
      by (split; [apply Z.div_pos; lia
                 |apply Z.lt_succ_r, Z.div_lt_upper_bound; lia]).
    split; [apply Z.div_pos; lia
           |apply Z.lt_succ_r, Z.div_lt_upper_bound; lia]. }
  rewrite Z.mod_small by lia.
  assert (Hin : In i (map Z.of_nat (seq 0 24))).
  { apply in_map_iff. exists (Z.to_nat i). split; [lia|].
    apply in_seq. lia. }
  clearbody i. clear Hi. revert i Hin. apply Forall_forall.
  repeat (constructor; [vm_compute; tauto|]). constructor.
Qed.

(** X18.  The first and the sixth symbol of a code that [encode] returns
    are among the first 24 symbols of the alphabet ([A] to [3]): the
    integers are at most [2^24 - 1 < 24 * 29^4], so [4], [6], [7], [8]
    and [9] never lead a field. *)
Theorem encode_leading_symbols {F : Type} `{NumLaws F} (lat lon : F) :
  between (-90) lat 90 = true -> between (-180) lon 180 = true ->
  exists (code : str) (c1 c6 : ascii),
    encode lat lon = Ok code /\
    nth_error code 0 = Some c1 /\ nth_error code 5 = Some c6 /\
    In c1 (firstn 24 CHARSET) /\ In c6 (firstn 24 CHARSET).
Proof.
  intros Blat Blon.
  destruct (encode_in_range lat lon Blat Blon)
    as (a & b & _ & _ & Ra & Rb & He).
  destruct (leading_digit a Ra) as (c1 & r1 & E1 & L1 & I1).
  destruct (leading_digit b Rb) as (c6 & r6 & E6 & L6 & I6).
  exists (rev (digits 5 a) ++ rev (digits 5 b)), c1, c6.
  split; [exact He|]. rewrite E1, E6.
  split; [reflexivity|]. split; [|split; assumption].
  destruct r1 as [|x1 [|x2 [|x3 [|x4 [|x5 r]]]]]; try discriminate.
  reflexivity.
Qed.

Lemma encode_leading_symbols_witness :
  exists (code : str) (c1 c6 : ascii),
    @encode float binary64 90%float 180%float = Ok code /\
    nth_error code 0 = Some c1 /\ nth_error code 5 = Some c6 /\
    In c1 (firstn 24 CHARSET) /\ In c6 (firstn 24 CHARSET).
Proof.
  apply (@encode_leading_symbols float binary64 binary64_laws
           90%float 180%float); reflexivity.
Defined.

(** ** The two dictionaries *)

Lemma dict_get_Z_Some_In {V : Type} (d : @dict Z V) (k : Z) (v : V) :
  dict_get Z.eqb d k = Some v -> In (k, v) d.
Proof.
  induction d as [|[k' v'] d IH]; cbn [dict_get]; [discriminate|].
  destruct (Z.eqb k k') eqn:E.
  - apply Z.eqb_eq in E. intros [= ->]. subst. now left.
  - intros Hd. right. now apply IH.
Qed.

(** X19.  The alphabet has 29 symbols, all different, and the two
    dictionaries built from it are inverse of each other:
    [INDEX_TO_CHAR[i]] is [c] exactly when [CHAR_TO_INDEX[c]] is [i], and
    the keys of [INDEX_TO_CHAR] are the integers [0 .. 28]. *)
Theorem alphabet_bijection :
  BASE = 29 /\ NoDup CHARSET /\
  (forall (i : Z) (c : ascii),
     dict_get Z.eqb INDEX_TO_CHAR i = Some c <->
     dict_get Ascii.eqb CHAR_TO_INDEX c = Some i) /\
  (forall i : Z,
     (exists c : ascii, dict_get Z.eqb INDEX_TO_CHAR i = Some c) <->
     0 <= i < 29).
Proof.
  split; [reflexivity|]. split; [exact CHARSET_NoDup|].
  assert (Hkey : forall (i : Z) (c : ascii),
             dict_get Z.eqb INDEX_TO_CHAR i = Some c ->
             0 <= i < 29 /\ dict_get Ascii.eqb CHAR_TO_INDEX c = Some i).
  { intros i c Hi. apply dict_get_Z_Some_In in Hi. vm_compute in Hi.
    repeat (destruct Hi as [Hi|Hi];
            [injection Hi as <- <-; split; [lia|reflexivity]|]).
    destruct Hi. }
  split.
  - intros i c. split.
    + intros Hi. apply (Hkey i c Hi).
    + intros Hc.
      pose proof (CHAR_TO_INDEX_range c i Hc) as Hr.
      pose proof (CHAR_TO_INDEX_digit c i Hc) as Hd.
      destruct (INDEX_TO_CHAR_digit i Hr) as (Hi & _). now rewrite <- Hd.
  - intros i. split.
    + intros [c Hi]. apply (Hkey i c Hi).
    + intros Hr. exists (digit i).
      apply INDEX_TO_CHAR_digit. rewrite BASE_29. exact Hr.
Qed.

(** ** From a code to a coordinate and back (binary64) *)

(** X20.  On binary64, a string of ten symbols of the alphabet whose two
    fields read as integers of at most [2^24 - 1] decodes to a coordinate
    that [encode] accepts, and the code of that coordinate has, field by
    field, the same integer or the one just below it: [encode(decode(c))]
    is [c] or names the cell to its south or west. *)
Theorem decode_encode_bucket (code : str) (a b : Z) :
  List.length code = 10%nat ->
  base29_to_int (firstn 5 code) = Ok a -> a <= 2 ^ 24 - 1 ->
  base29_to_int (skipn 5 code) = Ok b -> b <= 2 ^ 24 - 1 ->
  exists (lat lon : float) (code' : str) (a' b' : Z),
    @decode float binary64 code = Ok (lat, lon) /\
    @encode float binary64 lat lon = Ok code' /\
    base29_to_int (firstn 5 code') = Ok a' /\
    base29_to_int (skipn 5 code') = Ok b' /\
    0 <= a' /\ a - 1 <= a' <= a /\
    0 <= b' /\ b - 1 <= b' <= b.
Proof.
  intros Hl Ha Ma Hb Mb.
  assert (La : List.length (firstn 5 code) = 5%nat)
    by (rewrite length_firstn; lia).
  assert (Lb : List.length (skipn 5 code) = 5%nat)
    by (rewrite length_skipn; lia).
  pose proof (field_range _ _ La Ha) as Ra.
  pose proof (field_range _ _ Lb Hb) as Rb.
  assert (Ra' : 0 <= a <= 2 ^ 24 - 1) by lia.
  assert (Rb' : 0 <= b <= 2 ^ 24 - 1) by lia.
  destruct (axis_reencode 90 (-45) 1 a ltac:(left; auto) Ra')
    as (a' & Ha' & Ea).
  destruct (axis_reencode 180 (-44) 2 b ltac:(right; auto) Rb')
    as (b' & Hb' & Eb).
  change (2 * 90) with 180 in Ha'. change (2 * 180) with 360 in Hb'.
  pose proof (dequantize_range 90 a ltac:(lia) Ra') as Blat.
  pose proof (dequantize_range 180 b ltac:(lia) Rb') as Blon.
  change (2 * 90) with 180 in Blat. change (2 * 180) with 360 in Blon.
  change (Z.opp 90) with (-90) in Blat.
  change (Z.opp 180) with (-180) in Blon.
  destruct (code_fields a' b' ltac:(lia) ltac:(lia)) as [Fa' Fb'].
  eexists _, _. exists (rev (digits 5 a') ++ rev (digits 5 b')), a', b'.
  split.
  { unfold decode. rewrite Hl. cbn [Nat.eqb negb]. rewrite Ha, Hb.
    cbn [bind]. reflexivity. }
  cbn [int num_add num_sub num_mul num_div binary64]. split.
  - set (lat := (float_of_int a / _ * _ - _)%float) in *.
    set (lon := (float_of_int b / _ * _ - _)%float) in *.
    assert (Qa' : @quantize float binary64 lat 90 180 = Ok a')
      by (apply quantize_floor; exact Ha').
    assert (Qb' : @quantize float binary64 lon 180 360 = Ok b')
      by (apply quantize_floor; exact Hb').
    rewrite encode_unfold, Blat, Blon, Qa', Qb'. reflexivity.
  - repeat (split; [assumption || lia|]). lia.
Qed.

Lemma decode_encode_bucket_witness :
  exists (lat lon : float) (code' : str) (a' b' : Z),
    @decode float binary64 (lit "AAAABM4TF7") = Ok (lat, lon) /\
    @encode float binary64 lat lon = Ok code' /\
    base29_to_int (firstn 5 code') = Ok a' /\
    base29_to_int (skipn 5 code') = Ok b' /\
    0 <= a' /\ 1 - 1 <= a' <= 1 /\
    0 <= b' /\ 8379054 - 1 <= b' <= 8379054.
Proof.
  apply (decode_encode_bucket (lit "AAAABM4TF7") 1 8379054);
    (reflexivity || (cbn; lia)).
Defined.

(** ** The program on binary64: the cases the specification lists *)

Example encode_south_west :
  @encode float binary64 (-90)%float (-180)%float = Ok (lit "AAAAAAAAAA").
Proof. vm_compute. reflexivity. Qed.

Example encode_north_east :
  @encode float binary64 90%float 180%float = Ok (lit "3X7DW3X7DW").
Proof. vm_compute. reflexivity. Qed.

Example decode_north_east :
  @decode float binary64 (lit "3X7DW3X7DW") = Ok (90%float, 180%float).
Proof. vm_compute. reflexivity. Qed.

Example encode_91_0 :
  @encode float binary64 91%float 0%float = Err (OutOfRange Latitude).
Proof. vm_compute. reflexivity. Qed.

Example encode_nan :
  @encode float binary64 nan 0%float = Err (OutOfRange Latitude).
Proof. vm_compute. reflexivity. Qed.

Example decode_nine_chars :
  @decode float binary64 (lit "ABCDEFGHI") = Err InvalidLength.
Proof. vm_compute. reflexivity. Qed.

Example decode_letter_I :
  @decode float binary64 (lit "AAAAAAAAAI") = Err (InvalidSymbol "I").
Proof. vm_compute. reflexivity. Qed.

Example decode_length_first :
  @decode float binary64 (lit "IIIIIIIII") = Err InvalidLength.
Proof. vm_compute. reflexivity. Qed.

Example math_floor_binary64 :
  map float_floor [(-0.5)%float; 3.75%float; (-3)%float; infinity; nan]
  = [Some (-1); Some 3; Some (-3); None; None].
Proof. vm_compute. reflexivity. Qed.
